(** * psminimize: a shallow embedding of the minimisation pipeline

    The pipeline of [main.go] (version 1.0) is embedded stage by stage:
    [stripAllComments], [shortenAllVariableNames], [removeExtraSpaces] and
    [removeAllNewLines].  A Go [string] is a sequence of bytes and is
    modelled as [list ascii]; the text is assumed to be ASCII, as the
    program's pattern matching assumes, so that [strings.ToUpper] and
    [strings.TrimSpace] act byte by byte. *)

From Stdlib Require Import Ascii String.
From Stdlib Require Import List Bool Arith Lia.
From Stdlib Require Import Permutation Sorted DecimalString DecimalNat DecimalFacts.
Import ListNotations.

Set Implicit Arguments.
Local Open Scope list_scope.

(** ** Go strings *)

Definition gostring := list ascii.

(** String literals of the source are written [str "..."]. *)
Definition str (s : string) : gostring := list_ascii_of_string s.
Arguments str s%_string.

Definition beq (a b : ascii) : bool := Ascii.eqb a b.

Fixpoint streq (a b : gostring) : bool :=
  match a, b with
  | [], [] => true
  | x :: a', y :: b' => beq x y && streq a' b'
  | _, _ => false
  end.

(** [strings.HasPrefix s p]. *)
Fixpoint hasPrefix (p s : gostring) : bool :=
  match p, s with
  | [], _ => true
  | x :: p', y :: s' => beq x y && hasPrefix p' s'
  | _ :: _, [] => false
  end.

(** [strings.Contains s p]. *)
Fixpoint contains (p s : gostring) : bool :=
  hasPrefix p s ||
  match s with
  | [] => false
  | _ :: s' => contains p s'
  end.

(** [strings.ToUpper] on ASCII text: the letters a to z lose bit 5. *)
Definition isLower (c : ascii) : bool :=
  let n := nat_of_ascii c in (97 <=? n) && (n <=? 122).

Definition upperChar (c : ascii) : ascii :=
  if isLower c then ascii_of_nat (nat_of_ascii c - 32) else c.

Definition ToUpper (s : gostring) : gostring := map upperChar s.

(** [strings.Replace s old new (-1)]: every non-overlapping occurrence of
    [old], found from the left, becomes [new].  The walk over [s] carries the
    number of bytes of the current match still to be dropped.  For an empty
    [old] Go inserts [new] in front of every character and at the end. *)
Fixpoint replaceFrom (old new : gostring) (skip : nat) (s : gostring) : gostring :=
  match s with
  | [] => []
  | c :: s' =>
      match skip with
      | S k => replaceFrom old new k s'
      | O =>
          if hasPrefix old s
          then new ++ replaceFrom old new (length old - 1) s'
          else c :: replaceFrom old new 0 s'
      end
  end.

Definition Replace (s old new : gostring) : gostring :=
  match old with
  | [] => new ++ flat_map (fun c => c :: new) s
  | _ :: _ => replaceFrom old new 0 s
  end.

(** ** The comment stripper *)

Definition CHARComment : ascii := "#"%char.
Definition ESCChar1 : ascii := "\"%char.
Definition ESCChar2 : ascii := "`"%char.
Definition LT : ascii := "<"%char.
Definition GT : ascii := ">"%char.

(** What a call can end in: a result, a run-time panic (index out of range),
    or the model's loop bound reached (shown below never to happen). *)
Inductive outcome (A : Type) : Type :=
| Done (a : A)
| Panic
| OutOfFuel.
Arguments Panic {A}.
Arguments OutOfFuel {A}.

Definition bindO {A B : Type} (x : outcome A) (f : A -> outcome B) : outcome B :=
  match x with
  | Done a => f a
  | Panic => Panic
  | OutOfFuel => OutOfFuel
  end.

Notation "x <- c ;; k" := (bindO c (fun x => k))
  (at level 61, c at next level, right associativity).

(** The [for i := 0; i < len(line); i++] loop of [stripComments], one
    iteration per unit of fuel.  The state is the index [i], the flag [multi]
    and the bytes kept so far, [minLine]. *)
Fixpoint stripLoop (fuel : nat) (line : gostring) (i : nat) (multi : bool)
    (minLine : gostring) : outcome (gostring * bool) :=
  if negb (i <? length line) then Done (minLine, multi) else
  match fuel with
  | O => OutOfFuel
  | S fuel' =>
      match nth_error line i with
      | None => Panic
      | Some c =>
          if multi then
            if beq c CHARComment then
              (* len(line) >= i && line[i+1] == GT *)
              if i <=? length line then
                match nth_error line (i + 1) with
                | None => Panic
                | Some d =>
                    if beq d GT
                    then stripLoop fuel' line (i + 2) false minLine
                    else stripLoop fuel' line (i + 1) multi minLine
                end
              else stripLoop fuel' line (i + 1) multi minLine
            else stripLoop fuel' line (i + 1) multi minLine
          else if beq c CHARComment then
            match i with
            | O => Panic (* line[i-1] *)
            | S j =>
                match nth_error line j with
                | None => Panic
                | Some p =>
                    if (i <=? length line) && (beq p ESCChar1 || beq p ESCChar2)
                    then stripLoop fuel' line (i + 1) multi (minLine ++ [c])
                    else if (i <=? length line) && beq p LT
                    then match minLine with
                         | [] => Panic (* minLine[:len(minLine)-1] *)
                         | _ :: _ => stripLoop fuel' line (i + 1) true (removelast minLine)
                         end
                    else Done (minLine, multi) (* break *)
                end
            end
          else stripLoop fuel' line (i + 1) multi (minLine ++ [c])
      end
  end.

Definition stripComments (line : gostring) (multi : bool) : outcome (gostring * bool) :=
  match line with
  | [] => Done ([], multi)
  | c :: _ =>
      if beq c CHARComment then Done ([], multi)
      else stripLoop (length line) line 0 multi []
  end.

(** [stripAllComments] rewrites the slice in place, threading [multi]; a
    panic in one line aborts the run. *)
Fixpoint stripAllFrom (lines : list gostring) (multi : bool) : outcome (list gostring) :=
  match lines with
  | [] => Done []
  | l :: rest =>
      match stripComments l multi with
      | Done (l', multi') =>
          match stripAllFrom rest multi' with
          | Done rest' => Done (l' :: rest')
          | Panic => Panic
          | OutOfFuel => OutOfFuel
          end
      | Panic => Panic
      | OutOfFuel => OutOfFuel
      end
  end.

Definition stripAllComments (lines : list gostring) : outcome (list gostring) :=
  stripAllFrom lines false.

(** ** The variable renamer *)

Record PSVariable : Type := mkPSVariable {
  OriginalName : gostring;
  UniqueName : gostring;
  ShortName : gostring;
  Count : nat;
  Reserved : bool
}.

Definition PSVariables := list PSVariable.

Definition setUniqueName (p : PSVariable) (u : gostring) : PSVariable :=
  mkPSVariable (OriginalName p) u (ShortName p) (Count p) (Reserved p).

Definition setShortName (p : PSVariable) (n : gostring) : PSVariable :=
  mkPSVariable (OriginalName p) (UniqueName p) n (Count p) (Reserved p).

Definition markReserved (p : PSVariable) : PSVariable :=
  mkPSVariable (OriginalName p) (UniqueName p) (OriginalName p) (Count p) true.

(** [PSVariables.Less] and [PSVariablesNameMod.Less]. *)
Definition lessCount (a b : PSVariable) : bool := Count b <? Count a.
Definition lessNameMod (a b : PSVariable) : bool :=
  length (OriginalName b) <? length (OriginalName a).

(** What the program takes from its run-time system.  Go leaves the order of
    [range] over a map unspecified, [sort.Sort] is not stable and its
    algorithm belongs to the library, and [uuid.NewRandom] reads the random
    source (and may fail); each is an explicit component of the run. *)
Record runtime : Type := mkRuntime {
  rangeOrder : list (gostring * nat) -> list (gostring * nat);
  sortBy : (PSVariable -> PSVariable -> bool) -> PSVariables -> PSVariables;
  newRandom : nat -> option gostring
}.

(** The discovery pattern, [[`]?\$[A-Z0-9a-z_]*], matched at the head of
    [s]: the longest match, as both the optional escape and the star are
    greedy. *)
Definition isIdent (c : ascii) : bool :=
  let n := nat_of_ascii c in
  ((65 <=? n) && (n <=? 90)) || ((48 <=? n) && (n <=? 57)) ||
  ((97 <=? n) && (n <=? 122)) || (n =? 95).

Fixpoint takeIdent (s : gostring) : gostring :=
  match s with
  | c :: s' => if isIdent c then c :: takeIdent s' else []
  | [] => []
  end.

Definition sigil : ascii := "$"%char.

Definition matchAt (s : gostring) : option gostring :=
  match s with
  | c :: s' =>
      if beq c ESCChar2 then
        match s' with
        | d :: s'' => if beq d sigil then Some (c :: d :: takeIdent s'') else None
        | [] => None
        end
      else if beq c sigil then Some (c :: takeIdent s')
      else None
  | [] => None
  end.

(** [FindAllStringSubmatch line (-1)]: the matches from left to right, each
    search resuming after the previous match.  The pattern has no group, so
    every submatch slice holds the whole match only. *)
Fixpoint findAllFrom (skip : nat) (s : gostring) : list gostring :=
  match s with
  | [] => []
  | _ :: s' =>
      match skip with
      | S k => findAllFrom k s'
      | O =>
          match matchAt s with
          | Some m => m :: findAllFrom (length m - 1) s'
          | None => findAllFrom 0 s'
          end
      end
  end.

Definition findAll (line : gostring) : list gostring := findAllFrom 0 line.

(** [psVarMap[varName]++] on the map kept as an association list without
    duplicate keys. *)
Fixpoint bump (k : gostring) (m : list (gostring * nat)) : list (gostring * nat) :=
  match m with
  | [] => [(k, 1)]
  | (k', v) :: m' => if streq k k' then (k', S v) :: m' else (k', v) :: bump k m'
  end.

Definition countLine (m : list (gostring * nat)) (line : gostring) : list (gostring * nat) :=
  fold_left (fun acc r => bump (ToUpper r) acc) (findAll line) m.

Definition countVars (lines : list gostring) : list (gostring * nat) :=
  fold_left countLine lines [].

Section Renamer.

(** The table [reservedPSVariables] is declared in a file that is not part
    of the sources at hand; the renamer only tests membership in it. *)
Variable reservedPSVariables : list gostring.

Definition isReservedName (k : gostring) : bool :=
  existsb (streq k) reservedPSVariables.

(** The body of the second loop of [getVariables].  Keys are matches of the
    pattern, hence never empty, so [k[0]] is always defined. *)
Definition mkVariable (kv : gostring * nat) : PSVariable :=
  let p := mkPSVariable (fst kv) [] [] (snd kv) false in
  let p := if isReservedName (fst kv) then markReserved p else p in
  match fst kv with
  | c :: _ => if beq c ESCChar2 then markReserved p else p
  | [] => p
  end.

Variable rt : runtime.

Definition getVariables (lines : list gostring) : PSVariables :=
  map mkVariable (rangeOrder rt (countVars lines)).

(** The loop of [assignUniqueRandomNames]: the [i]-th variable takes the
    [i]-th identifier drawn; a failed draw panics. *)
Fixpoint assignFrom (i : nat) (p : PSVariables) : outcome PSVariables :=
  match p with
  | [] => Done []
  | v :: p' =>
      match newRandom rt i with
      | None => Panic
      | Some id =>
          match assignFrom (S i) p' with
          | Done q => Done (setUniqueName v (str "$~~" ++ ToUpper id) :: q)
          | Panic => Panic
          | OutOfFuel => OutOfFuel
          end
      end
  end.

Definition assignUniqueRandomNames (p : PSVariables) : outcome PSVariables :=
  match assignFrom 0 p with
  | Done q => Done (sortBy rt lessNameMod q)
  | Panic => Panic
  | OutOfFuel => OutOfFuel
  end.

End Renamer.

Definition varShortNames : list ascii :=
  map ascii_of_nat
    [65; 66; 67; 68; 69; 70; 71; 72; 73; 74; 75; 76; 77; 78; 79; 80; 81; 82;
     83; 84; 85; 86; 87; 88; 89; 90; 97; 98; 99; 100; 101; 102; 103; 104; 105;
     106; 107; 108; 109; 110; 111; 112; 113; 114; 115; 116; 117; 118; 119;
     120; 121].

(** [strconv.Itoa] on a non-negative number. *)
Definition Itoa (n : nat) : gostring :=
  list_ascii_of_string (NilEmpty.string_of_uint (Nat.to_uint n)).

(** The loop of [generateShortNames], with its two counters.  Indexing
    [varShortNames] outside its bounds panics. *)
Fixpoint generateFrom (count nameIter : nat) (p : PSVariables) : outcome PSVariables :=
  match p with
  | [] => Done []
  | v :: p' =>
      if Reserved v then
        q <- generateFrom count nameIter p' ;; Done (v :: q)
      else if nameIter <? 51 * count then Panic
      else
        match nth_error varShortNames (nameIter - 51 * count) with
        | None => Panic
        | Some c =>
            let s := [sigil; c] in
            let s := if 0 <? count then s ++ Itoa (count - 1) else s in
            let count' := if (nameIter + 1) mod 51 =? 0 then count + 1 else count in
            q <- generateFrom count' (nameIter + 1) p' ;;
            Done (setShortName v s :: q)
        end
  end.

Definition generateShortNames (p : PSVariables) : outcome PSVariables :=
  generateFrom 0 0 p.

(** The inner loops of the two substitution passes, on one line. *)
Definition toUnique (p : PSVariables) (line : gostring) : gostring :=
  fold_left (fun l v => Replace l (OriginalName v) (UniqueName v)) p (ToUpper line).

Definition toShort (p : PSVariables) (line : gostring) : gostring :=
  fold_left (fun l v => Replace l (UniqueName v) (ShortName v)) p line.

Section Pipeline.

Variable reservedPSVariables : list gostring.
Variable rt : runtime.

(** [replaceVariablesWithUnique]: the variables are sorted once more, then
    every line is upper-cased and rewritten. *)
Definition replaceVariablesWithUnique (p : PSVariables) (lines : list gostring)
  : PSVariables * list gostring :=
  let p' := sortBy rt lessNameMod p in
  (p', map (toUnique p') lines).

Definition replaceUniqueWithShort (p : PSVariables) (lines : list gostring)
  : list gostring :=
  map (toShort p) lines.

(** [shortenVariables]; the variable slice is returned next to the lines
    so that the names it ends with can be inspected. *)
Definition shortenVariables (p : PSVariables) (lines : list gostring)
  : outcome (PSVariables * list gostring) :=
  let p := sortBy rt lessCount p in
  p <- assignUniqueRandomNames rt p ;;
  p <- generateShortNames p ;;
  let '(p, lines) := replaceVariablesWithUnique p lines in
  Done (p, replaceUniqueWithShort p lines).

Definition renameRun (lines : list gostring) : outcome (PSVariables * list gostring) :=
  shortenVariables (getVariables reservedPSVariables rt lines) lines.

Definition shortenAllVariableNames (lines : list gostring) : outcome (list gostring) :=
  r <- renameRun lines ;; Done (snd r).

End Pipeline.

(** ** The spacing compactor *)

(** The substitutions of [removeExtraSpaces], in the order of the source;
    the entry for a space in front of a minus sign is commented out there. *)
Definition spacingTable : list (gostring * gostring) :=
  [ (str " =", str "="); (str "= ", str "=");
    (str " +", str "+"); (str "+ ", str "+");
    (str "- ", str "-");
    (str " *", str "*"); (str "* ", str "*");
    (str " -EQ", str "-EQ"); (str "-EQ ", str "-EQ");
    (str " -GT", str "-GT"); (str "-GT ", str "-GT");
    (str " -LT", str "-LT"); (str "-LT ", str "-LT");
    (str " -NE", str "-NE"); (str "-NE ", str "-NE");
    (str " -LE", str "-LE"); (str "-LE ", str "-LE");
    (str " -GE", str "-GE"); (str "-GE ", str "-GE");
    (str " /", str "/"); (str "/ ", str "/");
    (str "( ", str "("); (str " (", str "(");
    (str " )", str ")"); (str ") ", str ")");
    (str "[ ", str "["); (str " [", str "[");
    (str " ]", str "]"); (str "] ", str "]");
    (str "{ ", str "{"); (str " {", str "{");
    (str " }", str "}"); (str "} ", str "}");
    (str "; ", str ";"); (str " ;", str ";") ].

Definition compactLine (line : gostring) : gostring :=
  fold_left (fun l sub => Replace l (fst sub) (snd sub)) spacingTable line.

Definition removeExtraSpaces (lines : list gostring) : list gostring :=
  map compactLine lines.

(** ** The line joiner *)

(** [strings.TrimSpace] on ASCII text: tab, line feed, vertical tab, form
    feed, carriage return and space. *)
Definition isSpace (c : ascii) : bool :=
  let n := nat_of_ascii c in ((9 <=? n) && (n <=? 13)) || (n =? 32).

Fixpoint trimLeft (s : gostring) : gostring :=
  match s with
  | c :: s' => if isSpace c then trimLeft s' else s
  | [] => []
  end.

Definition TrimSpace (s : gostring) : gostring :=
  rev (trimLeft (rev (trimLeft s))).

Definition hasSuffix (suf s : gostring) : bool :=
  (length suf <=? length s) && streq (skipn (length s - length suf) s) suf.

Definition TrimSuffix (s suf : gostring) : gostring :=
  if hasSuffix suf s then firstn (length s - length suf) s else s.

Definition newline : gostring := [ascii_of_nat 10].
Definition carriage : gostring := [ascii_of_nat 13].

(** One iteration of the loop of [removeAllNewLines]: [None] when the line
    is skipped, otherwise the line appended to the result. *)
Definition trimLine (line : gostring) : gostring :=
  let l := TrimSpace line in
  let l := TrimSuffix l newline in
  TrimSuffix l carriage.

Definition joinLine (line : gostring) : option gostring :=
  let l := trimLine line in
  if streq l [] then None
  else
    let last := skipn (length l - 1) l in
    if streq last (str "}") || streq last (str "{") ||
       streq last (str "(") || streq last (str ";")
    then Some l
    else if streq last (str "]") then Some (l ++ newline)
    else if streq last (str "M") then
      if 5 <=? length l then
        if streq (skipn (length l - 5) l) (str "PARAM")
        then Some l (* append and continue *)
        else Some l
      else Some (l ++ str ";")
    else Some (l ++ str ";").

Definition removeAllNewLines (lines : list gostring) : list gostring :=
  flat_map (fun line => match joinLine line with
                        | Some l => [l]
                        | None => []
                        end) lines.

(** ** The whole run *)

Definition minimize (reservedPSVariables : list gostring) (rt : runtime)
    (lines : list gostring) : outcome (list gostring) :=
  stripped <- stripAllComments lines ;;
  renamed <- shortenAllVariableNames reservedPSVariables rt stripped ;;
  Done (removeAllNewLines (removeExtraSpaces renamed)).

(** ** A run-time system to evaluate with *)

(** Insertion sort, which is what [sort.Sort] runs on short slices: each
    element moves left past the elements it is [less] than. *)
Fixpoint insertBy (less : PSVariable -> PSVariable -> bool) (x : PSVariable)
    (l : PSVariables) : PSVariables :=
  match l with
  | [] => [x]
  | y :: l' => if less x y then x :: l else y :: insertBy less x l'
  end.

Definition insertionSort (less : PSVariable -> PSVariable -> bool)
    (p : PSVariables) : PSVariables :=
  fold_left (fun acc x => insertBy less x acc) p [].

(** Identifiers in the textual form of [uuid.UUID.String], numbered. *)
Definition hexDigit (n : nat) : ascii :=
  if n <? 10 then ascii_of_nat (48 + n) else ascii_of_nat (87 + n).

Fixpoint hexRev (width n : nat) : gostring :=
  match width with
  | O => []
  | S w => hexDigit (n mod 16) :: hexRev w (n / 16)
  end.

Definition hex12 (n : nat) : gostring := rev (hexRev 12 n).

Definition uuidNumbered (base : nat) (i : nat) : option gostring :=
  Some (str "6ba7b810-9dad-41d1-80b4-" ++ hex12 (base + i)).

(** Runs that differ in the identifiers drawn only. *)
Definition runWith (base : nat) : runtime :=
  mkRuntime (fun m => m) insertionSort (uuidNumbered base).

(** What the theorems ask of a run-time system: [range] yields every entry of
    the map once, and [sort.Sort] returns its input reordered so that no
    element is [less] than one before it. *)
Definition sortedDesc (key : PSVariable -> nat) (p : PSVariables) : Prop :=
  StronglySorted (fun a b => key b <= key a) p.

Record goodRuntime (rt : runtime) : Prop := mkGoodRuntime {
  range_perm : forall m, Permutation (rangeOrder rt m) m;
  sort_perm : forall less p, Permutation (sortBy rt less p) p;
  sort_sorted : forall (key : PSVariable -> nat) p,
      sortedDesc key (sortBy rt (fun a b => key b <? key a) p)
}.

(** [uuid.UUID.String] is 36 characters long, lower-case hexadecimal digits
    and dashes. *)
Definition isUUIDChar (c : ascii) : bool :=
  let n := nat_of_ascii c in
  ((48 <=? n) && (n <=? 57)) || ((97 <=? n) && (n <=? 102)) || (n =? 45).

Definition isUUIDText (u : gostring) : bool :=
  (length u =? 36) && forallb isUUIDChar u.

(** The identifiers drawn for [n] variables all arrive, well formed and
    pairwise different. *)
Definition drawsDistinct (rt : runtime) (n : nat) : Prop :=
  (forall i, i < n -> exists u, newRandom rt i = Some u /\ isUUIDText u = true) /\
  (forall i j, i < n -> j < n -> newRandom rt i = newRandom rt j -> i = j).

(** ** Closed forms of the loops *)

(** The [k]-th name of the allocation sequence, as [generateShortNames]
    produces it when its counters stand at [nameIter = k] and
    [count = k / 51]. *)
Definition shortNameAt (k : nat) : gostring :=
  [sigil; nth (k mod 51) varShortNames "A"%char] ++
  (if 0 <? k / 51 then Itoa (k / 51 - 1) else []).

Fixpoint assignShort (k : nat) (p : PSVariables) : PSVariables :=
  match p with
  | [] => []
  | v :: p' =>
      if Reserved v then v :: assignShort k p'
      else setShortName v (shortNameAt k) :: assignShort (S k) p'
  end.

Definition aliasOf (rt : runtime) (i : nat) : gostring :=
  match newRandom rt i with
  | Some id => str "$~~" ++ ToUpper id
  | None => []
  end.

Fixpoint withAliases (rt : runtime) (i : nat) (p : PSVariables) : PSVariables :=
  match p with
  | [] => []
  | v :: p' => setUniqueName v (aliasOf rt i) :: withAliases rt (S i) p'
  end.

(** The variable slice as [shortenVariables] leaves it. *)
Definition finalVars (reserved : list gostring) (rt : runtime)
    (lines : list gostring) : PSVariables :=
  sortBy rt lessNameMod
    (assignShort 0
       (sortBy rt lessNameMod
          (withAliases rt 0
             (sortBy rt lessCount (getVariables reserved rt lines))))).

Definition notReserved (v : PSVariable) : bool := negb (Reserved v).

(** A few names of the kind the reserved table holds, to evaluate with. *)
Definition sampleReserved : list gostring :=
  map str ["$_"; "$ARGS"; "$NULL"; "$TRUE"; "$FALSE"; "$PSITEM"]%string.

(** [strings.Count s sub] for a non-empty [sub]: the number of
    non-overlapping occurrences, used to count occurrence sites. *)
Fixpoint countFrom (sub : gostring) (skip : nat) (s : gostring) : nat :=
  match s with
  | [] => 0
  | _ :: s' =>
      match skip with
      | S k => countFrom sub k s'
      | O => if hasPrefix sub s
             then S (countFrom sub (length sub - 1) s')
             else countFrom sub 0 s'
      end
  end.

Definition occurrences (sub s : gostring) : nat := countFrom sub 0 s.

(** ** Around the pipeline *)

(** [getLength]: the number of bytes of all the lines. *)
Definition getLength (lines : list gostring) : nat :=
  fold_left (fun l line => l + length line) lines 0.

(** [getNextShortName]: a [byte] is an 8-bit character, so that
    [lastName++] starts over at zero after 255; the test against 172 has an
    empty body. *)
Definition getNextShortName (lastName : ascii) : ascii :=
  if nat_of_ascii lastName =? 0 then ascii_of_nat 65
  else
    let lastName := ascii_of_nat (nat_of_ascii lastName + 1) in
    if nat_of_ascii lastName =? 91 then ascii_of_nat 97
    else lastName.

(** What [saveToFile] takes from the file system: whether [os.Create]
    succeeds on the path, and whether the [i]-th [WriteString] does.  A file
    just created is empty and every write appends to it; an error panics. *)
Record disk : Type := mkDisk {
  createOk : gostring -> bool;
  writeOk : nat -> bool
}.

Fixpoint writeFrom (d : disk) (i : nat) (lines : list gostring) (file : gostring)
  : outcome gostring :=
  match lines with
  | [] => Done file
  | l :: rest =>
      if writeOk d i then writeFrom d (S i) rest (file ++ l) else Panic
  end.

Definition saveToFile (d : disk) (lines : list gostring) (filePath : gostring)
  : outcome gostring :=
  if createOk d filePath then writeFrom d 0 lines [] else Panic.

(** [PSVariables.Len] and [Swap], which [PSVariablesNameMod] repeats.
    [p[i], p[j] = p[j], p[i]] reads both elements and then writes them; an
    index outside the slice panics. *)
Definition Len (p : PSVariables) : nat := length p.

Fixpoint setAt (p : PSVariables) (i : nat) (v : PSVariable) : PSVariables :=
  match p, i with
  | [], _ => []
  | _ :: p', O => v :: p'
  | x :: p', S i' => x :: setAt p' i' v
  end.

Definition Swap (p : PSVariables) (i j : nat) : outcome PSVariables :=
  match nth_error p i, nth_error p j with
  | Some a, Some b => Done (setAt (setAt p i b) j a)
  | _, _ => Panic
  end.

(** The verb [%-120s] of [fmt.Printf]: the text, then spaces up to a width
    of 120 characters. *)
Definition padRight (width : nat) (s : gostring) : gostring :=
  s ++ repeat " "%char (width - length s).

(** One iteration of the loop of [printComparison]: the row printed for
    the index [i]. *)
Definition comparisonRow (original minimized : list gostring) (i : nat)
  : outcome gostring :=
  match nth_error original i with
  | None => Panic
  | Some o =>
      if i <? length minimized then
        match nth_error minimized i with
        | None => Panic
        | Some m => Done (padRight 120 o ++ str " | " ++ m ++ newline)
        end
      else Done (padRight 120 o ++ str " |" ++ newline)
  end.

Fixpoint printRows (original minimized : list gostring) (indices : list nat)
  : outcome (list gostring) :=
  match indices with
  | [] => Done []
  | i :: rest =>
      r <- comparisonRow original minimized i ;;
      rs <- printRows original minimized rest ;;
      Done (r :: rs)
  end.

Definition printComparison (original minimized : list gostring)
  : outcome (list gostring) :=
  printRows original minimized (seq 0 (length original)).

(** A run-time system whose random source fails. *)
Definition noEntropy : runtime :=
  mkRuntime (fun m => m) insertionSort (fun _ => None).

(** The identifiers drawn for [n] variables all arrive and are well formed;
    nothing is asked of how they compare. *)
Definition drawsArrive (rt : runtime) (n : nat) : Prop :=
  forall i, i < n -> exists u, newRandom rt i = Some u /\ isUUIDText u = true.


(** * Definitions used to state the properties *)

(** A one-line script with a regular expression that ends in the sigil. *)
Definition regexLine : gostring := str "$name -match 'x$'".

(** A one-line script with 52 variables: [$i] twice, the others once. *)
Definition manyLine : gostring :=
  str "$i = $i + $v00 + $v01 + $v02 + $v03 + $v04 + $v05 + $v06 + $v07 + $v08 + $v09 + $v10 + $v11 + $v12 + $v13 + $v14 + $v15 + $v16 + $v17 + $v18 + $v19 + $v20 + $v21 + $v22 + $v23 + $v24 + $v25 + $v26 + $v27 + $v28 + $v29 + $v30 + $v31 + $v32 + $v33 + $v34 + $v35 + $v36 + $v37 + $v38 + $v39 + $v40 + $v41 + $v42 + $v43 + $v44 + $v45 + $v46 + $v47 + $v48 + $v49 + $v50".

(** ** Variables and their names *)

(** Every match starts with the sigil, or with the escape marker and the
    sigil. *)
Definition startsVar (k : gostring) : bool :=
  match k with
  | c :: r =>
      beq c sigil ||
      (beq c ESCChar2 && match r with
                         | d :: _ => beq d sigil
                         | [] => false
                         end)
  | [] => false
  end.

(** The name starts with the escape marker. *)
Definition escaped (k : gostring) : bool :=
  match k with
  | c :: _ => beq c ESCChar2
  | [] => false
  end.

(** The reserved flag says what the discovery decided, a reserved variable
    keeps its name as its short name, and names have the shape of a match. *)
Definition varOk (reserved : list gostring) (v : PSVariable) : Prop :=
  Reserved v = (isReservedName reserved (OriginalName v) || escaped (OriginalName v)) /\
  (Reserved v = true -> ShortName v = OriginalName v) /\
  startsVar (OriginalName v) = true.

(** The inverse of [upperChar] on the letters. *)
Definition lowerChar (c : ascii) : ascii :=
  let n := nat_of_ascii c in
  if (65 <=? n) && (n <=? 90) then ascii_of_nat (n + 32) else c.

Definition isDigit (c : ascii) : bool :=
  let n := nat_of_ascii c in (48 <=? n) && (n <=? 57).


(** No lower-case letter occurs in [s]. *)
Definition noLower (s : gostring) : bool := forallb (fun c => negb (isLower c)) s.

(** The alias as [assignUniqueRandomNames] builds it from a well-formed
    identifier. *)
Definition aliasOk (v : PSVariable) : Prop :=
  exists id, isUUIDText id = true /\ UniqueName v = str "$~~" ++ ToUpper id.

(** ** Lines as words *)

Definition sp : ascii := " "%char.

Definition nospace (w : gostring) : bool := forallb (fun c => negb (beq c sp)) w.

(** The words of a line, put together again with one space between them. *)
Fixpoint join (ws : list gostring) : gostring :=
  match ws with
  | [] => []
  | w :: rest =>
      match rest with
      | [] => w
      | _ :: _ => w ++ sp :: join rest
      end
  end.

(** One substitution of the table seen on the words: the space between two
    neighbours goes when [d] says so of the two words as they stand before the
    substitution; [acc] is what has been glued in front of the current
    word. *)
Fixpoint mergeAcc (d : gostring -> gostring -> bool) (acc : gostring)
    (ws : list gostring) : list gostring :=
  match ws with
  | [] => [acc]
  | u :: rest =>
      match rest with
      | [] => [acc ++ u]
      | v :: _ =>
          if d u v then mergeAcc d (acc ++ u) rest
          else (acc ++ u) :: mergeAcc d [] rest
      end
  end.

(** The two kinds of entries of the table: the space goes in front of a word
    that starts with the token, or behind a word that ends with it. *)
Definition before (tok : gostring) (u v : gostring) : bool := hasPrefix tok v.

Definition after (tok : gostring) (u v : gostring) : bool := hasSuffix tok u.

(** Whether two neighbouring words stand in the relation [P]. *)
Fixpoint adj (P : gostring -> gostring -> bool) (ws : list gostring) : bool :=
  match ws with
  | [] => false
  | u :: rest =>
      match rest with
      | [] => false
      | v :: _ => P u v || adj P rest
      end
  end.

Definition isEmpty (w : gostring) : bool :=
  match w with
  | [] => true
  | _ :: _ => false
  end.

(** In a line without two spaces in a row, only the first and the last word
    can be empty: all the words of [l] but the last are not. *)
Fixpoint inner (l : list gostring) : bool :=
  match l with
  | [] => true
  | w :: rest =>
      match rest with
      | [] => true
      | _ :: _ => negb (isEmpty w) && inner rest
      end
  end.

Definition midOk (ws : list gostring) : bool := inner (tl ws).

(** Two neighbours stand in the relation [P] and [d] leaves the space
    between them. *)
Definition survive (d P : gostring -> gostring -> bool) (ws : list gostring) : bool :=
  adj (fun u v => negb (d u v) && P u v) ws.

(** The ways to cut a token in two parts, neither of them empty. *)
Definition splits (t : gostring) : list (gostring * gostring) :=
  map (fun i => (firstn i t, skipn i t)) (seq 1 (length t - 1)).

(** Decidable conditions under which a substitution for the token [t2] cannot
    bring back a pattern of the token [t]; the first letter tells the side of
    the pattern, the second the side of the substitution. *)
Definition checkBB (t t2 : gostring) : bool :=
  forallb (fun hg => negb (hasPrefix (snd hg) t2) && negb (hasPrefix t2 (snd hg)))
          (splits t).

Definition checkBA (t t2 : gostring) : bool :=
  forallb (fun hg => negb (hasSuffix t2 (fst hg))) (splits t).

Definition checkAB (t t2 : gostring) : bool :=
  forallb (fun hg => negb (hasPrefix t2 (snd hg))) (splits t).

Definition checkAA (t t2 : gostring) : bool :=
  forallb (fun hg => negb (hasSuffix (fst hg) t2) && negb (hasSuffix t2 (fst hg)))
          (splits t).

(** ** The table as a sequence of merges *)

Inductive side : Type := Before | After.

Definition step : Type := (side * gostring)%type.

Definition decide (s : step) : gostring -> gostring -> bool :=
  match fst s with
  | Before => before (snd s)
  | After => after (snd s)
  end.

Definition pattern (s : step) : gostring :=
  match fst s with
  | Before => sp :: snd s
  | After => snd s ++ [sp]
  end.

Definition stepOf (sub : gostring * gostring) : step :=
  if hasPrefix [sp] (fst sub) then (Before, snd sub) else (After, snd sub).

Definition tokOk (s : step) : bool := negb (isEmpty (snd s)) && nospace (snd s).

Definition compat (P D : step) : bool :=
  match fst P, fst D with
  | Before, Before => checkBB (snd P) (snd D)
  | Before, After => checkBA (snd P) (snd D)
  | After, Before => checkAB (snd P) (snd D)
  | After, After => checkAA (snd P) (snd D)
  end.

Fixpoint allCompat (done steps : list step) : bool :=
  match steps with
  | [] => true
  | s :: rest => forallb (fun P => compat P s) (s :: done) && allCompat (s :: done) rest
  end.

Definition runSteps (steps : list step) (ws : list gostring) : list gostring :=
  fold_left (fun ws s => mergeAcc (decide s) [] ws) steps ws.

Definition allNospace (ws : list gostring) : Prop :=
  Forall (fun w => nospace w = true) ws.

Definition tableSteps : list step := map stepOf spacingTable.

(** The tokens with a substitution on both sides in the table. *)
Definition twoSidedTokens : list gostring :=
  map str ["="; "+"; "*"; "/"; "-EQ"; "-NE"; "-LT"; "-LE"; "-GT"; "-GE";
           "("; ")"; "["; "]"; "{"; "}"; ";"]%string.

(** ** Lines as matches and gaps *)

(** A line cut where the discovery pattern matches: the matches, and the
    characters between them. *)
Inductive item : Type :=
| Gap (c : ascii)
| Tok (m : gostring).

Fixpoint itemsFrom (skip : nat) (s : gostring) : list item :=
  match s with
  | [] => []
  | c :: s' =>
      match skip with
      | S k => itemsFrom k s'
      | O =>
          match matchAt s with
          | Some m => Tok m :: itemsFrom (length m - 1) s'
          | None => Gap c :: itemsFrom 0 s'
          end
      end
  end.

Definition itemize (s : gostring) : list item := itemsFrom 0 s.

(** The line written out again, every match through [f]. *)
Definition renderItem (f : gostring -> gostring) (it : item) : gostring :=
  match it with
  | Gap c => [c]
  | Tok m => f m
  end.

Definition render (f : gostring -> gostring) (items : list item) : gostring :=
  flat_map (renderItem f) items.

Definition tokensOf (items : list item) : list gostring :=
  flat_map (fun it => match it with Gap _ => [] | Tok m => [m] end) items.

(** The shape of a match: the sigil, maybe after the escape marker, and
    identifier characters; a bare match has none of these. *)
Definition nameShape (m : gostring) : bool :=
  match m with
  | c :: r =>
      if beq c ESCChar2 then
        match r with
        | d :: ids => beq d sigil && forallb isIdent ids
        | [] => false
        end
      else beq c sigil && forallb isIdent r
  | [] => false
  end.

Definition bare (m : gostring) : bool := streq m [sigil] || streq m [ESCChar2; sigil].

Definition okItem (it : item) : Prop :=
  match it with
  | Gap c => beq c sigil = false
  | Tok m => nameShape m = true
  end.

(** What may follow an item: no sigil-led match after an escape marker left
    in a gap, and no identifier character after a match. *)
Definition okAfter (it : item) (next : option item) : Prop :=
  match it, next with
  | Gap c, Some (Tok m) => beq c ESCChar2 = true -> hasPrefix [sigil] m = false
  | Tok _, Some (Gap c) => isIdent c = false
  | _, _ => True
  end.

Fixpoint WF (items : list item) : Prop :=
  match items with
  | [] => True
  | it :: rest => okItem it /\ okAfter it (hd_error rest) /\ WF rest
  end.

Definition tilde : ascii := "~"%char.

Definition plainChar (c : ascii) : bool :=
  negb (beq c sigil) && negb (beq c ESCChar2).

(** A transient alias: the sigil, two tildes and 36 characters among which
    neither the sigil nor the escape marker. *)
Definition aliasShape (a : gostring) : Prop :=
  exists X, a = sigil :: tilde :: tilde :: X /\
            forallb plainChar X = true /\ length X = 36.

Definition override (f : gostring -> gostring) (N U : gostring) : gostring -> gostring :=
  fun m => if streq m N then U else f m.

(** What the text after a match, and after an escape marker left in a gap,
    does not start with. *)
Definition afterTokOk (R : gostring) : Prop :=
  match R with
  | c :: _ => isIdent c = false
  | [] => True
  end.

Definition afterTickOk (R : gostring) : Prop :=
  match R with
  | c :: d :: _ => beq c sigil = true -> isIdent d = false
  | _ => True
  end.

(** A match still stands as itself and is not longer than [N], or it has
    been replaced by an alias. *)
Definition tokOk1 (f : gostring -> gostring) (N m : gostring) : Prop :=
  (f m = m /\ length m <= length N) \/ (m <> N /\ aliasShape (f m)).

(** A match stands as the alias that is being replaced, as another alias,
    or as a name (its short name) already. *)
Definition tokOk2 (g : gostring -> gostring) (N U m : gostring) : Prop :=
  (m = N /\ g m = U) \/
  (m <> N /\ aliasShape (g m) /\ g m <> U) \/
  (m <> N /\ nameShape (g m) = true /\ bare (g m) = false).

(** The variable of a name. *)
Definition lookup (p : PSVariables) (m : gostring) : option PSVariable :=
  find (fun v => streq m (OriginalName v)) p.

(** What stands in place of a match after the first pass over [done]. *)
Definition aliasMap (done : PSVariables) (m : gostring) : gostring :=
  match lookup done m with
  | Some v => UniqueName v
  | None => m
  end.

(** What stands in place of a match when the second pass has gone over
    [done], the first pass having gone over [p]. *)
Definition shortMap (p done : PSVariables) (m : gostring) : gostring :=
  match lookup done m with
  | Some v => ShortName v
  | None => aliasMap p m
  end.

(** The short name that stands for a match at the end. *)
Definition shortOf (p : PSVariables) (m : gostring) : gostring :=
  match lookup p m with
  | Some v => ShortName v
  | None => m
  end.

(** A name with at least one identifier character. *)
Definition nameOk (m : gostring) : Prop := nameShape m = true /\ bare m = false.

Definition step1 (l : gostring) (v : PSVariable) : gostring :=
  Replace l (OriginalName v) (UniqueName v).

Definition step2 (l : gostring) (v : PSVariable) : gostring :=
  Replace l (UniqueName v) (ShortName v).

(** ** Counts, operators and white space *)

(** The count the discovery holds for a name, zero when it has none. *)
Definition countOf (m : list (gostring * nat)) (k : gostring) : nat :=
  match find (fun kv => streq k (fst kv)) m with
  | Some kv => snd kv
  | None => 0
  end.

(** The characters the tokens of the spacing table are written with, apart
    from the letters of the comparison operators. *)
Definition operatorChars : gostring := str "=+-*/()[]{};".

(** No white space at either end. *)
Definition trimmed (t : gostring) : bool :=
  match t with
  | [] => true
  | c :: _ => negb (isSpace c) && negb (isSpace (last t c))
  end.

(** ** Lower-case letters in the output *)

(** Every lower-case letter of [s] stands right behind a sigil and is a
    letter that [ok] admits; [prev] tells whether a sigil stands in front of
    [s]. *)
Fixpoint lowerAfter (ok : ascii -> bool) (prev : bool) (s : gostring) : bool :=
  match s with
  | [] => true
  | c :: r =>
      (negb (isLower c) || (prev && ok c)) && lowerAfter ok (beq c sigil) r
  end.

(** The sigil and [c] start the short name of a variable of [p] that is not
    reserved. *)
Definition nameLetter (p : PSVariables) (c : ascii) : bool :=
  existsb (fun v => negb (Reserved v) && hasPrefix [sigil; c] (ShortName v)) p.

(** The lower-case letters of [s] are letters of short names of [p]. *)
Definition lowerInNames (p : PSVariables) (s : gostring) : bool :=
  lowerAfter (nameLetter p) false s.

(** * Properties *)

(** ** Basic facts on strings *)

Lemma beq_refl (c : ascii) : beq c c = true.
Proof. apply Ascii.eqb_refl. Qed.

Lemma beq_eq (a b : ascii) : beq a b = true <-> a = b.
Proof. apply Ascii.eqb_eq. Qed.

Lemma beq_neq (a b : ascii) : a <> b -> beq a b = false.
Proof. intro H. apply Ascii.eqb_neq. exact H. Qed.

Lemma streq_eq (a b : gostring) : streq a b = true <-> a = b.
Proof.
  revert b; induction a as [|x a IH]; intros [|y b]; simpl; split; intro H;
    try reflexivity; try discriminate.
  - apply andb_true_iff in H as [H1 H2]. apply beq_eq in H1. apply IH in H2.
    now subst.
  - injection H as -> ->. rewrite beq_refl. simpl. now apply IH.
Qed.

Lemma streq_refl (a : gostring) : streq a a = true.
Proof. now apply streq_eq. Qed.

(** ** The comment stripper *)

Example strip_inline :
  stripComments (str "a <# note #> b") false = Done (str "a  b", false).
Proof. reflexivity. Qed.

Example strip_escaped :
  stripComments (str "a `# b") false = Done (str "a `# b", false).
Proof. reflexivity. Qed.

Example strip_line :
  stripComments (str "x = 1 # set") false = Done (str "x = 1 ", false).
Proof. reflexivity. Qed.

Example strip_close_mid :
  stripComments (str "end #> code") true = Done (str " code", false).
Proof. reflexivity. Qed.

(** The loop bound of the model is never the reason a call ends: every
    iteration moves the index forward. *)
Lemma stripLoop_fuel (line : gostring) :
  forall fuel i multi minLine,
    length line - i <= fuel ->
    stripLoop fuel line i multi minLine <> OutOfFuel.
Proof.
  induction fuel as [|fuel IH]; intros i multi minLine Hf; simpl.
  - destruct (i <? length line) eqn:E; simpl; [|discriminate].
    apply Nat.ltb_lt in E. lia.
  - destruct (i <? length line) eqn:E; simpl; [|discriminate].
    apply Nat.ltb_lt in E.
    destruct (nth_error line i) as [c|]; [|discriminate].
    destruct multi.
    + destruct (beq c CHARComment); [|apply IH; lia].
      destruct (i <=? length line); [|apply IH; lia].
      destruct (nth_error line (i + 1)) as [d|]; [|discriminate].
      destruct (beq d GT); apply IH; lia.
    + destruct (beq c CHARComment); [|apply IH; lia].
      destruct i as [|j]; [discriminate|].
      destruct (nth_error line j) as [p|]; [|discriminate].
      destruct ((S j <=? length line) && (beq p ESCChar1 || beq p ESCChar2));
        [apply IH; lia|].
      destruct ((S j <=? length line) && beq p LT); [|discriminate].
      destruct minLine; [discriminate|apply IH; lia].
Qed.

Lemma stripComments_fuel (line : gostring) (multi : bool) :
  stripComments line multi <> OutOfFuel.
Proof.
  unfold stripComments. destruct line as [|c l]; [discriminate|].
  destruct (beq c CHARComment); [discriminate|].
  apply stripLoop_fuel. lia.
Qed.

(** C2. A line that starts with the comment marker is answered by the
    guard in front of the loop, in either state: inside a block comment a
    line that opens with the closing sequence yields an empty line and the
    stripper stays inside the comment, whatever follows the sequence. *)
Theorem block_close_at_line_start (rest : gostring) (multi : bool) :
  stripComments (str "#>" ++ rest) multi = Done ([], multi) /\
  stripComments (str "#> code") true = Done ([], true) /\
  stripAllComments [str "<#"; str "note"; str "#>"; str "$x = 1"]
    = Done [[]; []; []; []].
Proof. repeat split; reflexivity. Qed.

(** Inside a block comment a line without any comment marker is dropped and
    the stripper stays inside the comment, so that a block comment left open
    empties every such line up to the end of the input. *)
Lemma stripLoop_inside_plain (line : gostring) :
  (forall j c, nth_error line j = Some c -> beq c CHARComment = false) ->
  forall fuel i minLine,
    length line - i <= fuel ->
    stripLoop fuel line i true minLine = Done (minLine, true).
Proof.
  intro Hplain. induction fuel as [|fuel IH]; intros i minLine Hf; simpl.
  - destruct (i <? length line) eqn:E; simpl; [|reflexivity].
    apply Nat.ltb_lt in E. lia.
  - destruct (i <? length line) eqn:E; simpl; [|reflexivity].
    apply Nat.ltb_lt in E.
    destruct (nth_error line i) as [c|] eqn:Ec.
    + rewrite (Hplain i c Ec). apply IH. lia.
    + apply nth_error_None in Ec. lia.
Qed.

Lemma block_line_without_marker (line : gostring) :
  ~ In CHARComment line -> stripComments line true = Done ([], true).
Proof.
  intro H. unfold stripComments. destruct line as [|c l]; [reflexivity|].
  destruct (beq c CHARComment); [reflexivity|].
  apply stripLoop_inside_plain; [|lia].
  intros j x Hx. destruct (beq x CHARComment) eqn:E; [|reflexivity].
  apply beq_eq in E. subst x. exfalso. apply H. eapply nth_error_In, Hx.
Qed.

(** C4. Inside a block comment, a comment marker that ends the line makes
    the look-ahead read past the end of the line: the call panics instead of
    returning. *)
Theorem trailing_marker_in_block_panics :
  stripComments (str "a#") true = Panic /\
  stripAllComments [str "<#"; str "see issue #"; str "#>"] = Panic.
Proof. split; reflexivity. Qed.

(** ** The line joiner *)

Ltac eval_beq :=
  repeat match goal with
         | |- context [beq ?a ?b] =>
             let v := eval vm_compute in (beq a b) in
             change (beq a b) with v
         end;
  cbn [orb andb].

Lemma skipn_last_one (pre : gostring) (c : ascii) :
  skipn (length (pre ++ [c]) - 1) (pre ++ [c]) = [c].
Proof.
  rewrite length_app. simpl.
  replace (length pre + 1 - 1) with (length pre) by lia.
  induction pre; simpl; auto.
Qed.

Lemma skipn_suffix (pre suf : gostring) :
  skipn (length (pre ++ suf) - length suf) (pre ++ suf) = suf.
Proof.
  rewrite length_app.
  replace (length pre + length suf - length suf) with (length pre) by lia.
  induction pre; simpl; auto.
Qed.

Lemma streq_single (c d : ascii) : streq [c] [d] = beq c d.
Proof. simpl. now rewrite andb_true_r. Qed.

Lemma app_single_nonempty (pre : gostring) (c : ascii) : streq (pre ++ [c]) [] = false.
Proof. destruct pre; reflexivity. Qed.

(** C9, as stated, fails: a line that ends in a closing brace is in the
    first case of the switch and receives nothing, and so does a line of five
    characters or more that ends in M. *)
Lemma joiner_separator_counterexample :
  ~ (forall line pre c,
        trimLine line = pre ++ [c] ->
        c <> "{"%char -> c <> "("%char -> c <> ";"%char -> c <> "]"%char ->
        hasSuffix (str "PARAM") (trimLine line) = false ->
        joinLine line = Some (trimLine line ++ str ";")).
Proof.
  intro H.
  specialize (H (str "}") [] "}"%char).
  vm_compute in H.
  assert (E : Some (str "}") = Some (str "};")).
  { apply H; try reflexivity; intro E; discriminate E. }
  discriminate E.
Qed.

(** C9, amended. For a line whose trimmed text ends in the character [c]:
    when [c] is none of the closing brace, the opening brace, the opening
    parenthesis, the separator, the closing bracket and the letter M, the
    joiner appends a separator; when [c] is M and the trimmed text is shorter
    than five characters, it appends one too; a line that ends in a closing
    brace is emitted as it is; and so is a line that ends in PARAM. *)
Theorem joiner_separator (line pre : gostring) (c : ascii)
    (Htrim : trimLine line = pre ++ [c]) :
  (c <> "}"%char -> c <> "{"%char -> c <> "("%char -> c <> ";"%char ->
   c <> "]"%char -> c <> "M"%char ->
   joinLine line = Some (trimLine line ++ str ";")) /\
  (c = "M"%char -> length (trimLine line) < 5 ->
   joinLine line = Some (trimLine line ++ str ";")) /\
  (c = "}"%char -> joinLine line = Some (trimLine line)) /\
  (hasSuffix (str "PARAM") (trimLine line) = true ->
   joinLine line = Some (trimLine line)).
Proof.
  unfold joinLine. rewrite Htrim, app_single_nonempty, skipn_last_one.
  unfold str; simpl list_ascii_of_string. rewrite !streq_single.
  repeat split.
  - intros H1 H2 H3 H4 H5 H6.
    now rewrite !beq_neq by assumption.
  - intros -> Hlen. eval_beq.
    destruct (5 <=? length (pre ++ ["M"%char])) eqn:E; [|reflexivity].
    apply Nat.leb_le in E. lia.
  - intros ->. eval_beq. reflexivity.
  - intro Hs. unfold hasSuffix in Hs. apply andb_true_iff in Hs as [Hl Hs].
    apply streq_eq in Hs. apply Nat.leb_le in Hl. simpl length in Hl, Hs.
    assert (Hc : c = "M"%char).
    { assert (E : skipn (length (pre ++ [c]) - 1) (pre ++ [c])
                  = skipn 4 (skipn (length (pre ++ [c]) - 5) (pre ++ [c]))).
      { rewrite skipn_skipn. f_equal. lia. }
      rewrite skipn_last_one, Hs in E. simpl in E. now injection E. }
    subst c. eval_beq.
    replace (5 <=? length (pre ++ ["M"%char])) with true
      by (symmetry; now apply Nat.leb_le).
    rewrite Hs. reflexivity.
Qed.

Lemma joiner_separator_witness :
  joinLine (str "  $A=1 ") = Some (str "$A=1;") /\
  joinLine (str "ITM") = Some (str "ITM;") /\
  joinLine (str "PARAM") = Some (str "PARAM").
Proof.
  destruct (joiner_separator (str "  $A=1 ") (str "$A=") "1"%char eq_refl)
    as (H1 & _).
  destruct (joiner_separator (str "ITM") (str "IT") "M"%char eq_refl)
    as (_ & H2 & _).
  destruct (joiner_separator (str "PARAM") (str "PARA") "M"%char eq_refl)
    as (_ & _ & _ & H3).
  split; [|split].
  - apply H1; intro E; discriminate E.
  - apply H2; [reflexivity | vm_compute; lia].
  - apply H3. reflexivity.
Defined.

(** ** The spacing compactor *)

Example compact_assignment : compactLine (str "$A = 1") = str "$A=1".
Proof. reflexivity. Qed.

(** C8, as stated, fails: the table is walked once, so of a run of spaces
    in front of a token one space goes; and the table has no entry for a space
    in front of a minus sign. *)
Lemma compactor_patterns_counterexample :
  ~ (forall line sub,
        In sub spacingTable ->
        contains (str " " ++ snd sub) (compactLine line) = false /\
        contains (snd sub ++ str " ") (compactLine line) = false).
Proof.
  intro H.
  destruct (H (str "$A  = 1") (str " =", str "=")) as [H1 _].
  - left. reflexivity.
  - vm_compute in H1. discriminate H1.
Qed.

Example compact_keeps_space_before_minus :
  compactLine (str "GCI -PATH C:") = str "GCI -PATH C:".
Proof. reflexivity. Qed.

(** ** The variable renamer: evaluations *)

Lemma regexLine_strip : stripAllComments [regexLine] = Done [regexLine].
Proof. vm_compute. reflexivity. Qed.

Lemma regexLine_vars : countVars [regexLine] = [(str "$NAME", 1); (str "$", 1)].
Proof. vm_compute. reflexivity. Qed.

(** C1. Two runs on the same one-line script, which differ in the
    identifiers drawn only, end in different outputs, whatever the reserved
    table holds: the pattern matches the lone sigil in front of the closing
    quote, its substitution rewrites the sigil of the alias that stands for
    [$NAME], and the second pass no longer finds that alias. *)
Theorem alias_left_in_output (reserved : list gostring) :
  minimize reserved (runWith 0) [regexLine] <> minimize reserved (runWith 1) [regexLine].
Proof.
  unfold minimize, shortenAllVariableNames, renameRun, getVariables.
  rewrite regexLine_strip. cbn [bindO]. rewrite regexLine_vars.
  cbn [runWith rangeOrder map]. unfold mkVariable. cbn [fst snd].
  destruct (isReservedName reserved (str "$NAME")),
           (isReservedName reserved (str "$"));
    vm_compute; intro H; discriminate H.
Qed.

(** The order in which the map is ranged over shows in the output too, when
    two variables tie in count and in length. *)
Example range_order_in_output :
  shortenAllVariableNames sampleReserved (runWith 0) [str "$x + $y"]
    = Done [str "$A + $B"] /\
  shortenAllVariableNames sampleReserved
    (mkRuntime (@rev (gostring * nat)) insertionSort (uuidNumbered 0))
    [str "$x + $y"]
    = Done [str "$B + $A"].
Proof. split; vm_compute; reflexivity. Qed.

Example alias_left_in_output_text :
  minimize sampleReserved (runWith 0) [regexLine]
  = Done [str "$B~~6BA7B810-9DAD-41D1-80B4-000000000000 -MATCH 'X$B';"].
Proof. vm_compute. reflexivity. Qed.

(** C3. [$i] occurs twice and [$total] once, yet [$total] takes the first
    name of the sequence and [$i] the second: the slice sorted by count is
    sorted again by name length before the names are handed out.  With 51
    longer variables that occur once each, [$i], the one that occurs twice,
    is the only one to get a three-character name. *)
Theorem names_follow_length_not_count :
  renameRun sampleReserved (runWith 0) [str "$i = $i + $total"]
  = Done ([ mkPSVariable (str "$TOTAL")
              (str "$~~6BA7B810-9DAD-41D1-80B4-000000000001") (str "$A") 1 false;
            mkPSVariable (str "$I")
              (str "$~~6BA7B810-9DAD-41D1-80B4-000000000000") (str "$B") 2 false ],
          [str "$B = $B + $A"]) /\
  exists p out,
    renameRun sampleReserved (runWith 0) [manyLine] = Done (p, out) /\
    length p = 52 /\
    map Count (filter (fun v => streq (OriginalName v) (str "$I")) p) = [2] /\
    forallb (fun v => streq (OriginalName v) (str "$I") || (Count v =? 1)) p = true /\
    shortOf p (str "$I") = str "$A0" /\
    forallb (fun v => streq (OriginalName v) (str "$I") ||
                      (length (ShortName v) =? 2)) p = true.
Proof.
  split; [vm_compute; reflexivity|].
  eexists _, _. split; [vm_compute; reflexivity|].
  repeat split; vm_compute; reflexivity.
Qed.

(** C5. [$NAME] occurs once in the input line and is given the short name
    [$A], which occurs nowhere in the renamed line; the lone sigil, counted
    once, is given [$B], which occurs twice. *)
Theorem occurrence_sites_not_preserved :
  exists uniq1 uniq2 out,
    renameRun sampleReserved (runWith 0) [regexLine]
    = Done ([ mkPSVariable (str "$NAME") uniq1 (str "$A") 1 false;
              mkPSVariable (str "$") uniq2 (str "$B") 1 false ], [out]) /\
    occurrences (str "$NAME") (ToUpper regexLine) = 1 /\
    occurrences (str "$A") out = 0 /\
    occurrences (str "$B") out = 2.
Proof.
  eexists _, _, _. split; [vm_compute; reflexivity|].
  repeat split; vm_compute; reflexivity.
Qed.

(** ** The loops of the renamer in closed form *)

Lemma varShortNames_length : length varShortNames = 51.
Proof. reflexivity. Qed.

Lemma generateFrom_closed (p : PSVariables) :
  forall count nameIter,
    51 * count <= nameIter < 51 * count + 51 ->
    generateFrom count nameIter p = Done (assignShort nameIter p).
Proof.
  induction p as [|v p IH]; intros count nameIter Hinv; [reflexivity|].
  assert (Hdiv : nameIter / 51 = count).
  { symmetry. apply Nat.div_unique with (r := nameIter - 51 * count); lia. }
  assert (Hmod : nameIter mod 51 = nameIter - 51 * count).
  { symmetry. apply Nat.mod_unique with (q := count); lia. }
  cbn [generateFrom assignShort].
  destruct (Reserved v).
  - rewrite (IH count nameIter Hinv). reflexivity.
  - replace (nameIter <? 51 * count) with false
      by (symmetry; apply Nat.ltb_ge; lia).
    assert (Hlt : nameIter - 51 * count < length varShortNames)
      by (rewrite varShortNames_length; lia).
    rewrite (nth_error_nth' varShortNames "A"%char Hlt).
    set (count' := if (nameIter + 1) mod 51 =? 0 then count + 1 else count).
    assert (Hinv' : 51 * count' <= nameIter + 1 < 51 * count' + 51).
    { subst count'. destruct ((nameIter + 1) mod 51 =? 0) eqn:E.
      - apply Nat.eqb_eq in E.
        pose proof (Nat.div_mod_eq (nameIter + 1) 51) as D. rewrite E in D.
        assert ((nameIter + 1) / 51 = count + 1) by nia. lia.
      - apply Nat.eqb_neq in E.
        assert (nameIter + 1 <> 51 * count + 51).
        { intro Heq. apply E. rewrite Heq.
          replace (51 * count + 51) with ((count + 1) * 51) by lia.
          apply Nat.Div0.mod_mul. }
        lia. }
    rewrite (IH count' (nameIter + 1) Hinv'). cbn [bindO].
    unfold shortNameAt. rewrite Hdiv, Hmod.
    replace (nameIter + 1) with (S nameIter) by lia.
    destruct (0 <? count); [reflexivity|].
    now rewrite List.app_nil_r.
Qed.

Lemma generateShortNames_closed (p : PSVariables) :
  generateShortNames p = Done (assignShort 0 p).
Proof. apply generateFrom_closed. lia. Qed.

Lemma assignFrom_closed (rt : runtime) (p : PSVariables) :
  forall i,
    (forall j, i <= j < i + length p -> newRandom rt j <> None) ->
    assignFrom rt i p = Done (withAliases rt i p).
Proof.
  induction p as [|v p IH]; intros i Hdraw; [reflexivity|].
  cbn [assignFrom withAliases]. unfold aliasOf.
  destruct (newRandom rt i) as [id|] eqn:E.
  - rewrite IH; [reflexivity|].
    intros j Hj. apply Hdraw. simpl. lia.
  - exfalso. apply (Hdraw i); [simpl; lia | exact E].
Qed.

Lemma withAliases_length (rt : runtime) (p : PSVariables) :
  forall i, length (withAliases rt i p) = length p.
Proof. induction p; intro i; simpl; auto. Qed.

Lemma assignShort_length (p : PSVariables) :
  forall k, length (assignShort k p) = length p.
Proof.
  induction p as [|v p IH]; intro k; simpl; [reflexivity|].
  destruct (Reserved v); simpl; now rewrite IH.
Qed.

Section ClosedRun.

Variable reserved : list gostring.
Variable rt : runtime.
Hypothesis Hrt : goodRuntime rt.

Lemma getVariables_length (lines : list gostring) :
  length (getVariables reserved rt lines) = length (countVars lines).
Proof.
  unfold getVariables. rewrite length_map.
  apply Permutation_length, (range_perm Hrt).
Qed.

(** With the identifiers at hand the renamer returns, and what it returns is
    the closed form. *)
Lemma renameRun_closed (lines : list gostring) :
  (forall i, i < length (countVars lines) -> newRandom rt i <> None) ->
  renameRun reserved rt lines
  = Done (finalVars reserved rt lines,
          map (toShort (finalVars reserved rt lines))
            (map (toUnique (finalVars reserved rt lines)) lines)).
Proof.
  intro Hdraw.
  unfold renameRun, shortenVariables, assignUniqueRandomNames.
  rewrite assignFrom_closed.
  - cbn [bindO]. rewrite generateShortNames_closed. cbn [bindO].
    unfold replaceVariablesWithUnique, replaceUniqueWithShort, finalVars.
    reflexivity.
  - intros j Hj. apply Hdraw.
    rewrite (Permutation_length (sort_perm Hrt lessCount _)) in Hj.
    rewrite getVariables_length in Hj. lia.
Qed.

End ClosedRun.

(** ** Discovery *)

Lemma bump_keys (k : gostring) (m : list (gostring * nat)) (k' : gostring) :
  In k' (map fst (bump k m)) <-> k' = k \/ In k' (map fst m).
Proof.
  induction m as [|[k0 v] m IH]; simpl.
  - intuition.
  - destruct (streq k k0) eqn:E; simpl.
    + apply streq_eq in E. subst k0. intuition.
    + rewrite IH. intuition.
Qed.

Lemma bump_NoDup (k : gostring) (m : list (gostring * nat)) :
  NoDup (map fst m) -> NoDup (map fst (bump k m)).
Proof.
  induction m as [|[k0 v] m IH]; simpl; intro H.
  - constructor; [intros []|constructor].
  - inversion H as [|? ? Hnot Hnd]; subst.
    destruct (streq k k0) eqn:E; simpl.
    + constructor; assumption.
    + constructor; [|now apply IH].
      rewrite bump_keys. intros [->|Hin]; [|contradiction].
      rewrite streq_refl in E. discriminate.
Qed.

Lemma countLine_keys (line : gostring) (m : list (gostring * nat)) (k : gostring) :
  In k (map fst (countLine m line)) <->
  In k (map fst m) \/ exists r, In r (findAll line) /\ k = ToUpper r.
Proof.
  unfold countLine. revert m.
  induction (findAll line) as [|r rs IH]; intro m; simpl.
  - split; [auto|]. intros [H|(r & [] & _)]; exact H.
  - rewrite IH, bump_keys. split.
    + intros [[->|H]|(r' & Hr & ->)]; eauto.
    + intros [H|(r' & [->|Hr] & ->)]; eauto.
Qed.

Lemma countLine_NoDup (line : gostring) (m : list (gostring * nat)) :
  NoDup (map fst m) -> NoDup (map fst (countLine m line)).
Proof.
  unfold countLine. revert m.
  induction (findAll line) as [|r rs IH]; intros m H; simpl; [exact H|].
  apply IH, bump_NoDup, H.
Qed.

Lemma countFold_keys (lines : list gostring) :
  forall m k,
    In k (map fst (fold_left countLine lines m)) <->
    In k (map fst m) \/
    exists line r, In line lines /\ In r (findAll line) /\ k = ToUpper r.
Proof.
  induction lines as [|l lines IH]; intros m k; simpl.
  - split; [auto|]. intros [H|(? & ? & [] & _)]; exact H.
  - rewrite IH, countLine_keys. split.
    + intros [[H|(r & Hr & ->)]|(line & r & Hl & Hr & ->)]; eauto 8.
    + intros [H|(line & r & [->|Hl] & Hr & ->)]; eauto 8.
Qed.

Lemma countVars_keys (lines : list gostring) (k : gostring) :
  In k (map fst (countVars lines)) <->
  exists line r, In line lines /\ In r (findAll line) /\ k = ToUpper r.
Proof.
  unfold countVars. rewrite countFold_keys. simpl. intuition.
Qed.

Lemma countVars_NoDup (lines : list gostring) :
  NoDup (map fst (countVars lines)).
Proof.
  unfold countVars.
  assert (H : NoDup (map fst (@nil (gostring * nat)))) by constructor.
  revert H. generalize (@nil (gostring * nat)).
  induction lines as [|l lines IH]; intros m H; simpl; [exact H|].
  apply IH, countLine_NoDup, H.
Qed.

Lemma matchAt_startsVar (s m : gostring) :
  matchAt s = Some m -> startsVar m = true.
Proof.
  destruct s as [|c s]; simpl; [discriminate|].
  destruct (beq c ESCChar2) eqn:E1.
  - destruct s as [|d s]; [discriminate|].
    destruct (beq d sigil) eqn:E2; [|discriminate].
    intro H; injection H as <-. simpl. rewrite E1, E2. apply orb_true_r.
  - destruct (beq c sigil) eqn:E2; [|discriminate].
    intro H; injection H as <-. simpl. now rewrite E2.
Qed.

Lemma findAllFrom_matches (s : gostring) :
  forall skip m, In m (findAllFrom skip s) -> exists s', matchAt s' = Some m.
Proof.
  induction s as [|c s IH]; intros skip m; cbn [findAllFrom]; [intros []|].
  destruct skip as [|k]; [|apply IH].
  destruct (matchAt (c :: s)) as [m0|] eqn:E; [|apply IH].
  intros [<-|H]; [eauto | eapply IH, H].
Qed.

Lemma ToUpper_startsVar (m : gostring) :
  startsVar m = true -> startsVar (ToUpper m) = true.
Proof.
  destruct m as [|c r]; simpl; [discriminate|].
  intro H. apply orb_true_iff in H as [H|H].
  - apply beq_eq in H. subst c. reflexivity.
  - apply andb_true_iff in H as [H1 H2]. apply beq_eq in H1. subst c.
    destruct r as [|d r]; [discriminate|]. apply beq_eq in H2. subst d.
    reflexivity.
Qed.

Lemma countVars_startsVar (lines : list gostring) (k : gostring) :
  In k (map fst (countVars lines)) -> startsVar k = true.
Proof.
  rewrite countVars_keys. intros (line & r & _ & Hr & ->).
  apply findAllFrom_matches in Hr as (s' & Hm).
  apply ToUpper_startsVar. eapply matchAt_startsVar, Hm.
Qed.

(** ** What the passes keep of a variable *)

Lemma mkVariable_closed (reserved : list gostring) (k : gostring) (n : nat) :
  mkVariable reserved (k, n)
  = let r := isReservedName reserved k || escaped k in
    mkPSVariable k [] (if r then k else []) n r.
Proof.
  unfold mkVariable, escaped, markReserved. cbn [fst snd].
  destruct (isReservedName reserved k); destruct k as [|c k']; cbn;
    try reflexivity; destruct (beq c ESCChar2); reflexivity.
Qed.

Lemma map_withAliases (A : Type) (f : PSVariable -> A) (rt : runtime)
    (Hf : forall v u, f (setUniqueName v u) = f v) (p : PSVariables) :
  forall i, map f (withAliases rt i p) = map f p.
Proof.
  induction p as [|v p IH]; intro i; simpl; [reflexivity|].
  now rewrite Hf, IH.
Qed.

Lemma map_assignShort (A : Type) (f : PSVariable -> A)
    (Hf : forall v n, f (setShortName v n) = f v) (p : PSVariables) :
  forall k, map f (assignShort k p) = map f p.
Proof.
  induction p as [|v p IH]; intro k; simpl; [reflexivity|].
  destruct (Reserved v); simpl; now rewrite ?Hf, IH.
Qed.

Lemma withAliases_varOk (reserved : list gostring) (rt : runtime) (p : PSVariables) :
  forall i, Forall (varOk reserved) p -> Forall (varOk reserved) (withAliases rt i p).
Proof.
  induction p as [|v p IH]; intros i H; simpl; [constructor|].
  inversion H; subst. constructor; [|now apply IH].
  assumption.
Qed.

Lemma assignShort_varOk (reserved : list gostring) (p : PSVariables) :
  forall k, Forall (varOk reserved) p -> Forall (varOk reserved) (assignShort k p).
Proof.
  induction p as [|v p IH]; intros k H; simpl; [constructor|].
  inversion H as [|? ? Hv Hp]; subst.
  destruct (Reserved v) eqn:E; constructor; try now apply IH.
  - exact Hv.
  - destruct Hv as (H1 & H2 & H3). unfold varOk. cbn.
    repeat split; try assumption. rewrite E. discriminate.
Qed.

Section FinalVars.

Variable reserved : list gostring.
Variable rt : runtime.
Hypothesis Hrt : goodRuntime rt.
Variable lines : list gostring.

Lemma getVariables_names :
  Permutation (map OriginalName (getVariables reserved rt lines))
              (map fst (countVars lines)).
Proof.
  unfold getVariables. rewrite map_map.
  erewrite map_ext with (g := fst).
  - apply Permutation_map, (range_perm Hrt).
  - intros [k n]. now rewrite mkVariable_closed.
Qed.

Lemma getVariables_varOk : Forall (varOk reserved) (getVariables reserved rt lines).
Proof.
  unfold getVariables. apply Forall_forall. intros v Hv.
  apply in_map_iff in Hv as ([k n] & <- & Hin).
  rewrite mkVariable_closed. unfold varOk. cbn.
  repeat split.
  - intros ->. reflexivity.
  - apply countVars_startsVar with (lines := lines).
    apply (Permutation_in _ (range_perm Hrt _)) in Hin.
    apply in_map_iff. now exists (k, n).
Qed.

Lemma finalVars_varOk : Forall (varOk reserved) (finalVars reserved rt lines).
Proof.
  unfold finalVars.
  eapply Permutation_Forall; [symmetry; apply (sort_perm Hrt)|].
  apply assignShort_varOk.
  eapply Permutation_Forall; [symmetry; apply (sort_perm Hrt)|].
  apply withAliases_varOk.
  eapply Permutation_Forall; [symmetry; apply (sort_perm Hrt)|].
  apply getVariables_varOk.
Qed.

Lemma finalVars_names :
  Permutation (map OriginalName (finalVars reserved rt lines))
              (map fst (countVars lines)).
Proof.
  unfold finalVars.
  rewrite (Permutation_map OriginalName (sort_perm Hrt _ _)).
  rewrite map_assignShort by reflexivity.
  rewrite (Permutation_map OriginalName (sort_perm Hrt _ _)).
  rewrite map_withAliases by reflexivity.
  rewrite (Permutation_map OriginalName (sort_perm Hrt _ _)).
  apply getVariables_names.
Qed.

Lemma finalVars_names_NoDup : NoDup (map OriginalName (finalVars reserved rt lines)).
Proof.
  eapply Permutation_NoDup; [symmetry; apply finalVars_names|].
  apply countVars_NoDup.
Qed.

Lemma finalVars_length : length (finalVars reserved rt lines) = length (countVars lines).
Proof.
  rewrite <- (length_map OriginalName), (Permutation_length finalVars_names).
  apply length_map.
Qed.

End FinalVars.

(** ** Transient aliases *)

Lemma upperChar_uuid (c : ascii) :
  isUUIDChar c = true -> lowerChar (upperChar c) = c.
Proof.
  destruct c as [[] [] [] [] [] [] [] []]; intro H;
    try discriminate H; reflexivity.
Qed.

Lemma ToUpper_uuid_inj (u u' : gostring) :
  forallb isUUIDChar u = true -> forallb isUUIDChar u' = true ->
  ToUpper u = ToUpper u' -> u = u'.
Proof.
  revert u'. induction u as [|c u IH]; intros [|c' u'] Hu Hu' E;
    try discriminate E; [reflexivity|].
  simpl in Hu, Hu'.
  apply andb_true_iff in Hu as [Hc Hu]. apply andb_true_iff in Hu' as [Hc' Hu'].
  injection E as Ec E. f_equal.
  - rewrite <- (upperChar_uuid c Hc), <- (upperChar_uuid c' Hc'). now f_equal.
  - now apply IH.
Qed.

Lemma aliasOf_inj (rt : runtime) (n i j : nat) :
  drawsDistinct rt n -> i < n -> j < n -> aliasOf rt i = aliasOf rt j -> i = j.
Proof.
  intros [Hok Hinj] Hi Hj E.
  destruct (Hok i Hi) as (u & Eu & Hu). destruct (Hok j Hj) as (u' & Eu' & Hu').
  unfold aliasOf in E. rewrite Eu, Eu' in E.
  apply app_inv_head in E.
  unfold isUUIDText in Hu, Hu'.
  apply andb_true_iff in Hu as [_ Hu]. apply andb_true_iff in Hu' as [_ Hu'].
  apply (ToUpper_uuid_inj _ _ Hu Hu') in E. subst u'.
  apply Hinj; try assumption. congruence.
Qed.

Lemma withAliases_unique (rt : runtime) (p : PSVariables) :
  forall i, map UniqueName (withAliases rt i p) = map (aliasOf rt) (seq i (length p)).
Proof.
  induction p as [|v p IH]; intro i; simpl; [reflexivity|].
  now rewrite IH.
Qed.

Lemma aliases_NoDup (rt : runtime) (n : nat) :
  drawsDistinct rt n -> NoDup (map (aliasOf rt) (seq 0 n)).
Proof.
  intro Hd.
  assert (H : forall m i, i + m <= n -> NoDup (map (aliasOf rt) (seq i m))).
  { induction m as [|m IH]; intros i Hle; simpl; constructor.
    - intro Hin. apply in_map_iff in Hin as (j & Ej & Hj).
      apply in_seq in Hj.
      apply (aliasOf_inj (n := n)) in Ej; try assumption; lia.
    - apply IH. lia. }
  apply H. lia.
Qed.

Lemma finalVars_aliases_NoDup (reserved : list gostring) (rt : runtime)
    (lines : list gostring) :
  goodRuntime rt -> drawsDistinct rt (length (countVars lines)) ->
  NoDup (map UniqueName (finalVars reserved rt lines)).
Proof.
  intros Hrt Hd. unfold finalVars.
  eapply Permutation_NoDup;
    [symmetry; apply Permutation_map, (sort_perm Hrt)|].
  rewrite map_assignShort by reflexivity.
  eapply Permutation_NoDup;
    [symmetry; apply Permutation_map, (sort_perm Hrt)|].
  rewrite withAliases_unique.
  rewrite (Permutation_length (sort_perm Hrt _ _)), getVariables_length
    by assumption.
  now apply aliases_NoDup.
Qed.

(** ** The allocation sequence *)






(** ** Short names *)


Lemma assignShort_slots (p : PSVariables) :
  forall k,
    map ShortName (filter notReserved (assignShort k p))
    = map shortNameAt (seq k (length (filter notReserved p))).
Proof.
  induction p as [|v p IH]; intro k; simpl; [reflexivity|].
  unfold notReserved at 2. destruct (Reserved v) eqn:E; simpl.
  - unfold notReserved at 1. rewrite E. simpl. apply IH.
  - unfold notReserved at 1. cbn. rewrite E. simpl. now rewrite IH.
Qed.

Lemma assignShort_In (p : PSVariables) :
  forall k v',
    In v' (assignShort k p) ->
    (In v' p /\ Reserved v' = true) \/
    (exists v j, In v p /\ Reserved v = false /\ k <= j /\
                 v' = setShortName v (shortNameAt j)).
Proof.
  induction p as [|v p IH]; intros k v'; simpl; [intros []|].
  destruct (Reserved v) eqn:E; intros [<-|Hin].
  - left. auto.
  - destruct (IH _ _ Hin) as [[H1 H2]|(u & j & H1 & H2 & H3 & H4)];
      [left; auto | right; exists u, j; auto].
  - right. exists v, k. auto.
  - destruct (IH _ _ Hin) as [[H1 H2]|(u & j & H1 & H2 & H3 & H4)];
      [left; auto | right; exists u, j; repeat split; auto; lia].
Qed.

Section ShortNames.

Variable reserved : list gostring.

(** No name of the reserved table is a name of the allocation sequence. *)
Hypothesis Hclear : forall k, isReservedName reserved (shortNameAt k) = false.



End ShortNames.

(** ** The evaluation run-time system is a good one *)

Lemma insertBy_perm (less : PSVariable -> PSVariable -> bool) (x : PSVariable)
    (l : PSVariables) :
  Permutation (insertBy less x l) (x :: l).
Proof.
  induction l as [|y l IH]; simpl; [reflexivity|].
  destruct (less x y); [reflexivity|].
  rewrite IH. apply perm_swap.
Qed.

Lemma insertionSort_perm (less : PSVariable -> PSVariable -> bool) (p : PSVariables) :
  Permutation (insertionSort less p) p.
Proof.
  unfold insertionSort.
  assert (H : forall acc, Permutation (fold_left (fun a x => insertBy less x a) p acc)
                                      (acc ++ p)).
  { induction p as [|x p IH]; intro acc; simpl.
    - now rewrite List.app_nil_r.
    - rewrite IH, insertBy_perm. now rewrite <- Permutation_middle. }
  apply (H []).
Qed.

Lemma insertBy_sorted (key : PSVariable -> nat) (x : PSVariable) (l : PSVariables) :
  sortedDesc key l ->
  sortedDesc key (insertBy (fun a b => key b <? key a) x l).
Proof.
  unfold sortedDesc.
  induction l as [|y l IH]; intro H; simpl.
  - constructor; constructor.
  - inversion H as [|? ? Hl Hy]; subst.
    destruct (key y <? key x) eqn:E.
    + apply Nat.ltb_lt in E. constructor; [exact H|].
      constructor; [lia|].
      eapply Forall_impl; [|exact Hy]. simpl. intros; lia.
    + apply Nat.ltb_ge in E. constructor; [now apply IH|].
      eapply Permutation_Forall; [symmetry; apply insertBy_perm|].
      constructor; assumption.
Qed.

Lemma insertionSort_sorted (key : PSVariable -> nat) (p : PSVariables) :
  sortedDesc key (insertionSort (fun a b => key b <? key a) p).
Proof.
  unfold insertionSort.
  assert (H : forall acc, sortedDesc key acc ->
                sortedDesc key (fold_left (fun a x => insertBy (fun a b => key b <? key a) x a) p acc)).
  { induction p as [|x p IH]; intros acc Hacc; simpl; [exact Hacc|].
    apply IH, insertBy_sorted, Hacc. }
  apply H. constructor.
Qed.

Lemma runWith_good (base : nat) : goodRuntime (runWith base).
Proof.
  constructor; simpl.
  - reflexivity.
  - apply insertionSort_perm.
  - apply insertionSort_sorted.
Qed.

(** The numbered identifiers are well formed, and the first sixteen of a run
    differ in their last digit. *)
Lemma runWith_draws (n : nat) : n <= 16 -> drawsDistinct (runWith 0) n.
Proof.
  intro Hn. split.
  - intros i Hi. eexists. split; [reflexivity|].
    do 16 (destruct i as [|i]; [reflexivity|]). lia.
  - intros i j Hi Hj E.
    do 16 (destruct i as [|i];
           [do 16 (destruct j as [|j];
                   [first [reflexivity | vm_compute in E; discriminate E]|]);
            lia|]).
    lia.
Qed.



(** ** Upper-casing *)

Lemma upperChar_noLower (c : ascii) : isLower (upperChar c) = false.
Proof. destruct c as [[] [] [] [] [] [] [] []]; reflexivity. Qed.

Lemma ToUpper_noLower (s : gostring) : noLower (ToUpper s) = true.
Proof.
  induction s as [|c s IH]; simpl; [reflexivity|].
  now rewrite upperChar_noLower, IH.
Qed.

Lemma noLower_app (a b : gostring) :
  noLower (a ++ b) = noLower a && noLower b.
Proof. apply forallb_app. Qed.

Lemma replaceFrom_noLower (old new : gostring) (s : gostring) :
  noLower new = true ->
  forall skip, noLower s = true -> noLower (replaceFrom old new skip s) = true.
Proof.
  intro Hnew. induction s as [|c s IH]; intros skip Hs; [reflexivity|].
  simpl in Hs. apply andb_true_iff in Hs as [Hc Hs].
  cbn [replaceFrom]. destruct skip as [|k]; [|now apply IH].
  destruct (hasPrefix old (c :: s)).
  - rewrite noLower_app, Hnew. now apply IH.
  - simpl. rewrite Hc. now apply IH.
Qed.

Lemma Replace_noLower (s old new : gostring) :
  noLower s = true -> noLower new = true -> noLower (Replace s old new) = true.
Proof.
  intros Hs Hnew. destruct old as [|o old]; simpl.
  - rewrite noLower_app, Hnew. simpl.
    induction s as [|c s IH]; [reflexivity|].
    simpl in Hs. apply andb_true_iff in Hs as [Hc Hs].
    simpl. rewrite Hc, noLower_app, Hnew. now apply IH.
  - now apply replaceFrom_noLower.
Qed.

Lemma toUnique_noLower (p : PSVariables) (line : gostring) :
  Forall (fun v => noLower (UniqueName v) = true) p ->
  noLower (toUnique p line) = true.
Proof.
  unfold toUnique. intro Hp.
  assert (H : forall l, noLower l = true ->
              noLower (fold_left (fun l v => Replace l (OriginalName v) (UniqueName v)) p l) = true).
  { induction Hp as [|v p Hv _ IH]; intros l Hl; simpl; [exact Hl|].
    apply IH. now apply Replace_noLower. }
  apply H, ToUpper_noLower.
Qed.

(** A substitution whose pattern holds a character that the line lacks
    leaves the line as it is. *)
Lemma hasPrefix_In (old s : gostring) (c : ascii) :
  hasPrefix old s = true -> In c old -> In c s.
Proof.
  revert s. induction old as [|o old IH]; intros [|x s] H Hin; simpl in *;
    try contradiction; try discriminate.
  apply andb_true_iff in H as [H1 H2]. apply beq_eq in H1. subst x.
  destruct Hin as [->|Hin]; [now left | right; now apply IH].
Qed.

Lemma Replace_absent (s old new : gostring) (c : ascii) :
  In c old -> ~ In c s -> Replace s old new = s.
Proof.
  intros Hold Hs. destruct old as [|o old]; [destruct Hold|].
  unfold Replace. induction s as [|x s IH]; [reflexivity|].
  cbn [replaceFrom].
  destruct (hasPrefix (o :: old) (x :: s)) eqn:E.
  - exfalso. apply Hs. eapply hasPrefix_In; eassumption.
  - f_equal. apply IH. intro H. apply Hs. now right.
Qed.

Lemma startsVar_sigil (k : gostring) : startsVar k = true -> In sigil k.
Proof.
  destruct k as [|c r]; simpl; [discriminate|].
  intro H. apply orb_true_iff in H as [H|H].
  - apply beq_eq in H. now left.
  - apply andb_true_iff in H as [_ H]. destruct r as [|d r]; [discriminate|].
    apply beq_eq in H. right. now left.
Qed.

Lemma upperChar_sigil (c : ascii) : upperChar c = sigil -> c = sigil.
Proof.
  destruct c as [[] [] [] [] [] [] [] []]; intro H;
    try discriminate H; reflexivity.
Qed.

Lemma ToUpper_no_sigil (s : gostring) : ~ In sigil s -> ~ In sigil (ToUpper s).
Proof.
  intros H Hin. apply in_map_iff in Hin as (c & Hc & Hin).
  apply upperChar_sigil in Hc. now subst c.
Qed.

Lemma withAliases_aliasOk (rt : runtime) (p : PSVariables) :
  forall i,
    (forall j, i <= j < i + length p ->
               exists u, newRandom rt j = Some u /\ isUUIDText u = true) ->
    Forall aliasOk (withAliases rt i p).
Proof.
  induction p as [|v p IH]; intros i H; simpl; constructor.
  - destruct (H i) as (u & Eu & Hu); [simpl; lia|].
    exists u. split; [exact Hu|]. cbn. unfold aliasOf. now rewrite Eu.
  - apply IH. intros j Hj. apply H. simpl. lia.
Qed.

Lemma assignShort_aliasOk (p : PSVariables) :
  forall k, Forall aliasOk p -> Forall aliasOk (assignShort k p).
Proof.
  induction p as [|v p IH]; intros k H; simpl; [constructor|].
  inversion H; subst.
  destruct (Reserved v); constructor; auto.
Qed.

Lemma finalVars_aliasOk (reserved : list gostring) (rt : runtime)
    (lines : list gostring) :
  goodRuntime rt -> drawsDistinct rt (length (countVars lines)) ->
  Forall aliasOk (finalVars reserved rt lines).
Proof.
  intros Hrt [Hd _]. unfold finalVars.
  eapply Permutation_Forall; [symmetry; apply (sort_perm Hrt)|].
  apply assignShort_aliasOk.
  eapply Permutation_Forall; [symmetry; apply (sort_perm Hrt)|].
  apply withAliases_aliasOk. intros j Hj. apply Hd.
  rewrite (Permutation_length (sort_perm Hrt _ _)), getVariables_length in Hj
    by assumption.
  lia.
Qed.

Lemma aliasOk_noLower (v : PSVariable) : aliasOk v -> noLower (UniqueName v) = true.
Proof.
  intros (id & _ & ->). rewrite noLower_app, ToUpper_noLower. reflexivity.
Qed.

Lemma aliasOk_sigil (v : PSVariable) : aliasOk v -> In sigil (UniqueName v).
Proof. intros (id & _ & ->). now left. Qed.

Lemma fold_Replace_absent (f g : PSVariable -> gostring) (p : PSVariables) :
  Forall (fun v => In sigil (f v)) p ->
  forall l, ~ In sigil l -> fold_left (fun l v => Replace l (f v) (g v)) p l = l.
Proof.
  induction 1 as [|v p Hv _ IH]; intros l Hl; simpl; [reflexivity|].
  rewrite (@Replace_absent l _ _ sigil Hv Hl). now apply IH.
Qed.

Lemma passes_without_sigil (p : PSVariables) (line : gostring) :
  Forall (fun v => In sigil (OriginalName v)) p ->
  Forall (fun v => In sigil (UniqueName v)) p ->
  ~ In sigil line ->
  toShort p (toUnique p line) = ToUpper line.
Proof.
  intros Hn Hu Hline. apply ToUpper_no_sigil in Hline.
  unfold toShort, toUnique.
  rewrite (fold_Replace_absent OriginalName UniqueName Hn _ Hline).
  now apply fold_Replace_absent.
Qed.

(** The later stages change no letter. *)
Lemma compactLine_noLower (l : gostring) :
  noLower l = true -> noLower (compactLine l) = true.
Proof.
  unfold compactLine.
  assert (Ht : Forall (fun sub => noLower (snd sub) = true) spacingTable).
  { apply Forall_forall. apply forallb_forall. reflexivity. }
  revert l. induction Ht as [|sub t Hsub _ IH]; intros l Hl; simpl; [exact Hl|].
  apply IH. now apply Replace_noLower.
Qed.

Lemma noLower_In (s : gostring) :
  noLower s = true <-> forall c, In c s -> isLower c = false.
Proof.
  unfold noLower. rewrite forallb_forall. split; intros H c Hc.
  - apply negb_true_iff. now apply H.
  - apply negb_true_iff. now apply H.
Qed.

Lemma trimLeft_incl (s : gostring) (c : ascii) : In c (trimLeft s) -> In c s.
Proof.
  induction s as [|x s IH]; simpl; [auto|].
  destruct (isSpace x); [right; now apply IH | auto].
Qed.

Lemma TrimSuffix_incl (s suf : gostring) (c : ascii) :
  In c (TrimSuffix s suf) -> In c s.
Proof.
  unfold TrimSuffix. destruct (hasSuffix suf s); [|auto].
  intro H. rewrite <- (firstn_skipn (length s - length suf) s).
  apply in_or_app. now left.
Qed.

Lemma trimLine_incl (line : gostring) (c : ascii) : In c (trimLine line) -> In c line.
Proof.
  unfold trimLine, TrimSpace. intro H.
  do 2 apply TrimSuffix_incl in H.
  apply in_rev, trimLeft_incl, in_rev, trimLeft_incl in H. exact H.
Qed.

Lemma joinLine_noLower (line out : gostring) :
  joinLine line = Some out -> noLower line = true -> noLower out = true.
Proof.
  unfold joinLine. intros H Hl.
  assert (Ht : noLower (trimLine line) = true).
  { apply noLower_In. intros c Hc. apply trimLine_incl in Hc.
    revert c Hc. now apply noLower_In. }
  destruct (streq (trimLine line) []); [discriminate|].
  repeat match type of H with
         | (if ?b then _ else _) = _ => destruct b
         end;
    injection H as <-; rewrite ?noLower_app, ?Ht; reflexivity.
Qed.

Example upper_cased_without_variables :
  minimize sampleReserved (runWith 0) [str "Write-Host 'done'"]
  = Done [str "WRITE-HOST 'DONE';"].
Proof. vm_compute. reflexivity. Qed.

(** ** Literal substitution *)

Lemma hasPrefix_app (p r : gostring) : hasPrefix p (p ++ r) = true.
Proof. induction p as [|c p IH]; simpl; [reflexivity|]. now rewrite beq_refl. Qed.

Lemma hasPrefix_iff (p s : gostring) :
  hasPrefix p s = true <-> exists r, s = p ++ r.
Proof.
  split.
  - revert s. induction p as [|c p IH]; intros s H; simpl in *; [eauto|].
    destruct s as [|x s]; [discriminate|].
    apply andb_true_iff in H as [H1 H2]. apply beq_eq in H1. subst x.
    destruct (IH _ H2) as (r & ->). eauto.
  - intros (r & ->). apply hasPrefix_app.
Qed.

Lemma replaceFrom_skip (old new s : gostring) :
  forall k, replaceFrom old new k s = replaceFrom old new 0 (skipn k s).
Proof.
  induction s as [|c s IH]; intros [|k]; try reflexivity.
  cbn [replaceFrom skipn]. apply IH.
Qed.

Lemma Replace_nil (old new : gostring) : old <> [] -> Replace [] old new = [].
Proof. destruct old; [congruence | reflexivity]. Qed.

Lemma Replace_match (old new rest : gostring) :
  old <> [] -> Replace (old ++ rest) old new = new ++ Replace rest old new.
Proof.
  destruct old as [|o old]; [congruence|]. intros _.
  unfold Replace. cbn [app replaceFrom].
  change (o :: old ++ rest) with ((o :: old) ++ rest).
  rewrite hasPrefix_app, replaceFrom_skip. f_equal. f_equal.
  simpl. rewrite Nat.sub_0_r. induction old; simpl; auto.
Qed.

Lemma Replace_cons (old new : gostring) (c : ascii) (s : gostring) :
  old <> [] -> hasPrefix old (c :: s) = false ->
  Replace (c :: s) old new = c :: Replace s old new.
Proof.
  destruct old as [|o old]; [congruence|]. intros _ H.
  unfold Replace. cbn [replaceFrom]. now rewrite H.
Qed.

(** No match starts inside [x]: the substitution passes over it. *)
Lemma Replace_skip_prefix (old new x rest : gostring) :
  old <> [] ->
  (forall a b, x = a ++ b -> b <> [] -> hasPrefix old (b ++ rest) = false) ->
  Replace (x ++ rest) old new = x ++ Replace rest old new.
Proof.
  intro Hold. induction x as [|c x IH]; intro H; [reflexivity|].
  cbn [app]. rewrite Replace_cons; [|exact Hold|].
  - f_equal. apply IH. intros a b -> Hb. apply (H (c :: a) b); auto.
  - apply (H [] (c :: x)); [reflexivity | discriminate].
Qed.

(** ** Lines as words *)

Arguments beq : simpl never.

Lemma nospace_app (a b : gostring) : nospace (a ++ b) = nospace a && nospace b.
Proof. apply forallb_app. Qed.

Lemma nospace_not_In (w : gostring) : nospace w = true -> ~ In sp w.
Proof.
  unfold nospace. rewrite forallb_forall. intros H Hin.
  specialize (H _ Hin). now rewrite beq_refl in H.
Qed.

Lemma hasSuffix_iff (suf s : gostring) :
  hasSuffix suf s = true <-> exists a, s = a ++ suf.
Proof.
  unfold hasSuffix. split.
  - intro H. apply andb_true_iff in H as [Hl H]. apply streq_eq in H.
    exists (firstn (length s - length suf) s).
    rewrite <- H at 2. now rewrite firstn_skipn.
  - intros (a & ->). rewrite length_app.
    replace (length suf <=? length a + length suf) with true
      by (symmetry; apply Nat.leb_le; lia).
    replace (length a + length suf - length suf) with (length a) by lia.
    rewrite skipn_app, skipn_all, Nat.sub_diag. simpl. apply streq_refl.
Qed.

Lemma join_cons (v : gostring) (rest : list gostring) :
  exists tail, join (v :: rest) = v ++ tail /\ (tail = [] \/ exists t, tail = sp :: t).
Proof.
  destruct rest as [|w rest]; simpl.
  - exists []. rewrite List.app_nil_r. auto.
  - eexists. split; [reflexivity|]. right. eauto.
Qed.

(** A token without a space that starts a word followed by a space, or by
    nothing, lies within the word. *)
Lemma hasPrefix_within (tok v tail : gostring) :
  nospace tok = true ->
  tail = [] \/ (exists t, tail = sp :: t) ->
  hasPrefix tok (v ++ tail) = true -> hasPrefix tok v = true.
Proof.
  intros Htok Htail. revert v.
  induction tok as [|c tok IH]; intros v H; [reflexivity|].
  simpl in Htok. apply andb_true_iff in Htok as [Hc Htok].
  destruct v as [|x v].
  - simpl in H. destruct Htail as [->|(t & ->)]; [discriminate|].
    apply andb_true_iff in H as [H _]. apply beq_eq in H. subst c.
    discriminate Hc.
  - simpl in *. apply andb_true_iff in H as [H1 H2]. rewrite H1. simpl.
    now apply IH.
Qed.

Lemma hasPrefix_align (t b rest : gostring) :
  nospace t = true -> nospace b = true ->
  hasPrefix (t ++ [sp]) (b ++ sp :: rest) = true -> t = b.
Proof.
  revert b. induction t as [|c t IH]; intros b Ht Hb H.
  - destruct b as [|x b]; [reflexivity|].
    simpl in H, Hb. apply andb_true_iff in H as [H _]. apply beq_eq in H.
    subst x. discriminate Hb.
  - simpl in Ht. apply andb_true_iff in Ht as [Hc Ht].
    destruct b as [|x b]; simpl in H.
    + apply andb_true_iff in H as [H _]. apply beq_eq in H. subst c.
      discriminate Hc.
    + simpl in Hb. apply andb_true_iff in Hb as [_ Hb].
      apply andb_true_iff in H as [H1 H2]. apply beq_eq in H1. subst x.
      f_equal. now apply IH.
Qed.

Lemma hasPrefix_too_long (tok y z : gostring) :
  nospace y = true -> length tok < length y ->
  hasPrefix (tok ++ [sp]) (y ++ z) = false.
Proof.
  revert y. induction tok as [|c tok IH]; intros y Hy Hl.
  - destruct y as [|x y]; [simpl in Hl; lia|].
    simpl in *. apply andb_true_iff in Hy as [Hx _].
    apply negb_true_iff in Hx. unfold beq in *. rewrite Ascii.eqb_sym.
    now rewrite Hx.
  - destruct y as [|x y]; [simpl in Hl; lia|].
    simpl in Hy. apply andb_true_iff in Hy as [_ Hy].
    simpl. rewrite IH; [apply andb_false_r | exact Hy | simpl in Hl; lia].
Qed.

Lemma mergeAcc_nonempty (d : gostring -> gostring -> bool) (ws : list gostring) :
  forall acc, mergeAcc d acc ws <> [].
Proof.
  induction ws as [|u rest IH]; intro acc; simpl; [discriminate|].
  destruct rest as [|v rest]; [discriminate|].
  destruct (d u v); [apply IH | discriminate].
Qed.

Lemma mergeAcc_step (d : gostring -> gostring -> bool) (acc u v : gostring)
    (rest : list gostring) :
  mergeAcc d acc (u :: v :: rest)
  = if d u v then mergeAcc d (acc ++ u) (v :: rest)
    else (acc ++ u) :: mergeAcc d [] (v :: rest).
Proof. reflexivity. Qed.

Lemma join_push (w : gostring) (l : list gostring) :
  l <> [] -> join (w :: l) = w ++ sp :: join l.
Proof. destruct l; [congruence | reflexivity]. Qed.

Lemma Replace_word (w old new : gostring) :
  nospace w = true -> In sp old -> Replace w old new = w.
Proof.
  intros Hw Hold. apply Replace_absent with (c := sp); [exact Hold|].
  now apply nospace_not_In.
Qed.

(** A word is passed over by a substitution whose pattern starts with a
    space. *)
Lemma Replace_pass_word (w tok new rest : gostring) :
  nospace w = true ->
  Replace (w ++ rest) (sp :: tok) new = w ++ Replace rest (sp :: tok) new.
Proof.
  intro Hw. apply Replace_skip_prefix; [discriminate|].
  intros a b -> Hb. destruct b as [|x b]; [congruence|].
  rewrite nospace_app in Hw. apply andb_true_iff in Hw as [_ Hw].
  simpl in Hw. apply andb_true_iff in Hw as [Hx _].
  apply negb_true_iff in Hx. simpl. unfold beq in *.
  rewrite Ascii.eqb_sym, Hx. reflexivity.
Qed.

Section Merging.

Variable tok : gostring.
Hypothesis tok_nonempty : tok <> [].
Hypothesis tok_nospace : nospace tok = true.

Lemma Replace_before (ws : list gostring) :
  Forall (fun w => nospace w = true) ws ->
  forall acc,
    acc ++ Replace (join ws) (sp :: tok) tok = join (mergeAcc (before tok) acc ws).
Proof.
  induction 1 as [|u rest Hu Hrest IH]; intro acc.
  - cbn [join mergeAcc]. rewrite Replace_nil by discriminate. apply List.app_nil_r.
  - destruct rest as [|v rest].
    + cbn [join mergeAcc]. rewrite Replace_word; [reflexivity | exact Hu | now left].
    + assert (Hv : nospace v = true) by now inversion Hrest.
      change (join (u :: v :: rest)) with (u ++ sp :: join (v :: rest)).
      rewrite Replace_pass_word by exact Hu.
      destruct (join_cons v rest) as (tail & Hj & Htail).
      assert (HJ : Replace (join (v :: rest)) (sp :: tok) tok
                   = v ++ Replace tail (sp :: tok) tok).
      { rewrite Hj. now apply Replace_pass_word. }
      rewrite mergeAcc_step. unfold before at 1.
      destruct (hasPrefix tok v) eqn:E.
      * apply hasPrefix_iff in E as (b & Eb).
        assert (Hb : nospace b = true).
        { rewrite Eb, nospace_app in Hv. now apply andb_true_iff in Hv. }
        assert (HX : Replace (sp :: join (v :: rest)) (sp :: tok) tok
                     = Replace (join (v :: rest)) (sp :: tok) tok).
        { rewrite HJ, Hj, Eb.
          replace (sp :: (tok ++ b) ++ tail) with ((sp :: tok) ++ (b ++ tail))
            by (simpl; now rewrite app_assoc).
          rewrite Replace_match by discriminate.
          rewrite Replace_pass_word by exact Hb.
          now rewrite app_assoc. }
        rewrite <- IH, HX. now rewrite app_assoc.
      * rewrite (@join_push (acc ++ u)) by apply mergeAcc_nonempty.
        rewrite <- IH. cbn [app].
        rewrite Replace_cons; [now rewrite <- app_assoc|discriminate|].
        cbn [hasPrefix]. rewrite beq_refl. cbn [andb].
        destruct (hasPrefix tok (join (v :: rest))) eqn:E'; [|reflexivity].
        rewrite Hj in E'.
        now rewrite (hasPrefix_within _ _ tok_nospace Htail E') in E.
Qed.

Lemma suffix_of_snoc (x a b : gostring) (c : ascii) :
  x ++ [c] = a ++ b -> b <> [] -> exists b', b = b' ++ [c] /\ x = a ++ b'.
Proof.
  intros E Hb. destruct (exists_last Hb) as (b' & c' & ->).
  rewrite app_assoc in E. apply app_inj_tail in E as [-> ->]. eauto.
Qed.

Lemma Replace_after (ws : list gostring) :
  Forall (fun w => nospace w = true) ws ->
  forall acc,
    acc ++ Replace (join ws) (tok ++ [sp]) tok = join (mergeAcc (after tok) acc ws).
Proof.
  assert (Hp : tok ++ [sp] <> []) by (destruct tok; discriminate).
  induction 1 as [|u rest Hu Hrest IH]; intro acc.
  - cbn [join mergeAcc]. rewrite Replace_nil by exact Hp. apply List.app_nil_r.
  - destruct rest as [|v rest].
    + cbn [join mergeAcc]. rewrite Replace_word; [reflexivity | exact Hu |].
      apply in_or_app. right. now left.
    + change (join (u :: v :: rest)) with (u ++ sp :: join (v :: rest)).
      rewrite mergeAcc_step. unfold after at 1.
      destruct (hasSuffix tok u) eqn:E.
      * apply hasSuffix_iff in E as (a & Ea).
        rewrite <- IH. rewrite Ea at 1.
        rewrite <- app_assoc.
        change (tok ++ sp :: join (v :: rest))
          with (tok ++ [sp] ++ join (v :: rest)).
        rewrite (app_assoc tok).
        rewrite Replace_skip_prefix; [|exact Hp|].
        -- rewrite Replace_match by exact Hp.
           rewrite Ea. now rewrite <- !app_assoc.
        -- intros a' b -> Hb.
           rewrite <- app_assoc, (app_assoc b).
           apply hasPrefix_too_long.
           ++ rewrite Ea, !nospace_app in Hu.
              apply andb_true_iff in Hu as [Hu Ht].
              apply andb_true_iff in Hu as [_ Hu].
              now rewrite nospace_app, Hu, Ht.
           ++ rewrite length_app. destruct b; [congruence|simpl; lia].
      * rewrite (@join_push (acc ++ u)) by apply mergeAcc_nonempty.
        rewrite <- IH. cbn [app].
        change (u ++ sp :: join (v :: rest))
          with (u ++ [sp] ++ join (v :: rest)).
        rewrite app_assoc.
        rewrite Replace_skip_prefix; [now rewrite <- !app_assoc|exact Hp|].
        intros a b Eab Hb.
        destruct (suffix_of_snoc _ _ _ Eab Hb) as (b' & -> & Eu).
        destruct (hasPrefix (tok ++ [sp]) ((b' ++ [sp]) ++ join (v :: rest)))
          eqn:E'; [|reflexivity].
        rewrite <- app_assoc in E'. cbn [app] in E'.
        apply hasPrefix_align in E'; [|exact tok_nospace|].
        -- subst b'. rewrite Eu in E.
           assert (hasSuffix tok (a ++ tok) = true)
             by (apply hasSuffix_iff; eauto).
           congruence.
        -- rewrite Eu, nospace_app in Hu. now apply andb_true_iff in Hu.
Qed.

End Merging.

Lemma contains_cons (p : gostring) (c : ascii) (s : gostring) :
  contains p (c :: s) = hasPrefix p (c :: s) || contains p s.
Proof. reflexivity. Qed.

Lemma contains_In (p s : gostring) (c : ascii) :
  contains p s = true -> In c p -> In c s.
Proof.
  induction s as [|x s IH]; intros H Hin.
  - simpl in H. rewrite orb_false_r in H.
    destruct p; [destruct Hin | discriminate].
  - rewrite contains_cons in H. apply orb_true_iff in H as [H|H].
    + eapply hasPrefix_In; eassumption.
    + right. now apply IH.
Qed.

Lemma contains_app (p x y : gostring) :
  contains p (x ++ y) = true ->
  (exists a b, x = a ++ b /\ b <> [] /\ hasPrefix p (b ++ y) = true) \/
  contains p y = true.
Proof.
  induction x as [|c x IH]; intro H; [now right|].
  cbn [app] in H. rewrite contains_cons in H.
  apply orb_true_iff in H as [H|H].
  - left. exists [], (c :: x). repeat split; [discriminate | exact H].
  - destruct (IH H) as [(a & b & -> & Hb & Hp)|Hy]; [|now right].
    left. exists (c :: a), b. auto.
Qed.

Section Patterns.

Variable tok : gostring.
Hypothesis tok_nospace : nospace tok = true.

Lemma contains_before (ws : list gostring) :
  Forall (fun w => nospace w = true) ws ->
  contains (sp :: tok) (join ws) = true -> adj (before tok) ws = true.
Proof.
  induction 1 as [|u rest Hu Hrest IH]; intro H.
  - discriminate H.
  - destruct rest as [|v rest].
    + exfalso. apply (nospace_not_In _ Hu).
      apply (contains_In _ _ sp H). now left.
    + change (join (u :: v :: rest)) with (u ++ sp :: join (v :: rest)) in H.
      cbn [adj]. apply orb_true_iff.
      apply contains_app in H as [(a & b & -> & Hb & Hp)|H].
      * exfalso. destruct b as [|x b]; [congruence|].
        rewrite nospace_app in Hu. apply andb_true_iff in Hu as [_ Hu].
        simpl in Hu, Hp. apply andb_true_iff in Hu as [Hx _].
        apply andb_true_iff in Hp as [Hp _]. apply beq_eq in Hp. subst x.
        discriminate Hx.
      * rewrite contains_cons in H. apply orb_true_iff in H as [H|H].
        -- left. unfold before. cbn [hasPrefix] in H.
           apply andb_true_iff in H as [_ H].
           destruct (join_cons v rest) as (tail & Hj & Htail).
           rewrite Hj in H. eapply hasPrefix_within; eassumption.
        -- right. now apply IH.
Qed.

Lemma contains_after (ws : list gostring) :
  Forall (fun w => nospace w = true) ws ->
  contains (tok ++ [sp]) (join ws) = true -> adj (after tok) ws = true.
Proof.
  induction 1 as [|u rest Hu Hrest IH]; intro H.
  - simpl in H. rewrite orb_false_r in H. destruct tok; discriminate H.
  - destruct rest as [|v rest].
    + exfalso. apply (nospace_not_In _ Hu).
      apply (contains_In _ _ sp H). apply in_or_app. right. now left.
    + change (join (u :: v :: rest)) with (u ++ [sp] ++ join (v :: rest)) in H.
      rewrite app_assoc in H.
      cbn [adj]. apply orb_true_iff.
      apply contains_app in H as [(a & b & Eab & Hb & Hp)|H].
      * left. unfold after.
        destruct (suffix_of_snoc _ _ _ Eab Hb) as (b' & -> & Eu).
        rewrite <- app_assoc in Hp. cbn [app] in Hp.
        apply hasPrefix_align in Hp; [|exact tok_nospace|].
        -- subst b'. apply hasSuffix_iff. eauto.
        -- rewrite Eu, nospace_app in Hu. now apply andb_true_iff in Hu.
      * right. now apply IH.
Qed.

End Patterns.

Lemma inner_tail (w : gostring) (l : list gostring) :
  inner (w :: l) = true -> inner l = true.
Proof.
  destruct l as [|x l]; [reflexivity|]. cbn [inner].
  intro H. now apply andb_true_iff in H.
Qed.

Lemma adj_push (P : gostring -> gostring -> bool) (x : gostring)
    (l : list gostring) :
  adj P (x :: l) = match l with
                   | [] => false
                   | y :: _ => P x y || adj P l
                   end.
Proof. reflexivity. Qed.

Section Transfer.

Variable d : gostring -> gostring -> bool.

(** What [mergeAcc] starts with: the accumulator, the first word and, when
    the space after that word goes, the next word and more. *)
Lemma mergeAcc_head (v : gostring) (rest : list gostring) :
  forall acc,
  exists x tl,
    mergeAcc d acc (v :: rest) = (acc ++ v ++ x) :: tl /\
    (x = [] \/ exists w rest' more,
                 rest = w :: rest' /\ d v w = true /\ x = w ++ more).
Proof.
  revert v. induction rest as [|w rest IH]; intros v acc.
  - exists [], []. rewrite List.app_nil_r. auto.
  - rewrite mergeAcc_step. destruct (d v w) eqn:E.
    + destruct (IH w (acc ++ v)) as (x & tl & -> & _).
      exists (w ++ x), tl. rewrite <- !app_assoc. split; [reflexivity|].
      right. exists w, rest, x. auto.
    + exists [], (mergeAcc d [] (w :: rest)). rewrite List.app_nil_r. auto.
Qed.

Lemma survive_adj (P : gostring -> gostring -> bool) (ws : list gostring) :
  survive d P ws = true -> adj P ws = true.
Proof.
  unfold survive. induction ws as [|u rest IH]; [discriminate|].
  destruct rest as [|v rest]; [discriminate|]. rewrite !adj_push.
  intro H. apply orb_true_iff in H as [H|H]; apply orb_true_iff.
  - left. now apply andb_true_iff in H.
  - right. now apply IH.
Qed.

Lemma survive_own (ws : list gostring) : survive d d ws = false.
Proof.
  unfold survive. induction ws as [|u rest IH]; [reflexivity|].
  destruct rest as [|v rest]; [reflexivity|]. rewrite adj_push, IH.
  now destruct (d u v).
Qed.

Variable tok : gostring.

(** The token cannot come to start a word by the gluing that [d] does. *)
Hypothesis safe_before :
  forall v w more,
    v <> [] -> hasPrefix tok v = false -> d v w = true ->
    hasPrefix tok (v ++ w ++ more) = true -> False.

Lemma transfer_before (ws : list gostring) :
  midOk ws = true ->
  forall acc,
    adj (before tok) (mergeAcc d acc ws) = true ->
    survive d (before tok) ws = true.
Proof.
  induction ws as [|u rest IH]; intros Hmid acc H; [discriminate H|].
  destruct rest as [|v rest]; [discriminate H|].
  unfold midOk in Hmid. cbn [tl] in Hmid.
  assert (Hmid' : midOk (v :: rest) = true) by (eapply inner_tail; exact Hmid).
  unfold survive. rewrite adj_push. rewrite mergeAcc_step in H.
  destruct (d u v) eqn:E.
  - rewrite orb_true_iff. right. eapply IH; eassumption.
  - destruct (mergeAcc_head v rest []) as (x & tl & Eh & Hx).
    rewrite Eh, adj_push, <- Eh in H. cbn [app] in H.
    apply orb_true_iff in H as [H|H].
    + unfold before in H. apply orb_true_iff. left. cbn [negb andb].
      unfold before. destruct (hasPrefix tok v) eqn:Ev; [reflexivity|].
      exfalso. destruct Hx as [->|(w & rest' & more & -> & Hd & ->)].
      * rewrite List.app_nil_r in H. congruence.
      * apply (@safe_before v w more); try assumption.
        cbn [inner] in Hmid. apply andb_true_iff in Hmid as [Hv _].
        destruct v; [discriminate Hv | discriminate].
    + apply orb_true_iff. right. eapply IH; eassumption.
Qed.

(** The token cannot come to end a word by the gluing that [d] does. *)
Hypothesis safe_after :
  forall acc' p u,
    u <> [] -> hasSuffix tok u = false -> d p u = true ->
    hasSuffix tok ((acc' ++ p) ++ u) = true -> False.

Lemma transfer_after (ws : list gostring) :
  midOk ws = true ->
  forall acc,
    acc = [] \/
    (inner ws = true /\ exists acc' p, acc = acc' ++ p /\ d p (hd [] ws) = true) ->
    adj (after tok) (mergeAcc d acc ws) = true ->
    survive d (after tok) ws = true.
Proof.
  induction ws as [|u rest IH]; intros Hmid acc Hacc H; [discriminate H|].
  destruct rest as [|v rest]; [discriminate H|].
  unfold midOk in Hmid. cbn [tl] in Hmid.
  assert (Hmid' : midOk (v :: rest) = true) by (eapply inner_tail; exact Hmid).
  unfold survive. rewrite adj_push. rewrite mergeAcc_step in H.
  destruct (d u v) eqn:E.
  - rewrite orb_true_iff. right. apply (IH Hmid' (acc ++ u)); [|exact H].
    right. split; [exact Hmid|]. exists acc, u. auto.
  - destruct (mergeAcc_head v rest []) as (x & tl & Eh & _).
    rewrite Eh, adj_push, <- Eh in H.
    apply orb_true_iff in H as [H|H].
    + unfold after in H. apply orb_true_iff. left. cbn [negb andb].
      unfold after. destruct (hasSuffix tok u) eqn:Eu; [reflexivity|].
      exfalso. destruct Hacc as [->|(Hin & acc' & p & -> & Hd)].
      * cbn [app] in H. congruence.
      * cbn [hd] in Hd. apply (@safe_after acc' p u); try assumption.
        cbn [inner] in Hin. apply andb_true_iff in Hin as [Hu _].
        destruct u; [discriminate Hu | discriminate].
    + apply orb_true_iff. right. apply (IH Hmid' []); [now left | exact H].
Qed.

End Transfer.

Lemma mergeAcc_nospace (d : gostring -> gostring -> bool) (ws : list gostring) :
  Forall (fun w => nospace w = true) ws ->
  forall acc, nospace acc = true ->
              Forall (fun w => nospace w = true) (mergeAcc d acc ws).
Proof.
  induction 1 as [|u rest Hu Hrest IH]; intros acc Hacc.
  - simpl. constructor; [exact Hacc | constructor].
  - destruct rest as [|v rest].
    + simpl. constructor; [|constructor]. now rewrite nospace_app, Hacc, Hu.
    + rewrite mergeAcc_step. destruct (d u v).
      * apply IH. now rewrite nospace_app, Hacc, Hu.
      * constructor; [now rewrite nospace_app, Hacc, Hu | now apply IH].
Qed.

Lemma inner_push (w : gostring) (l : list gostring) :
  l <> [] -> inner (w :: l) = negb (isEmpty w) && inner l.
Proof. destruct l; [congruence | reflexivity]. Qed.

Lemma mergeAcc_inner (d : gostring -> gostring -> bool) (ws : list gostring) :
  inner ws = true -> forall acc, inner (mergeAcc d acc ws) = true.
Proof.
  induction ws as [|u rest IH]; intros H acc; [reflexivity|].
  destruct rest as [|v rest]; [reflexivity|].
  rewrite mergeAcc_step.
  cbn [inner] in H. apply andb_true_iff in H as [Hu H].
  destruct (d u v).
  - now apply IH.
  - rewrite inner_push by apply mergeAcc_nonempty.
    rewrite IH by exact H. destruct u; [discriminate Hu|].
    destruct acc; reflexivity.
Qed.

Lemma mergeAcc_midOk (d : gostring -> gostring -> bool) (ws : list gostring) :
  midOk ws = true -> forall acc, midOk (mergeAcc d acc ws) = true.
Proof.
  induction ws as [|u rest IH]; intros H acc; [reflexivity|].
  destruct rest as [|v rest]; [reflexivity|].
  rewrite mergeAcc_step. unfold midOk in H. cbn [tl] in H.
  destruct (d u v).
  - apply IH. unfold midOk. cbn [tl]. eapply inner_tail, H.
  - unfold midOk. cbn [tl]. now apply mergeAcc_inner.
Qed.

(** Every line is its words joined. *)
Lemma words_of_line (s : gostring) :
  exists ws,
    join ws = s /\ ws <> [] /\ Forall (fun w => nospace w = true) ws /\
    (contains [sp; sp] s = false -> midOk ws = true).
Proof.
  induction s as [|c s (ws & Hj & Hne & Hns & Hmid)].
  - exists [[]]. repeat split; [discriminate | repeat constructor].
  - destruct ws as [|w rest]; [congruence|].
    destruct (beq c sp) eqn:E.
    + apply beq_eq in E. subst c. exists ([] :: w :: rest).
      split; [|split; [discriminate|split]].
      * change (join ([] :: w :: rest)) with (sp :: join (w :: rest)).
        now rewrite Hj.
      * constructor; [reflexivity | exact Hns].
      * intro H. rewrite contains_cons in H.
        apply orb_false_iff in H as [H1 H2]. specialize (Hmid H2).
        unfold midOk in *. cbn [tl] in *.
        destruct rest as [|v rest]; [reflexivity|].
        rewrite inner_push by discriminate. rewrite Hmid.
        destruct w; [|reflexivity].
        exfalso. rewrite <- Hj in H1.
        change (join ([] :: v :: rest)) with (sp :: join (v :: rest)) in H1.
        cbn [hasPrefix] in H1. now rewrite !beq_refl in H1.
    + exists ((c :: w) :: rest).
      split; [|split; [discriminate|split]].
      * rewrite <- Hj. destruct rest; reflexivity.
      * inversion Hns; subst. constructor; [|assumption].
        cbn [nospace forallb]. rewrite E. assumption.
      * intro H. rewrite contains_cons in H.
        apply orb_false_iff in H as [_ H2]. exact (Hmid H2).
Qed.

(** ** When a substitution cannot bring back a pattern *)

Lemma app_eq_cases (A : Type) (a b c e : list A) :
  a ++ b = c ++ e ->
  exists l, (a = c ++ l /\ e = l ++ b) \/ (c = a ++ l /\ b = l ++ e).
Proof.
  revert c. induction a as [|x a IH]; intros c H.
  - exists c. right. auto.
  - destruct c as [|y c].
    + exists (x :: a). left. auto.
    + injection H as -> H. destruct (IH _ H) as (l & [[-> ->]|[-> ->]]);
        exists l; [left | right]; auto.
Qed.

Lemma splits_complete (h g : gostring) :
  h <> [] -> g <> [] -> In (h, g) (splits (h ++ g)).
Proof.
  intros Hh Hg. unfold splits. apply in_map_iff. exists (length h). split.
  - rewrite firstn_app, Nat.sub_diag, firstn_all. simpl. rewrite List.app_nil_r.
    rewrite skipn_app, Nat.sub_diag, skipn_all. reflexivity.
  - apply in_seq. rewrite length_app.
    destruct h; [congruence|]. destruct g; [congruence|]. simpl. lia.
Qed.

Lemma hasPrefix_self (t : gostring) : hasPrefix t t = true.
Proof. apply hasPrefix_iff. exists []. now rewrite List.app_nil_r. Qed.

Lemma hasSuffix_self (t : gostring) : hasSuffix t t = true.
Proof. apply hasSuffix_iff. now exists []. Qed.

Section Checks.

Variables t t2 : gostring.

Lemma safeBB :
  checkBB t t2 = true ->
  forall v w more,
    v <> [] -> hasPrefix t v = false -> before t2 v w = true ->
    hasPrefix t (v ++ w ++ more) = true -> False.
Proof.
  intros Hc v w more Hv Hn Hd Hp. unfold before in Hd.
  apply hasPrefix_iff in Hp as (r & Hp). apply hasPrefix_iff in Hd as (w' & ->).
  apply app_eq_cases in Hp as (l & [[-> _]|[-> Hl]]).
  - now rewrite hasPrefix_app in Hn.
  - destruct l as [|x l]; [rewrite List.app_nil_r, hasPrefix_self in Hn; discriminate|].
    unfold checkBB in Hc. rewrite forallb_forall in Hc.
    specialize (Hc _ (@splits_complete v (x :: l) Hv ltac:(discriminate))).
    cbn [snd] in Hc. apply andb_true_iff in Hc as [H1 H2].
    rewrite <- app_assoc in Hl.
    apply app_eq_cases in Hl as (l' & [[E _]|[E _]]).
    + rewrite E, hasPrefix_app in H1. discriminate.
    + rewrite E, hasPrefix_app in H2. discriminate.
Qed.

Lemma safeBA :
  checkBA t t2 = true ->
  forall v w more,
    v <> [] -> hasPrefix t v = false -> after t2 v w = true ->
    hasPrefix t (v ++ w ++ more) = true -> False.
Proof.
  intros Hc v w more Hv Hn Hd Hp. unfold after in Hd.
  apply hasPrefix_iff in Hp as (r & Hp).
  apply app_eq_cases in Hp as (l & [[-> _]|[-> Hl]]).
  - now rewrite hasPrefix_app in Hn.
  - destruct l as [|x l]; [rewrite List.app_nil_r, hasPrefix_self in Hn; discriminate|].
    unfold checkBA in Hc. rewrite forallb_forall in Hc.
    specialize (Hc _ (@splits_complete v (x :: l) Hv ltac:(discriminate))).
    cbn [fst] in Hc. rewrite Hd in Hc. discriminate.
Qed.

Lemma safeAB :
  checkAB t t2 = true ->
  forall acc' p u,
    u <> [] -> hasSuffix t u = false -> before t2 p u = true ->
    hasSuffix t ((acc' ++ p) ++ u) = true -> False.
Proof.
  intros Hc acc' p u Hu Hn Hd Hs. unfold before in Hd.
  apply hasSuffix_iff in Hs as (a & Hs).
  apply app_eq_cases in Hs as (l & [[_ E]|[_ ->]]).
  - destruct l as [|x l].
    + cbn [app] in E. subst u. rewrite hasSuffix_self in Hn. discriminate.
    + unfold checkAB in Hc. rewrite forallb_forall in Hc. subst t.
      specialize (Hc _ (@splits_complete (x :: l) u ltac:(discriminate) Hu)).
      cbn [snd] in Hc. rewrite Hd in Hc. discriminate.
  - assert (hasSuffix t (l ++ t) = true) by (apply hasSuffix_iff; eauto).
    congruence.
Qed.

Lemma safeAA :
  checkAA t t2 = true ->
  forall acc' p u,
    u <> [] -> hasSuffix t u = false -> after t2 p u = true ->
    hasSuffix t ((acc' ++ p) ++ u) = true -> False.
Proof.
  intros Hc acc' p u Hu Hn Hd Hs. unfold after in Hd.
  apply hasSuffix_iff in Hs as (a & Hs). apply hasSuffix_iff in Hd as (p' & ->).
  apply app_eq_cases in Hs as (l & [[Hl E]|[_ ->]]).
  - destruct l as [|x l].
    + cbn [app] in E. subst u. rewrite hasSuffix_self in Hn. discriminate.
    + unfold checkAA in Hc. rewrite forallb_forall in Hc. subst t.
      specialize (Hc _ (@splits_complete (x :: l) u ltac:(discriminate) Hu)).
      cbn [fst] in Hc. apply andb_true_iff in Hc as [H1 H2].
      rewrite app_assoc in Hl.
      apply app_eq_cases in Hl as (l' & [[_ E]|[_ E]]).
      * assert (hasSuffix t2 (l' ++ t2) = true) by (apply hasSuffix_iff; eauto).
        rewrite <- E in H. rewrite H in H2. discriminate.
      * assert (hasSuffix (x :: l) (l' ++ x :: l) = true)
          by (apply hasSuffix_iff; eauto).
        rewrite <- E in H. rewrite H in H1. discriminate.
  - assert (hasSuffix t (l ++ t) = true) by (apply hasSuffix_iff; eauto).
    congruence.
Qed.

End Checks.

(** ** The table as a sequence of merges *)

Lemma tokOk_parts (s : step) : tokOk s = true -> snd s <> [] /\ nospace (snd s) = true.
Proof.
  unfold tokOk. intro H. apply andb_true_iff in H as [H1 H2]. split; [|exact H2].
  destruct (snd s); [discriminate H1 | discriminate].
Qed.

Lemma step_merge (s : step) (ws : list gostring) :
  tokOk s = true -> allNospace ws ->
  Replace (join ws) (pattern s) (snd s) = join (mergeAcc (decide s) [] ws).
Proof.
  intros Hs Hws. apply tokOk_parts in Hs as [Hne Hns].
  unfold pattern, decide. destruct (fst s).
  - exact (@Replace_before (snd s) Hns ws Hws []).
  - exact (@Replace_after (snd s) Hne Hns ws Hws []).
Qed.

Lemma step_contains (P : step) (ws : list gostring) :
  tokOk P = true -> allNospace ws ->
  contains (pattern P) (join ws) = true -> adj (decide P) ws = true.
Proof.
  intros Hs Hws. apply tokOk_parts in Hs as [_ Hns].
  unfold pattern, decide. destruct (fst P).
  - now apply contains_before.
  - now apply contains_after.
Qed.

Lemma step_transfer (P D : step) (ws : list gostring) :
  compat P D = true -> midOk ws = true ->
  adj (decide P) (mergeAcc (decide D) [] ws) = true ->
  survive (decide D) (decide P) ws = true.
Proof.
  unfold compat, decide. intros Hc Hmid.
  destruct (fst P), (fst D).
  - apply transfer_before; [apply safeBB, Hc | exact Hmid].
  - apply transfer_before; [apply safeBA, Hc | exact Hmid].
  - intro H. eapply transfer_after; [apply safeAB, Hc | exact Hmid | now left | exact H].
  - intro H. eapply transfer_after; [apply safeAA, Hc | exact Hmid | now left | exact H].
Qed.

Lemma step_absent (P D : step) (ws : list gostring) :
  compat P D = true -> midOk ws = true ->
  P = D \/ adj (decide P) ws = false ->
  adj (decide P) (mergeAcc (decide D) [] ws) = false.
Proof.
  intros Hc Hmid Hcase.
  destruct (adj (decide P) (mergeAcc (decide D) [] ws)) eqn:E; [|reflexivity].
  apply step_transfer in E; [|assumption..].
  destruct Hcase as [->|Hn].
  - now rewrite survive_own in E.
  - apply survive_adj in E. congruence.
Qed.

Lemma run_absent (steps : list step) :
  forall done ws,
    midOk ws = true ->
    (forall P, In P done -> adj (decide P) ws = false) ->
    allCompat done steps = true ->
    forall P, In P (done ++ steps) -> adj (decide P) (runSteps steps ws) = false.
Proof.
  induction steps as [|s rest IH]; intros done ws Hmid Hdone Hc P HP.
  - rewrite List.app_nil_r in HP. now apply Hdone.
  - cbn [allCompat] in Hc. apply andb_true_iff in Hc as [Hs Hc].
    rewrite forallb_forall in Hs.
    unfold runSteps. cbn [fold_left].
    apply (IH (s :: done)); try assumption.
    + now apply mergeAcc_midOk.
    + intros Q HQ. apply step_absent; [now apply Hs | exact Hmid |].
      destruct HQ as [<-|HQ]; [now left | right; now apply Hdone].
    + apply in_app_or in HP as [HP|[<-|HP]].
      * apply in_or_app. left. now right.
      * apply in_or_app. left. now left.
      * apply in_or_app. now right.
Qed.

Lemma runSteps_nospace (steps : list step) :
  forall ws, allNospace ws -> allNospace (runSteps steps ws).
Proof.
  induction steps as [|s rest IH]; intros ws H; [exact H|].
  apply IH. now apply mergeAcc_nospace.
Qed.

Lemma runSteps_join (steps : list step) :
  forallb tokOk steps = true ->
  forall ws, allNospace ws ->
    fold_left (fun l s => Replace l (pattern s) (snd s)) steps (join ws)
    = join (runSteps steps ws).
Proof.
  induction steps as [|s rest IH]; intros Hok ws Hws; [reflexivity|].
  cbn [forallb] in Hok. apply andb_true_iff in Hok as [Hs Hok].
  cbn [fold_left]. rewrite step_merge by assumption.
  apply IH; [exact Hok|]. now apply mergeAcc_nospace.
Qed.

Lemma compactLine_steps (line : gostring) :
  compactLine line
  = fold_left (fun l s => Replace l (pattern s) (snd s)) tableSteps line.
Proof.
  unfold compactLine, tableSteps.
  assert (H : Forall (fun sub => pattern (stepOf sub) = fst sub /\
                                 snd (stepOf sub) = snd sub) spacingTable).
  { apply Forall_forall. intros sub Hin.
    assert (Hb : forallb (fun sub => streq (pattern (stepOf sub)) (fst sub) &&
                                     streq (snd (stepOf sub)) (snd sub))
                         spacingTable = true) by (vm_compute; reflexivity).
    rewrite forallb_forall in Hb. specialize (Hb _ Hin).
    apply andb_true_iff in Hb as [H1 H2].
    now apply streq_eq in H1, H2. }
  revert line. induction H as [|sub t [H1 H2] _ IH]; intro line; [reflexivity|].
  cbn [fold_left map]. rewrite H1, H2. apply IH.
Qed.

Lemma tableSteps_ok : forallb tokOk tableSteps = true.
Proof. vm_compute. reflexivity. Qed.

Lemma tableSteps_compat : allCompat [] tableSteps = true.
Proof. vm_compute. reflexivity. Qed.

Lemma pattern_in_table (pat : gostring) :
  existsb (fun sub => streq (fst sub) pat) spacingTable = true ->
  exists sub, In sub spacingTable /\ fst sub = pat.
Proof.
  intro H. apply existsb_exists in H as (sub & Hin & E).
  apply streq_eq in E. eauto.
Qed.

Lemma twoSided_in_table (tk : gostring) :
  In tk twoSidedTokens ->
  (exists sub, In sub spacingTable /\ fst sub = sp :: tk) /\
  (exists sub, In sub spacingTable /\ fst sub = tk ++ [sp]).
Proof.
  intro H. unfold twoSidedTokens in H. cbn [map In] in H.
  repeat (destruct H as [<-|H];
          [split; apply pattern_in_table; vm_compute; reflexivity|]).
  destruct H.
Qed.

(** C8, amended. On a line without two spaces in a row, one walk through
    the table leaves none of its patterns behind: for every token with a
    substitution on both sides neither a space followed by the token nor the
    token followed by a space remains, and for the minus sign, which has the
    one entry, no minus followed by a space remains. *)
Theorem compactor_single_spaces (line : gostring) :
  contains (str "  ") line = false ->
  (forall sub, In sub spacingTable ->
               contains (fst sub) (compactLine line) = false) /\
  (forall tk, In tk twoSidedTokens ->
              contains (str " " ++ tk) (compactLine line) = false /\
              contains (tk ++ str " ") (compactLine line) = false) /\
  contains (str "- ") (compactLine line) = false.
Proof.
  intro Hline.
  assert (Hall : forall sub, In sub spacingTable ->
                             contains (fst sub) (compactLine line) = false).
  { intros sub Hsub.
    destruct (words_of_line line) as (ws & Hj & _ & Hns & Hmid).
    specialize (Hmid Hline).
    rewrite compactLine_steps, <- Hj.
    rewrite (runSteps_join _ tableSteps_ok Hns).
    assert (HP : In (stepOf sub) tableSteps) by now apply in_map.
    pose proof (@run_absent tableSteps [] ws Hmid
                  (fun P (H : In P []) => match H with end)
                  tableSteps_compat (stepOf sub) HP) as Habs.
    destruct (contains (fst sub) (join (runSteps tableSteps ws))) eqn:E;
      [|reflexivity].
    assert (Hpat : pattern (stepOf sub) = fst sub).
    { assert (Hb : forallb (fun sub => streq (pattern (stepOf sub)) (fst sub))
                           spacingTable = true) by (vm_compute; reflexivity).
      rewrite forallb_forall in Hb. apply streq_eq. now apply Hb. }
    rewrite <- Hpat in E. apply step_contains in E.
    - congruence.
    - pose proof tableSteps_ok as Hok. rewrite forallb_forall in Hok.
      now apply Hok.
    - now apply runSteps_nospace. }
  split; [exact Hall|]. split.
  - intros tk Htk.
    destruct (twoSided_in_table Htk) as [(s1 & H1 & E1) (s2 & H2 & E2)].
    split.
    + change (str " " ++ tk) with (sp :: tk). rewrite <- E1. now apply Hall.
    + change (str " ") with [sp]. rewrite <- E2. now apply Hall.
  - apply (Hall (str "- ", str "-")). vm_compute. tauto.
Qed.

Lemma compactor_single_spaces_witness :
  (forall sub, In sub spacingTable ->
               contains (fst sub) (compactLine (str "$A = ( $B -EQ 1 ) ;")) = false) /\
  (forall tk, In tk twoSidedTokens ->
              contains (str " " ++ tk) (compactLine (str "$A = ( $B -EQ 1 ) ;")) = false /\
              contains (tk ++ str " ") (compactLine (str "$A = ( $B -EQ 1 ) ;")) = false) /\
  contains (str "- ") (compactLine (str "$A = ( $B -EQ 1 ) ;")) = false.
Proof.
  apply compactor_single_spaces. vm_compute. reflexivity.
Defined.

Example compact_single_spaces_text :
  compactLine (str "$A = ( $B -EQ 1 ) ;") = str "$A=($B-EQ1);".
Proof. vm_compute. reflexivity. Qed.

(** ** Lines as tokens *)

Lemma itemsFrom_skip (s : gostring) :
  forall k, itemsFrom k s = itemsFrom 0 (skipn k s).
Proof.
  induction s as [|c s IH]; intros [|k]; try reflexivity.
  cbn [itemsFrom skipn]. apply IH.
Qed.

Lemma takeIdent_spec (s : gostring) :
  exists rest, s = takeIdent s ++ rest /\ forallb isIdent (takeIdent s) = true /\
               match rest with
               | c :: _ => isIdent c = false
               | [] => True
               end.
Proof.
  induction s as [|c s (rest & E & Hid & Hr)]; simpl.
  - exists []. auto.
  - destruct (isIdent c) eqn:Ec.
    + exists rest. simpl. rewrite Ec. repeat split; try assumption.
      now rewrite <- E.
    + exists (c :: s). auto.
Qed.

Lemma matchAt_spec (s m : gostring) :
  matchAt s = Some m ->
  exists rest, s = m ++ rest /\ nameShape m = true /\
               match rest with
               | c :: _ => isIdent c = false
               | [] => True
               end.
Proof.
  destruct s as [|c s]; [discriminate|]. cbn [matchAt].
  destruct (beq c ESCChar2) eqn:E1.
  - destruct s as [|d s]; [discriminate|].
    destruct (beq d sigil) eqn:E2; [|discriminate].
    intro H. injection H as <-.
    destruct (takeIdent_spec s) as (rest & E & Hid & Hr).
    exists rest. cbn [app nameShape]. rewrite E1, E2, Hid.
    repeat split; [now rewrite <- E | exact Hr].
  - destruct (beq c sigil) eqn:E2; [|discriminate].
    intro H. injection H as <-.
    destruct (takeIdent_spec s) as (rest & E & Hid & Hr).
    exists rest. cbn [app nameShape]. rewrite E1, E2, Hid.
    repeat split; [now rewrite <- E | exact Hr].
Qed.

Lemma matchAt_none (c : ascii) (s : gostring) :
  matchAt (c :: s) = None ->
  beq c sigil = false /\
  (beq c ESCChar2 = true -> match s with
                            | d :: _ => beq d sigil = false
                            | [] => True
                            end).
Proof.
  cbn [matchAt]. destruct (beq c ESCChar2) eqn:E1.
  - apply beq_eq in E1. subst c. intro H. split; [reflexivity|]. intros _.
    destruct s as [|d s]; [exact I|]. now destruct (beq d sigil).
  - destruct (beq c sigil); [discriminate|]. intros _. split; [reflexivity|].
    discriminate.
Qed.

Lemma itemize_match (s m rest : gostring) :
  matchAt s = Some m -> s = m ++ rest -> itemize s = Tok m :: itemize rest.
Proof.
  intros Hm E. unfold itemize. destruct s as [|c s]; [discriminate|].
  cbn [itemsFrom]. rewrite Hm, itemsFrom_skip. f_equal. f_equal.
  destruct m as [|x m].
  - destruct (matchAt_spec _ Hm) as (? & _ & Hs & _). discriminate Hs.
  - injection E as -> ->. simpl. rewrite Nat.sub_0_r.
    rewrite skipn_app, skipn_all, Nat.sub_diag. reflexivity.
Qed.

Lemma itemize_gap (c : ascii) (s : gostring) :
  matchAt (c :: s) = None -> itemize (c :: s) = Gap c :: itemize s.
Proof. intro H. unfold itemize. cbn [itemsFrom]. now rewrite H. Qed.

(** Induction on a line along its items. *)
Lemma itemize_ind (P : gostring -> Prop) :
  P [] ->
  (forall c s, matchAt (c :: s) = None -> P s -> P (c :: s)) ->
  (forall m rest, matchAt (m ++ rest) = Some m -> P rest -> P (m ++ rest)) ->
  forall s, P s.
Proof.
  intros Hnil Hgap Htok s.
  assert (H : forall n s, length s <= n -> P s).
  { clear s. induction n as [|n IH]; intros s Hl.
    - destruct s; [exact Hnil | simpl in Hl; lia].
    - destruct s as [|c s]; [exact Hnil|].
      destruct (matchAt (c :: s)) as [m|] eqn:E.
      + destruct (matchAt_spec _ E) as (rest & Es & Hs & _).
        rewrite Es in *. apply Htok; [exact E|]. apply IH.
        rewrite length_app in Hl. destruct m; [discriminate Hs|].
        simpl in Hl. lia.
      + apply Hgap; [exact E|]. apply IH. simpl in Hl. lia. }
  apply (H (length s)). lia.
Qed.

Lemma render_itemize (s : gostring) : render (fun m => m) (itemize s) = s.
Proof.
  induction s as [|c s E IH|m rest E IH] using itemize_ind.
  - reflexivity.
  - rewrite itemize_gap by exact E. unfold render in *. simpl. now rewrite IH.
  - rewrite (@itemize_match (m ++ rest) m rest E eq_refl). unfold render in *. simpl. now rewrite IH.
Qed.

Lemma itemize_head (c : ascii) (s : gostring) :
  (exists r, itemize (c :: s) = Gap c :: r) \/
  (exists m r, itemize (c :: s) = Tok (c :: m) :: r).
Proof.
  destruct (matchAt (c :: s)) as [m|] eqn:E.
  - right. destruct (matchAt_spec _ E) as (rest & Es & Hs & _).
    destruct m as [|x m]; [discriminate Hs|]. injection Es as <- Es.
    exists m, (itemize rest). apply itemize_match; [exact E|].
    now rewrite Es.
  - left. exists (itemize s). now apply itemize_gap.
Qed.

Lemma itemize_WF (s : gostring) : WF (itemize s).
Proof.
  induction s as [|c s E IH|m rest E IH] using itemize_ind.
  - exact I.
  - rewrite itemize_gap by exact E. cbn [WF].
    destruct (matchAt_none _ _ E) as [H1 H2].
    split; [exact H1|]. split; [|exact IH].
    destruct s as [|d s]; [exact I|].
    destruct (itemize_head d s) as [(r & ->)|(m & r & ->)];
      cbn [hd_error okAfter]; [exact I|].
    intro Hc. specialize (H2 Hc). cbn [hasPrefix].
    unfold beq in *. now rewrite Ascii.eqb_sym, H2.
  - destruct (matchAt_spec _ E) as (rest' & Es & Hs & Hr).
    apply app_inv_head in Es. subst rest'.
    rewrite (@itemize_match (m ++ rest) m rest E eq_refl). cbn [WF].
    split; [exact Hs|]. split; [|exact IH].
    destruct rest as [|d rest]; [exact I|].
    destruct (itemize_head d rest) as [(r & ->)|(m' & r & ->)];
      cbn [hd_error okAfter]; [exact Hr | exact I].
Qed.

Lemma tokensOf_itemsFrom (s : gostring) :
  forall k, tokensOf (itemsFrom k s) = findAllFrom k s.
Proof.
  induction s as [|c s IH]; intro k; [reflexivity|].
  cbn [itemsFrom findAllFrom]. destruct k as [|k]; [|apply IH].
  destruct (matchAt (c :: s)); cbn [tokensOf flat_map app];
    fold (tokensOf (itemsFrom (length g - 1) s)) || fold (tokensOf (itemsFrom 0 s));
    now rewrite IH.
Qed.

Lemma tokensOf_itemize (s : gostring) : tokensOf (itemize s) = findAll s.
Proof. apply tokensOf_itemsFrom. Qed.

(** Upper-casing does not move the matches. *)
Lemma upperChar_class (c : ascii) :
  isIdent (upperChar c) = isIdent c /\
  beq (upperChar c) sigil = beq c sigil /\
  beq (upperChar c) ESCChar2 = beq c ESCChar2.
Proof. destruct c as [[] [] [] [] [] [] [] []]; repeat split; reflexivity. Qed.

Lemma takeIdent_upper (s : gostring) :
  takeIdent (ToUpper s) = ToUpper (takeIdent s).
Proof.
  induction s as [|c s IH]; [reflexivity|]. simpl.
  destruct (upperChar_class c) as (-> & _ & _).
  destruct (isIdent c); [simpl; now rewrite IH | reflexivity].
Qed.

Lemma matchAt_upper (s : gostring) :
  matchAt (ToUpper s) = option_map ToUpper (matchAt s).
Proof.
  destruct s as [|c s]; [reflexivity|]. cbn [ToUpper map matchAt].
  destruct (upperChar_class c) as (_ & -> & ->).
  destruct (beq c ESCChar2).
  - destruct s as [|d s]; [reflexivity|]. cbn [map].
    destruct (upperChar_class d) as (_ & -> & _).
    destruct (beq d sigil); [|reflexivity].
    cbn [option_map]. f_equal. cbn [ToUpper map]. f_equal. f_equal.
    apply takeIdent_upper.
  - destruct (beq c sigil); [|reflexivity].
    cbn [option_map]. f_equal. cbn [ToUpper map]. f_equal.
    apply takeIdent_upper.
Qed.

Lemma findAllFrom_upper (s : gostring) :
  forall k, findAllFrom k (ToUpper s) = map ToUpper (findAllFrom k s).
Proof.
  induction s as [|c s IH]; intro k; [reflexivity|].
  change (ToUpper (c :: s)) with (upperChar c :: ToUpper s).
  cbn [findAllFrom]. destruct k as [|k]; [|apply IH].
  change (upperChar c :: ToUpper s) with (ToUpper (c :: s)).
  rewrite matchAt_upper. destruct (matchAt (c :: s)) as [m|]; cbn [option_map].
  - cbn [map]. f_equal. unfold ToUpper at 1. rewrite length_map. apply IH.
  - apply IH.
Qed.

Lemma findAll_upper (s : gostring) : findAll (ToUpper s) = map ToUpper (findAll s).
Proof. apply findAllFrom_upper. Qed.

(** ** Names, aliases and what follows them *)

Lemma beq_sym (a b : ascii) : beq a b = beq b a.
Proof. apply Ascii.eqb_sym. Qed.

Lemma ident_not_start (i : ascii) :
  isIdent i = true -> beq i sigil = false /\ beq i ESCChar2 = false.
Proof.
  destruct i as [[] [] [] [] [] [] [] []]; intro H; try discriminate H;
    split; reflexivity.
Qed.

Lemma nameShape_cases (m : gostring) :
  nameShape m = true ->
  (exists ids, m = sigil :: ids /\ forallb isIdent ids = true) \/
  (exists ids, m = ESCChar2 :: sigil :: ids /\ forallb isIdent ids = true).
Proof.
  destruct m as [|c r]; [discriminate|]. cbn [nameShape].
  destruct (beq c ESCChar2) eqn:E.
  - apply beq_eq in E. subst c. destruct r as [|d ids]; [discriminate|].
    intro H. apply andb_true_iff in H as [H1 H2]. apply beq_eq in H1. subst d.
    right. eauto.
  - intro H. apply andb_true_iff in H as [H1 H2]. apply beq_eq in H1. subst c.
    left. eauto.
Qed.

Lemma nameShape_sigil (ids : gostring) :
  forallb isIdent ids = true -> nameShape (sigil :: ids) = true.
Proof. intro H. cbn [nameShape]. now rewrite H. Qed.

Lemma suffix_ident (ids a b : gostring) :
  forallb isIdent ids = true -> ids = a ++ b -> b <> [] ->
  exists i r, b = i :: r /\ isIdent i = true.
Proof.
  intros H -> Hb. rewrite forallb_app in H. apply andb_true_iff in H as [_ H].
  destruct b as [|i r]; [congruence|]. simpl in H.
  apply andb_true_iff in H as [H _]. eauto.
Qed.

(** The non-empty suffixes of a name: a name again (the name itself, or the
    name without its escape marker), or a run of identifier characters. *)
Lemma name_suffixes (m a b : gostring) :
  nameShape m = true -> m = a ++ b -> b <> [] ->
  (nameShape b = true /\ length b <= length m /\ (b = m \/ length b < length m)) \/
  (exists i r, b = i :: r /\ isIdent i = true).
Proof.
  intros Hm E Hb.
  destruct (nameShape_cases _ Hm) as [(ids & -> & Hid)|(ids & -> & Hid)].
  - destruct a as [|x a].
    + left. cbn [app] in E. subst b. repeat split; auto.
    + right. injection E as _ E. eapply suffix_ident; eassumption.
  - destruct a as [|x a].
    + left. cbn [app] in E. subst b. repeat split; auto.
    + injection E as _ E. destruct a as [|y a].
      * left. cbn [app] in E. subst b. split; [now apply nameShape_sigil|].
        simpl. split; [lia | right; lia].
      * right. injection E as _ E. eapply suffix_ident; eassumption.
Qed.

Lemma name_extension (b l : gostring) (i : ascii) :
  nameShape b = true -> nameShape (b ++ i :: l) = true -> isIdent i = true.
Proof.
  intros Hb H.
  destruct (nameShape_cases _ Hb) as [(ids & -> & _)|(ids & -> & _)];
    destruct (nameShape_cases _ H) as [(ids' & E & Hid)|(ids' & E & Hid)];
    try discriminate E.
  - injection E as E. rewrite <- E, forallb_app in Hid.
    apply andb_true_iff in Hid as [_ Hid]. simpl in Hid.
    now apply andb_true_iff in Hid.
  - injection E as E. rewrite <- E, forallb_app in Hid.
    apply andb_true_iff in Hid as [_ Hid]. simpl in Hid.
    now apply andb_true_iff in Hid.
Qed.

Lemma hasPrefix_false_head (N b R : gostring) (x y : ascii) :
  hd_error N = Some x -> hd_error b = Some y -> beq x y = false ->
  hasPrefix N (b ++ R) = false.
Proof.
  destruct N as [|x' N]; [discriminate|]. destruct b as [|y' b]; [discriminate|].
  intros [= ->] [= ->] H. cbn [app hasPrefix]. now rewrite H.
Qed.

(** A name does not start where another name, not longer than it, stands
    followed by something that is not an identifier character. *)
Lemma name_vs_name (N b R : gostring) :
  nameShape N = true -> nameShape b = true -> b <> N ->
  length b <= length N -> afterTokOk R ->
  hasPrefix N (b ++ R) = false.
Proof.
  intros HN Hb Hne Hlen HR.
  destruct (hasPrefix N (b ++ R)) eqn:E; [|reflexivity]. exfalso.
  apply hasPrefix_iff in E as (r & E). symmetry in E.
  apply app_eq_cases in E as (l & [[E1 E2]|[E1 _]]).
  - destruct l as [|i l].
    + apply Hne. now rewrite List.app_nil_r in E1.
    + rewrite E2 in HR. cbn in HR. rewrite E1 in HN.
      rewrite (@name_extension b l i Hb HN) in HR. discriminate HR.
  - apply Hne. destruct l as [|x l].
    + now rewrite List.app_nil_r in E1.
    + rewrite E1, length_app in Hlen. simpl in Hlen. lia.
Qed.

Lemma nonbare_cases (N : gostring) :
  nameShape N = true -> bare N = false ->
  (exists i ids, N = sigil :: i :: ids /\ isIdent i = true) \/
  (exists i ids, N = ESCChar2 :: sigil :: i :: ids /\ isIdent i = true).
Proof.
  intros HN Hb.
  destruct (nameShape_cases _ HN) as [(ids & -> & Hid)|(ids & -> & Hid)];
    (destruct ids as [|i ids]; [discriminate Hb|]);
    simpl in Hid; apply andb_true_iff in Hid as [Hi _]; eauto.
Qed.

Lemma alias_suffixes (a x b : gostring) :
  aliasShape a -> a = x ++ b -> b <> [] ->
  b = a \/ exists c r, b = c :: r /\ beq c sigil = false /\ beq c ESCChar2 = false.
Proof.
  intros (X & -> & HX & _) E Hb.
  destruct x as [|x0 x]; [left; now rewrite E|]. right.
  injection E as _ E.
  destruct x as [|x1 x]; [cbn [app] in E; subst b; exists tilde; eauto|].
  injection E as _ E.
  destruct x as [|x2 x]; [cbn [app] in E; subst b; exists tilde; eauto|].
  injection E as _ E. subst X. rewrite forallb_app in HX.
  apply andb_true_iff in HX as [_ HX].
  destruct b as [|c r]; [congruence|]. simpl in HX.
  apply andb_true_iff in HX as [Hc _]. unfold plainChar in Hc.
  apply andb_true_iff in Hc as [H1 H2].
  apply negb_true_iff in H1, H2. eauto.
Qed.

Lemma name_head (N : gostring) :
  nameShape N = true ->
  exists x r, N = x :: r /\ (x = sigil \/ x = ESCChar2).
Proof.
  intro H. destruct (nameShape_cases _ H) as [(ids & -> & _)|(ids & -> & _)]; eauto.
Qed.

(** A name does not start at a character that is neither the sigil nor the
    escape marker. *)
Lemma name_not_at (N : gostring) (c : ascii) (r R : gostring) :
  nameShape N = true -> beq c sigil = false -> beq c ESCChar2 = false ->
  hasPrefix N ((c :: r) ++ R) = false.
Proof.
  intros HN H1 H2. destruct (name_head _ HN) as (x & r' & -> & [-> | ->]);
    cbn [app hasPrefix]; rewrite beq_sym; [now rewrite H1 | now rewrite H2].
Qed.

Section Phase1.

Variable f : gostring -> gostring.
Variables N U : gostring.
Hypothesis HN : nameShape N = true.
Hypothesis HNb : bare N = false.

Lemma look_tok (rest : list item) (m0 : gostring) :
  WF rest -> (forall m, In m (tokensOf rest) -> tokOk1 f N m) ->
  okAfter (Tok m0) (hd_error rest) -> afterTokOk (render f rest).
Proof.
  intros Hwf Hf Hafter. destruct rest as [|[c|m] rest]; [exact I | exact Hafter |].
  destruct Hwf as (Hm & _). cbn [render flat_map renderItem].
  assert (Hin : In m (tokensOf (Tok m :: rest))) by now left.
  destruct (Hf m Hin) as [[-> _]|[_ (X & -> & _)]]; [|reflexivity].
  destruct (name_head _ Hm) as (x & r & -> & [-> | ->]); reflexivity.
Qed.

Lemma look_tick (rest : list item) (c : ascii) :
  WF rest -> (forall m, In m (tokensOf rest) -> tokOk1 f N m) ->
  okAfter (Gap c) (hd_error rest) -> beq c ESCChar2 = true ->
  afterTickOk (render f rest).
Proof.
  intros Hwf Hf Hafter Hc. destruct rest as [|[c'|m] rest]; [exact I | |].
  - destruct Hwf as (Hc' & _). cbn [render flat_map renderItem app].
    cbn in Hc'. unfold afterTickOk.
    destruct (flat_map (renderItem f) rest); [exact I|].
    intro H. congruence.
  - destruct Hwf as (Hm & _). cbn [render flat_map renderItem].
    assert (Hin : In m (tokensOf (Tok m :: rest))) by now left.
    specialize (Hafter Hc).
    destruct (Hf m Hin) as [[-> _]|[_ (X & -> & _)]].
    + destruct (name_head _ Hm) as (x & r & -> & [-> | ->]).
      * cbn [hasPrefix] in Hafter. rewrite beq_refl in Hafter. discriminate.
      * cbn [app]. unfold afterTickOk.
        destruct (r ++ flat_map (renderItem f) rest); [exact I|].
        intro H. discriminate H.
    + cbn [app]. intros _. reflexivity.
Qed.

Lemma gap_no_match (c : ascii) (R : gostring) :
  beq c sigil = false -> (beq c ESCChar2 = true -> afterTickOk R) ->
  hasPrefix N (c :: R) = false.
Proof.
  intros Hc HR.
  destruct (@nonbare_cases N HN HNb) as [(i & ids & -> & Hi)|(i & ids & -> & Hi)].
  - cbn [hasPrefix]. now rewrite beq_sym, Hc.
  - cbn [hasPrefix]. destruct (beq ESCChar2 c) eqn:E; [|reflexivity].
    rewrite beq_sym in E. specialize (HR E). cbn [andb].
    destruct R as [|x R]; [reflexivity|].
    destruct (beq sigil x) eqn:Ex; [|reflexivity]. cbn [andb].
    destruct R as [|y R]; [reflexivity|].
    rewrite beq_sym in Ex. specialize (HR Ex).
    destruct (beq i y) eqn:Ey; [|reflexivity].
    apply beq_eq in Ey. subst y. congruence.
Qed.

Lemma alias_no_match (a R : gostring) :
  aliasShape a ->
  forall x b, a = x ++ b -> b <> [] -> hasPrefix N (b ++ R) = false.
Proof.
  intros Ha x b E Hb.
  destruct (@alias_suffixes a x b Ha E Hb) as [->|(c & r & -> & H1 & H2)].
  - destruct Ha as (X & -> & _).
    destruct (@nonbare_cases N HN HNb) as [(i & ids & -> & Hi)|(i & ids & -> & Hi)].
    + cbn [app hasPrefix]. rewrite beq_refl. cbn [andb].
      destruct (beq i tilde) eqn:E'; [|reflexivity].
      apply beq_eq in E'. subst i. discriminate Hi.
    + reflexivity.
  - now apply name_not_at.
Qed.

Lemma token_no_match (m R : gostring) :
  nameShape m = true -> m <> N -> length m <= length N -> afterTokOk R ->
  forall x b, m = x ++ b -> b <> [] -> hasPrefix N (b ++ R) = false.
Proof.
  intros Hm Hne Hlen HR x b E Hb.
  destruct (@name_suffixes m x b Hm E Hb) as [(Hs & Hl & Hcase)|(i & r & -> & Hi)].
  - apply name_vs_name; try assumption; [|lia].
    destruct Hcase as [->|Hlt]; [exact Hne|]. intros ->. lia.
  - destruct (ident_not_start _ Hi) as [H1 H2]. now apply name_not_at.
Qed.

Lemma phase1_step (items : list item) :
  WF items -> (forall m, In m (tokensOf items) -> tokOk1 f N m) ->
  Replace (render f items) N U = render (override f N U) items.
Proof.
  assert (Hne : N <> []) by (destruct N; [discriminate HN | discriminate]).
  induction items as [|it rest IH]; intros Hwf Hf.
  - now apply Replace_nil.
  - destruct Hwf as (Hit & Hafter & Hwf).
    assert (Hf' : forall m, In m (tokensOf rest) -> tokOk1 f N m).
    { intros m Hm. apply Hf. destruct it; [exact Hm | now right]. }
    specialize (IH Hwf Hf').
    change (render f (it :: rest)) with (renderItem f it ++ render f rest).
    change (render (override f N U) (it :: rest))
      with (renderItem (override f N U) it ++ render (override f N U) rest).
    destruct it as [c|m]; cbn [renderItem].
    + cbn [app]. rewrite Replace_cons, IH; [reflexivity | exact Hne |].
      apply gap_no_match; [exact Hit|]. intro Hc.
      now apply look_tick with (c := c).
    + assert (HR : afterTokOk (render f rest))
        by now apply look_tok with (m0 := m).
      destruct (Hf m (or_introl eq_refl)) as [[Hfm Hlen]|[Hmn Ha]].
      * rewrite Hfm. unfold override at 1. destruct (streq m N) eqn:E.
        -- apply streq_eq in E. subst m. rewrite Replace_match by exact Hne.
           now rewrite IH.
        -- rewrite Hfm, Replace_skip_prefix, IH; [reflexivity | exact Hne |].
           apply token_no_match; try assumption.
           intros ->. rewrite streq_refl in E. discriminate.
      * unfold override at 1. destruct (streq m N) eqn:E;
          [apply streq_eq in E; contradiction|].
        rewrite Replace_skip_prefix, IH; [reflexivity | exact Hne |].
        now apply alias_no_match.
Qed.

End Phase1.

Section Phase2.

Variable g : gostring -> gostring.
Variables N U T : gostring.
Hypothesis HU : aliasShape U.

Lemma alias_not_at (c : ascii) (r R : gostring) :
  beq c sigil = false -> hasPrefix U ((c :: r) ++ R) = false.
Proof.
  intro Hc. destruct HU as (X & -> & _). cbn [app hasPrefix].
  now rewrite beq_sym, Hc.
Qed.

Lemma alias_vs_alias (a R : gostring) :
  aliasShape a -> a <> U ->
  forall x b, a = x ++ b -> b <> [] -> hasPrefix U (b ++ R) = false.
Proof.
  intros Ha Hne x b E Hb.
  destruct (@alias_suffixes a x b Ha E Hb) as [->|(c & r & -> & H1 & _)].
  - destruct (hasPrefix U (a ++ R)) eqn:E'; [|reflexivity]. exfalso.
    apply hasPrefix_iff in E' as (r & E').
    assert (Hlen : length a = length U).
    { destruct Ha as (X & -> & _ & Hl). destruct HU as (X' & -> & _ & Hl').
      simpl. now rewrite Hl, Hl'. }
    apply app_eq_cases in E' as (l & [[E1 _]|[E1 _]]);
      rewrite E1, length_app in Hlen;
      (destruct l; [rewrite List.app_nil_r in E1; congruence | simpl in Hlen; lia]).
  - now apply alias_not_at.
Qed.

Lemma alias_vs_name (t R : gostring) :
  nameShape t = true -> bare t = false ->
  forall x b, t = x ++ b -> b <> [] -> hasPrefix U (b ++ R) = false.
Proof.
  intros Ht Hb x b E Hne.
  assert (Htilde : forall i, isIdent i = true -> beq tilde i = false).
  { intros i Hi. destruct (beq tilde i) eqn:E'; [|reflexivity].
    apply beq_eq in E'. subst i. discriminate Hi. }
  assert (Hids : forall ids x' b', forallb isIdent ids = true -> ids = x' ++ b' ->
                   b' <> [] -> hasPrefix U (b' ++ R) = false).
  { intros ids x' b' Hid E' Hb'.
    destruct (@suffix_ident ids x' b' Hid E' Hb') as (i & r & -> & Hi).
    apply alias_not_at. now apply ident_not_start. }
  assert (Hsig : forall i ids, isIdent i = true ->
                   hasPrefix U ((sigil :: i :: ids) ++ R) = false).
  { intros i ids Hi. destruct HU as (X & -> & _). cbn [app hasPrefix].
    rewrite beq_refl, (Htilde i Hi). reflexivity. }
  destruct (@nonbare_cases t Ht Hb) as [(i & ids & -> & Hi)|(i & ids & -> & Hi)].
  - assert (Hid : forallb isIdent (i :: ids) = true).
    { destruct (nameShape_cases _ Ht) as [(ids' & E' & H)|(ids' & E' & _)];
        [injection E' as <-; exact H | discriminate E']. }
    destruct x as [|x0 x].
    + cbn [app] in E. subst b. now apply Hsig.
    + injection E as _ E. eapply Hids; eassumption.
  - assert (Hid : forallb isIdent (i :: ids) = true).
    { destruct (nameShape_cases _ Ht) as [(ids' & E' & _)|(ids' & E' & H)];
        [discriminate E' | injection E' as <-; exact H]. }
    destruct x as [|x0 x].
    + cbn [app] in E. subst b. now apply alias_not_at.
    + injection E as _ E. destruct x as [|x1 x].
      * cbn [app] in E. subst b. now apply Hsig.
      * injection E as _ E. eapply Hids; eassumption.
Qed.

Lemma phase2_step (items : list item) :
  WF items -> (forall m, In m (tokensOf items) -> tokOk2 g N U m) ->
  Replace (render g items) U T = render (override g N T) items.
Proof.
  assert (Hne : U <> []) by (destruct HU as (X & -> & _); discriminate).
  induction items as [|it rest IH]; intros Hwf Hg.
  - now apply Replace_nil.
  - destruct Hwf as (Hit & _ & Hwf).
    assert (Hg' : forall m, In m (tokensOf rest) -> tokOk2 g N U m).
    { intros m Hm. apply Hg. destruct it; [exact Hm | now right]. }
    specialize (IH Hwf Hg').
    change (render g (it :: rest)) with (renderItem g it ++ render g rest).
    change (render (override g N T) (it :: rest))
      with (renderItem (override g N T) it ++ render (override g N T) rest).
    destruct it as [c|m]; cbn [renderItem].
    + cbn [app]. rewrite Replace_cons, IH; [reflexivity | exact Hne |].
      apply (@alias_not_at c [] (render g rest)). exact Hit.
    + unfold override at 1.
      destruct (Hg m (or_introl eq_refl))
        as [[-> Hgm]|[(Hmn & Ha & HaU)|(Hmn & Hs & Hb)]].
      * rewrite streq_refl, Hgm, Replace_match by exact Hne. now rewrite IH.
      * destruct (streq m N) eqn:E; [apply streq_eq in E; contradiction|].
        rewrite Replace_skip_prefix, IH; [reflexivity | exact Hne |].
        now apply alias_vs_alias.
      * destruct (streq m N) eqn:E; [apply streq_eq in E; contradiction|].
        rewrite Replace_skip_prefix, IH; [reflexivity | exact Hne |].
        now apply alias_vs_name.
Qed.

End Phase2.

(** ** The two passes on a token list *)

Lemma render_ext (f f' : gostring -> gostring) (items : list item) :
  (forall m, In m (tokensOf items) -> f m = f' m) ->
  render f items = render f' items.
Proof.
  induction items as [|it rest IH]; intro H; [reflexivity|].
  change (render f (it :: rest)) with (renderItem f it ++ render f rest).
  change (render f' (it :: rest)) with (renderItem f' it ++ render f' rest).
  destruct it as [c|m]; cbn [renderItem].
  - f_equal. apply IH. exact H.
  - rewrite (H m (or_introl eq_refl)). f_equal. apply IH.
    intros m' Hm'. apply H. now right.
Qed.

Lemma lookup_app (a b : PSVariables) (m : gostring) :
  lookup (a ++ b) m = match lookup a m with
                      | Some v => Some v
                      | None => lookup b m
                      end.
Proof.
  unfold lookup. induction a as [|v a IH]; [reflexivity|].
  simpl. destruct (streq m (OriginalName v)); [reflexivity | exact IH].
Qed.

Lemma lookup_none (p : PSVariables) (m : gostring) :
  ~ In m (map OriginalName p) -> lookup p m = None.
Proof.
  unfold lookup. induction p as [|v p IH]; intro H; [reflexivity|].
  simpl. destruct (streq m (OriginalName v)) eqn:E.
  - apply streq_eq in E. exfalso. apply H. left. now rewrite E.
  - apply IH. intro Hin. apply H. now right.
Qed.

Lemma lookup_some (p : PSVariables) (v : PSVariable) :
  NoDup (map OriginalName p) -> In v p -> lookup p (OriginalName v) = Some v.
Proof.
  unfold lookup. induction p as [|u p IH]; intros Hnd Hin; [destruct Hin|].
  inversion Hnd as [|? ? Hnot Hnd']; subst. simpl.
  destruct Hin as [->|Hin].
  - now rewrite streq_refl.
  - destruct (streq (OriginalName v) (OriginalName u)) eqn:E.
    + apply streq_eq in E. exfalso. apply Hnot. rewrite <- E. now apply in_map.
    + now apply IH.
Qed.

Lemma lookup_found (p : PSVariables) (m : gostring) (v : PSVariable) :
  lookup p m = Some v -> In v p /\ OriginalName v = m.
Proof.
  unfold lookup. intro H. apply find_some in H as [H1 H2].
  apply streq_eq in H2. auto.
Qed.

Section TwoPasses.

Variable items : list item.
Hypothesis items_WF : WF items.

Lemma first_pass (todo : PSVariables) :
  forall done,
    NoDup (map OriginalName (done ++ todo)) ->
    sortedDesc (fun v => length (OriginalName v)) todo ->
    Forall (fun v => nameOk (OriginalName v)) todo ->
    Forall (fun v => aliasShape (UniqueName v)) (done ++ todo) ->
    (forall m, In m (tokensOf items) -> In m (map OriginalName (done ++ todo))) ->
    fold_left step1 todo (render (aliasMap done) items)
    = render (aliasMap (done ++ todo)) items.
Proof.
  induction todo as [|v rest IH]; intros done Hnd Hsort Hname Halias Htok.
  - now rewrite List.app_nil_r.
  - cbn [fold_left]. unfold step1 at 2.
    inversion Hsort as [|? ? Hsort' Hle]; subst.
    inversion Hname as [|? ? [Hv Hvb] Hname']; subst.
    assert (Hnd1 : NoDup (map OriginalName done)).
    { rewrite map_app in Hnd. now apply NoDup_app_remove_r in Hnd. }
    assert (Hnew : ~ In (OriginalName v) (map OriginalName done)).
    { intro Hin. rewrite map_app in Hnd. apply NoDup_remove_2 in Hnd.
      apply Hnd. apply in_or_app. now left. }
    rewrite phase1_step; try assumption.
    + assert (Eapp : done ++ v :: rest = (done ++ [v]) ++ rest)
        by now rewrite <- app_assoc.
      rewrite Eapp in *. rewrite <- (IH (done ++ [v])); try assumption.
      f_equal. apply render_ext. intros m _.
      unfold override, aliasMap. rewrite lookup_app.
      destruct (lookup done m) as [u|] eqn:E.
      * destruct (streq m (OriginalName v)) eqn:E'; [|reflexivity].
        exfalso. apply streq_eq in E'. apply lookup_found in E as [Hu Eu].
        apply Hnew. rewrite <- E', <- Eu. now apply in_map.
      * unfold lookup. cbn [find]. now destruct (streq m (OriginalName v)).
    + intros m Hm. unfold tokOk1, aliasMap.
      destruct (lookup done m) as [u|] eqn:E.
      * right. apply lookup_found in E as [Hu Eu]. split.
        -- intros ->. apply Hnew. rewrite <- Eu. now apply in_map.
        -- rewrite Forall_forall in Halias. apply Halias.
           apply in_or_app. now left.
      * left. split; [reflexivity|].
        specialize (Htok m Hm). rewrite map_app in Htok.
        apply in_app_or in Htok as [Hin|[<-|Hin]].
        -- exfalso. apply in_map_iff in Hin as (u & <- & Hu).
           now rewrite lookup_some in E.
        -- lia.
        -- apply in_map_iff in Hin as (u & <- & Hu).
           rewrite Forall_forall in Hle. now apply Hle.
Qed.

Lemma second_pass (p : PSVariables) (todo : PSVariables) :
  forall done,
    p = done ++ todo ->
    NoDup (map OriginalName p) ->
    NoDup (map UniqueName p) ->
    Forall (fun v => aliasShape (UniqueName v)) p ->
    Forall (fun v => nameOk (ShortName v)) p ->
    (forall m, In m (tokensOf items) -> In m (map OriginalName p)) ->
    fold_left step2 todo (render (shortMap p done) items)
    = render (shortMap p (done ++ todo)) items.
Proof.
  induction todo as [|v rest IH]; intros done Ep Hnd Hnu Halias Hshort Htok.
  - now rewrite List.app_nil_r.
  - cbn [fold_left]. unfold step2 at 2.
    assert (Hv : In v p) by (rewrite Ep; apply in_or_app; right; now left).
    assert (Hnew : ~ In (OriginalName v) (map OriginalName done)).
    { intro Hin. rewrite Ep, map_app in Hnd. apply NoDup_remove_2 in Hnd.
      apply Hnd. apply in_or_app. now left. }
    assert (Hnd1 : NoDup (map OriginalName done)).
    { rewrite Ep, map_app in Hnd. now apply NoDup_app_remove_r in Hnd. }
    rewrite Forall_forall in Halias, Hshort.
    rewrite (@phase2_step (shortMap p done) (OriginalName v));
      [|now apply Halias | exact items_WF |].
    + assert (Eapp : done ++ v :: rest = (done ++ [v]) ++ rest)
        by now rewrite <- app_assoc.
      rewrite Eapp in *.
      rewrite <- (IH (done ++ [v])); try assumption;
        try (apply Forall_forall; assumption).
      f_equal. apply render_ext. intros m _.
      unfold override, shortMap. rewrite lookup_app.
      destruct (lookup done m) as [u|] eqn:E.
      * destruct (streq m (OriginalName v)) eqn:E'; [|reflexivity].
        exfalso. apply streq_eq in E'. apply lookup_found in E as [Hu Eu].
        apply Hnew. rewrite <- E', <- Eu. now apply in_map.
      * unfold lookup at 1. cbn [find].
        now destruct (streq m (OriginalName v)).
    + intros m Hm. unfold tokOk2, shortMap, aliasMap.
      specialize (Htok m Hm). apply in_map_iff in Htok as (u & <- & Hu).
      rewrite (@lookup_some p u Hnd Hu).
      destruct (lookup done (OriginalName u)) as [w|] eqn:E.
      * right. right. apply lookup_found in E as [Hw Ew]. split; [|split].
        -- intro E'. apply Hnew. rewrite <- E', <- Ew. now apply in_map.
        -- apply Hshort. rewrite Ep. apply in_or_app. now left.
        -- apply Hshort. rewrite Ep. apply in_or_app. now left.
      * destruct (streq (OriginalName u) (OriginalName v)) eqn:E'.
        -- left. apply streq_eq in E'. split; [exact E'|].
           assert (Some u = Some v) as [= ->]; [|reflexivity].
           rewrite <- (@lookup_some p u Hnd Hu), E'. now apply lookup_some.
        -- right. left. split; [|split].
           ++ intro E''. rewrite E'', streq_refl in E'. discriminate.
           ++ now apply Halias.
           ++ intro E''.
              assert (u = v) as ->; [|rewrite streq_refl in E'; discriminate].
              clear -E'' Hnu Hu Hv. induction p as [|x p' IHp]; [destruct Hu|].
              inversion Hnu as [|? ? Hnot Hnu']; subst.
              destruct Hu as [->|Hu], Hv as [->|Hv]; auto.
              ** exfalso. apply Hnot. rewrite E''. now apply in_map.
              ** exfalso. apply Hnot. rewrite <- E''. now apply in_map.
Qed.

End TwoPasses.

Lemma two_passes (p : PSVariables) (line : gostring) :
  NoDup (map OriginalName p) ->
  sortedDesc (fun v => length (OriginalName v)) p ->
  Forall (fun v => nameOk (OriginalName v)) p ->
  Forall (fun v => aliasShape (UniqueName v)) p ->
  NoDup (map UniqueName p) ->
  Forall (fun v => nameOk (ShortName v)) p ->
  (forall m, In m (tokensOf (itemize (ToUpper line))) -> In m (map OriginalName p)) ->
  toShort p (toUnique p line) = render (shortOf p) (itemize (ToUpper line)).
Proof.
  intros Hnd Hsort Hname Halias Hnu Hshort Htok.
  set (items := itemize (ToUpper line)) in *.
  assert (Hwf : WF items) by apply itemize_WF.
  assert (E1 : toUnique p line = render (aliasMap p) items).
  { unfold toUnique. rewrite <- (render_itemize (ToUpper line)). fold items.
    change (fun l v => Replace l (OriginalName v) (UniqueName v)) with step1.
    rewrite (@render_ext (fun m => m) (aliasMap []) items) by reflexivity.
    now apply (@first_pass items Hwf p []). }
  rewrite E1. unfold toShort.
  change (fun l v => Replace l (UniqueName v) (ShortName v)) with step2.
  rewrite (@render_ext (aliasMap p) (shortMap p []) items) by reflexivity.
  rewrite (@second_pass items Hwf p p [] eq_refl); try assumption.
  apply render_ext. intros m Hm. unfold shortMap, shortOf. cbn [app].
  destruct (lookup p m) eqn:E; [reflexivity|].
  unfold aliasMap. now rewrite E.
Qed.

(** ** The shapes in a run *)

Lemma nameShape_upper (m : gostring) :
  nameShape m = true -> nameShape (ToUpper m) = true.
Proof.
  assert (Hids : forall ids, forallb isIdent ids = true ->
                             forallb isIdent (ToUpper ids) = true).
  { induction ids as [|i ids IH]; [reflexivity|]. simpl. intro H.
    apply andb_true_iff in H as [H1 H2].
    destruct (upperChar_class i) as (-> & _ & _). now rewrite H1, IH. }
  intro H.
  destruct (nameShape_cases _ H) as [(ids & -> & Hid)|(ids & -> & Hid)];
    cbn [ToUpper map]; fold (ToUpper ids);
    [apply nameShape_sigil|]; now apply Hids.
Qed.

Lemma keys_nameShape (lines : list gostring) (k : gostring) :
  In k (map fst (countVars lines)) -> nameShape k = true.
Proof.
  rewrite countVars_keys. intros (line & r & _ & Hr & ->).
  apply findAllFrom_matches in Hr as (s' & Hm).
  apply nameShape_upper. now destruct (matchAt_spec _ Hm) as (? & _ & ? & _).
Qed.

Lemma uuid_upper_plain (c : ascii) :
  isUUIDChar c = true -> plainChar (upperChar c) = true.
Proof.
  destruct c as [[] [] [] [] [] [] [] []]; intro H; try discriminate H;
    reflexivity.
Qed.

Lemma aliasOk_shape (v : PSVariable) : aliasOk v -> aliasShape (UniqueName v).
Proof.
  intros (id & Hid & ->). unfold isUUIDText in Hid.
  apply andb_true_iff in Hid as [Hl Hc]. apply Nat.eqb_eq in Hl.
  exists (ToUpper id). split; [reflexivity|]. split.
  - unfold ToUpper. rewrite forallb_forall in *. intros c Hin.
    apply in_map_iff in Hin as (c' & <- & Hin'). apply uuid_upper_plain.
    now apply Hc.
  - unfold ToUpper. now rewrite length_map.
Qed.

Lemma digit_ident (c : ascii) : isDigit c = true -> isIdent c = true.
Proof.
  destruct c as [[] [] [] [] [] [] [] []]; intro H; try discriminate H;
    reflexivity.
Qed.

Lemma Itoa_ident (n : nat) : forallb isIdent (Itoa n) = true.
Proof.
  unfold Itoa. induction (Nat.to_uint n) as [|d IH|d IH|d IH|d IH|d IH|d IH|d IH|d IH|d IH|d IH];
    simpl; try reflexivity; exact IH.
Qed.

Lemma shortNameAt_nameOk (k : nat) : nameOk (shortNameAt k).
Proof.
  unfold shortNameAt.
  assert (Hin : In (nth (k mod 51) varShortNames "A"%char) varShortNames).
  { apply nth_In. rewrite varShortNames_length. apply Nat.mod_upper_bound. lia. }
  set (c := nth (k mod 51) varShortNames "A"%char) in *.
  assert (Hc : isIdent c = true).
  { assert (H : forallb isIdent varShortNames = true) by reflexivity.
    rewrite forallb_forall in H. now apply H. }
  split.
  - apply nameShape_sigil. cbn [app forallb]. rewrite Hc.
    destruct (0 <? k / 51); [apply Itoa_ident | reflexivity].
  - reflexivity.
Qed.

Section RunShapes.

Variable reserved : list gostring.
Variable rt : runtime.
Hypothesis Hrt : goodRuntime rt.
Variable lines : list gostring.
Hypothesis Hdraws : drawsDistinct rt (length (countVars lines)).
Hypothesis Hbare : forall k, In k (map fst (countVars lines)) -> bare k = false.

Lemma key_nameOk (k : gostring) :
  In k (map fst (countVars lines)) -> nameOk k.
Proof. intro H. split; [eapply keys_nameShape, H | now apply Hbare]. Qed.

Lemma finalVars_nameOk :
  Forall (fun v => nameOk (OriginalName v)) (finalVars reserved rt lines).
Proof.
  apply Forall_forall. intros v Hv. apply key_nameOk.
  apply (Permutation_in _ (finalVars_names reserved Hrt lines)).
  now apply in_map.
Qed.

Lemma finalVars_sorted :
  sortedDesc (fun v => length (OriginalName v)) (finalVars reserved rt lines).
Proof.
  unfold finalVars.
  exact (sort_sorted Hrt (fun v => length (OriginalName v)) _).
Qed.

Lemma finalVars_shortOk :
  Forall (fun v => nameOk (ShortName v)) (finalVars reserved rt lines).
Proof.
  unfold finalVars.
  set (q := sortBy rt lessNameMod
              (withAliases rt 0 (sortBy rt lessCount (getVariables reserved rt lines)))).
  assert (Hq : Forall (varOk reserved) q).
  { eapply Permutation_Forall; [symmetry; apply (sort_perm Hrt)|].
    apply withAliases_varOk.
    eapply Permutation_Forall; [symmetry; apply (sort_perm Hrt)|].
    now apply getVariables_varOk. }
  assert (Hn : forall v, In v q -> nameOk (OriginalName v)).
  { intros v Hv. apply key_nameOk.
    apply (in_map OriginalName) in Hv.
    apply (Permutation_in _ (Permutation_map OriginalName (sort_perm Hrt _ _))) in Hv.
    rewrite map_withAliases in Hv by reflexivity.
    apply (Permutation_in _ (Permutation_map OriginalName (sort_perm Hrt _ _))) in Hv.
    now apply (Permutation_in _ (getVariables_names reserved Hrt lines)). }
  eapply Permutation_Forall; [symmetry; apply (sort_perm Hrt)|].
  apply Forall_forall. intros v Hv.
  apply assignShort_In in Hv as [[Hin Hr]|(u & j & _ & _ & _ & ->)].
  - rewrite Forall_forall in Hq. destruct (Hq v Hin) as (_ & Hs & _).
    rewrite (Hs Hr). now apply Hn.
  - apply shortNameAt_nameOk.
Qed.

Lemma line_tokens_known (line : gostring) :
  In line lines ->
  forall m, In m (tokensOf (itemize (ToUpper line))) ->
            In m (map OriginalName (finalVars reserved rt lines)).
Proof.
  intros Hline m Hm. rewrite tokensOf_itemize, findAll_upper in Hm.
  apply in_map_iff in Hm as (r & <- & Hr).
  apply (Permutation_in _ (Permutation_sym (finalVars_names reserved Hrt lines))).
  apply countVars_keys. eauto.
Qed.

(** With no bare match among the variables, the two passes replace every
    match of a line by the short name of its variable and nothing else. *)
Lemma renamed_line (line : gostring) :
  In line lines ->
  toShort (finalVars reserved rt lines) (toUnique (finalVars reserved rt lines) line)
  = render (shortOf (finalVars reserved rt lines)) (itemize (ToUpper line)).
Proof.
  intro Hline. apply two_passes.
  - now apply finalVars_names_NoDup.
  - apply finalVars_sorted.
  - apply finalVars_nameOk.
  - eapply Forall_impl; [|now apply finalVars_aliasOk]. apply aliasOk_shape.
  - now apply finalVars_aliases_NoDup.
  - apply finalVars_shortOk.
  - now apply line_tokens_known.
Qed.

End RunShapes.

(** C6, amended. Every discovered identifier that is in the reserved table
    or starts with the escape marker is flagged reserved, is in upper case, and
    has its own name as short name.  When no bare match (the sigil alone, with
    or without the escape marker) is among the discovered variables, every
    renamed line is the upper-case image of the input line in which each match
    is replaced by the short name of its variable and nothing else is touched:
    a reserved identifier stands in the output as the upper-case image of its
    text in the input, and a line whose matches are all reserved is its
    upper-case image. *)
Theorem reserved_pass_upper (reserved : list gostring) (rt : runtime)
    (lines : list gostring) :
  goodRuntime rt ->
  drawsDistinct rt (length (countVars lines)) ->
  (forall k, In k (map fst (countVars lines)) -> bare k = false) ->
  exists p out,
    renameRun reserved rt lines = Done (p, out) /\
    (forall v, In v p ->
       Reserved v = isReservedName reserved (OriginalName v) || escaped (OriginalName v)) /\
    (forall v, In v p -> noLower (OriginalName v) = true) /\
    (forall v, In v p -> Reserved v = true ->
       ShortName v = OriginalName v /\ shortOf p (OriginalName v) = OriginalName v) /\
    out = map (fun line => render (shortOf p) (itemize (ToUpper line))) lines /\
    (forall line,
       (forall m, In m (tokensOf (itemize (ToUpper line))) -> shortOf p m = m) ->
       render (shortOf p) (itemize (ToUpper line)) = ToUpper line).
Proof.
  intros Hrt Hd Hbare.
  exists (finalVars reserved rt lines). eexists. split.
  { apply renameRun_closed; [exact Hrt|].
    intros i Hi. destruct (proj1 Hd i Hi) as (u & -> & _). discriminate. }
  pose proof (@finalVars_varOk reserved rt Hrt lines) as Hv.
  rewrite Forall_forall in Hv.
  split; [|split; [|split; [|split]]].
  - intros v Hin. now destruct (Hv v Hin).
  - intros v Hin. apply (in_map OriginalName) in Hin.
    apply (Permutation_in _ (finalVars_names reserved Hrt lines)) in Hin.
    apply countVars_keys in Hin as (line & r & _ & _ & ->).
    apply ToUpper_noLower.
  - intros v Hin Hr. destruct (Hv v Hin) as (_ & Hs & _). split; [now apply Hs|].
    unfold shortOf.
    rewrite lookup_some; [now apply Hs | now apply finalVars_names_NoDup | exact Hin].
  - rewrite map_map. apply map_ext_in. intros line Hline.
    now apply renamed_line.
  - intros line Hid.
    rewrite <- (render_itemize (ToUpper line)) at 2.
    apply render_ext. exact Hid.
Qed.

Lemma reserved_pass_upper_witness :
  exists p out,
    renameRun sampleReserved (runWith 0)
      [str "if ($true) { $Args[0] }"; str "$x = `$y"] = Done (p, out) /\
    (forall v, In v p ->
       Reserved v = isReservedName sampleReserved (OriginalName v)
                    || escaped (OriginalName v)) /\
    (forall v, In v p -> noLower (OriginalName v) = true) /\
    (forall v, In v p -> Reserved v = true ->
       ShortName v = OriginalName v /\ shortOf p (OriginalName v) = OriginalName v) /\
    out = map (fun line => render (shortOf p) (itemize (ToUpper line)))
              [str "if ($true) { $Args[0] }"; str "$x = `$y"] /\
    (forall line,
       (forall m, In m (tokensOf (itemize (ToUpper line))) -> shortOf p m = m) ->
       render (shortOf p) (itemize (ToUpper line)) = ToUpper line).
Proof.
  apply reserved_pass_upper.
  - apply runWith_good.
  - apply runWith_draws. vm_compute. lia.
  - intros k Hk. vm_compute in Hk.
    repeat (destruct Hk as [<-|Hk]; [reflexivity|]). destruct Hk.
Defined.

Example reserved_upper_cased :
  shortenAllVariableNames sampleReserved (runWith 0)
    [str "if ($true) { $Args[0] }"; str "$x = `$y"]
  = Done [str "IF ($TRUE) { $ARGS[0] }"; str "$A = `$Y"].
Proof. vm_compute. reflexivity. Qed.

(** C6, as stated, fails: the line is upper-cased before the substitutions
    and the reserved name that is written back is the upper-case one, so a
    reserved identifier written in lower case does not come out as it went
    in. *)
Lemma reserved_case_counterexample :
  ~ (forall line,
        isReservedName sampleReserved (ToUpper line) = true ->
        shortenAllVariableNames sampleReserved (runWith 0) [line] = Done [line]).
Proof.
  intro H. specialize (H (str "$true") eq_refl).
  vm_compute in H. discriminate H.
Qed.

(** * Further properties of the code *)

(** ** The comment stripper, step by step *)

(** Fuel beyond what is left of the line changes nothing. *)
Lemma stripLoop_irrel (line : gostring) :
  forall f1 f2 i multi minLine,
    length line - i <= f1 -> length line - i <= f2 ->
    stripLoop f1 line i multi minLine = stripLoop f2 line i multi minLine.
Proof.
  induction f1 as [|f1 IH]; intros f2 i multi minLine H1 H2.
  - destruct f2; simpl; destruct (i <? length line) eqn:E; simpl; try reflexivity;
      apply Nat.ltb_lt in E; lia.
  - destruct f2 as [|f2]; simpl; destruct (i <? length line) eqn:E; simpl;
      try reflexivity; apply Nat.ltb_lt in E; [lia|].
    destruct (nth_error line i) as [c|]; [|reflexivity].
    destruct multi.
    + destruct (beq c CHARComment); [|apply IH; lia].
      destruct (i <=? length line); [|apply IH; lia].
      destruct (nth_error line (i + 1)) as [d|]; [|reflexivity].
      destruct (beq d GT); apply IH; lia.
    + destruct (beq c CHARComment); [|apply IH; lia].
      destruct i as [|j]; [reflexivity|].
      destruct (nth_error line j) as [p|]; [|reflexivity].
      destruct ((S j <=? length line) && (beq p ESCChar1 || beq p ESCChar2));
        [apply IH; lia|].
      destruct ((S j <=? length line) && beq p LT); [|reflexivity].
      destruct minLine; [reflexivity|apply IH; lia].
Qed.

(** The loop with the fuel [stripComments] gives it, one iteration at a
    time. *)
Lemma loop_end (line : gostring) (i : nat) (multi : bool) (minLine : gostring) :
  length line <= i ->
  stripLoop (length line) line i multi minLine = Done (minLine, multi).
Proof.
  intro H. destruct (length line) eqn:E; simpl; rewrite ?E;
    replace (i <? _) with false by (symmetry; apply Nat.ltb_ge; lia);
    reflexivity.
Qed.

Lemma loop_unfold (line : gostring) (i : nat) (multi : bool) (minLine : gostring) :
  i < length line ->
  stripLoop (length line) line i multi minLine
  = stripLoop (S (length line)) line i multi minLine.
Proof. intro H. apply stripLoop_irrel; lia. Qed.

Lemma loop_block_plain (line : gostring) (i : nat) (c : ascii) (minLine : gostring) :
  nth_error line i = Some c -> beq c CHARComment = false ->
  stripLoop (length line) line i true minLine
  = stripLoop (length line) line (i + 1) true minLine.
Proof.
  intros Hc Hb.
  assert (Hi : i < length line) by (apply nth_error_Some; congruence).
  rewrite loop_unfold by exact Hi. cbn [stripLoop].
  replace (i <? length line) with true by (symmetry; now apply Nat.ltb_lt).
  cbn [negb]. rewrite Hc, Hb. reflexivity.
Qed.

Lemma loop_block_marker (line : gostring) (i : nat) (d : ascii) (minLine : gostring) :
  nth_error line i = Some CHARComment -> nth_error line (i + 1) = Some d ->
  stripLoop (length line) line i true minLine
  = if beq d GT then stripLoop (length line) line (i + 2) false minLine
    else stripLoop (length line) line (i + 1) true minLine.
Proof.
  intros Hc Hd.
  assert (Hi : i < length line) by (apply nth_error_Some; congruence).
  rewrite loop_unfold by exact Hi. cbn [stripLoop].
  replace (i <? length line) with true by (symmetry; now apply Nat.ltb_lt).
  cbn [negb]. rewrite Hc, beq_refl.
  replace (i <=? length line) with true by (symmetry; apply Nat.leb_le; lia).
  rewrite Hd. reflexivity.
Qed.

Lemma loop_block_panic (line : gostring) (i : nat) (minLine : gostring) :
  nth_error line i = Some CHARComment -> nth_error line (i + 1) = None ->
  stripLoop (length line) line i true minLine = Panic.
Proof.
  intros Hc Hd.
  assert (Hi : i < length line) by (apply nth_error_Some; congruence).
  rewrite loop_unfold by exact Hi. cbn [stripLoop].
  replace (i <? length line) with true by (symmetry; now apply Nat.ltb_lt).
  cbn [negb]. rewrite Hc, beq_refl.
  replace (i <=? length line) with true by (symmetry; apply Nat.leb_le; lia).
  rewrite Hd. reflexivity.
Qed.

Lemma loop_plain (line : gostring) (i : nat) (c : ascii) (minLine : gostring) :
  nth_error line i = Some c -> beq c CHARComment = false ->
  stripLoop (length line) line i false minLine
  = stripLoop (length line) line (i + 1) false (minLine ++ [c]).
Proof.
  intros Hc Hb.
  assert (Hi : i < length line) by (apply nth_error_Some; congruence).
  rewrite loop_unfold by exact Hi. cbn [stripLoop].
  replace (i <? length line) with true by (symmetry; now apply Nat.ltb_lt).
  cbn [negb]. rewrite Hc, Hb. reflexivity.
Qed.

Lemma loop_marker (line : gostring) (j : nat) (p : ascii) (minLine : gostring) :
  nth_error line (S j) = Some CHARComment -> nth_error line j = Some p ->
  stripLoop (length line) line (S j) false minLine
  = if beq p ESCChar1 || beq p ESCChar2
    then stripLoop (length line) line (S j + 1) false (minLine ++ [CHARComment])
    else if beq p LT
    then match minLine with
         | [] => Panic
         | _ :: _ => stripLoop (length line) line (S j + 1) true (removelast minLine)
         end
    else Done (minLine, false).
Proof.
  intros Hc Hp.
  assert (Hi : S j < length line) by (apply nth_error_Some; congruence).
  rewrite loop_unfold by exact Hi. cbn [stripLoop].
  replace (S j <? length line) with true by (symmetry; now apply Nat.ltb_lt).
  cbn [negb]. rewrite Hc, beq_refl, Hp.
  replace (S j <=? length line) with true by (symmetry; apply Nat.leb_le; lia).
  cbn [andb]. reflexivity.
Qed.

(** Runs of characters other than the marker. *)
Lemma nth_error_mid (A : Type) (pre : list A) (c : A) (rest : list A) :
  nth_error (pre ++ c :: rest) (length pre) = Some c.
Proof. rewrite nth_error_app2 by lia. now rewrite Nat.sub_diag. Qed.

Lemma not_marker (c : ascii) (s : gostring) :
  ~ In CHARComment (c :: s) -> beq c CHARComment = false /\ ~ In CHARComment s.
Proof.
  intro H. split.
  - apply beq_neq. intros ->. apply H. now left.
  - intro H'. apply H. now right.
Qed.

Lemma nth_error_seg (A : Type) (pre seg rest : list A) (k : nat) :
  k < length seg ->
  nth_error (pre ++ seg ++ rest) (length pre + k) = nth_error seg k.
Proof.
  intro H. rewrite nth_error_app2 by lia.
  replace (length pre + k - length pre) with k by lia.
  now apply nth_error_app1.
Qed.

Lemma loop_plain_run (line seg : gostring) :
  forall i minLine,
    (forall k, k < length seg -> nth_error line (i + k) = nth_error seg k) ->
    ~ In CHARComment seg ->
    stripLoop (length line) line i false minLine
    = stripLoop (length line) line (i + length seg) false (minLine ++ seg).
Proof.
  induction seg as [|c seg IH]; intros i minLine Hseg H.
  - cbn [length]. now rewrite Nat.add_0_r, List.app_nil_r.
  - apply not_marker in H as (Hc & Hs).
    assert (H0 : nth_error line i = Some c).
    { specialize (Hseg 0). rewrite Nat.add_0_r in Hseg. apply Hseg. simpl. lia. }
    rewrite (@loop_plain line i c minLine H0 Hc).
    rewrite IH; [|intros k Hk|exact Hs].
    + f_equal; [cbn [length]; lia | now rewrite <- app_assoc].
    + replace (i + 1 + k) with (i + S k) by lia. apply Hseg. simpl. lia.
Qed.

Lemma loop_block_run (line seg : gostring) :
  forall i minLine,
    (forall k, k < length seg -> nth_error line (i + k) = nth_error seg k) ->
    ~ In CHARComment seg ->
    stripLoop (length line) line i true minLine
    = stripLoop (length line) line (i + length seg) true minLine.
Proof.
  induction seg as [|c seg IH]; intros i minLine Hseg H.
  - cbn [length]. now rewrite Nat.add_0_r.
  - apply not_marker in H as (Hc & Hs).
    assert (H0 : nth_error line i = Some c).
    { specialize (Hseg 0). rewrite Nat.add_0_r in Hseg. apply Hseg. simpl. lia. }
    rewrite (@loop_block_plain line i c minLine H0 Hc).
    rewrite IH; [|intros k Hk|exact Hs].
    + f_equal. cbn [length]. lia.
    + replace (i + 1 + k) with (i + S k) by lia. apply Hseg. simpl. lia.
Qed.

Lemma stripComments_loop (c : ascii) (l : gostring) (multi : bool) :
  beq c CHARComment = false ->
  stripComments (c :: l) multi = stripLoop (length (c :: l)) (c :: l) 0 multi [].
Proof. intro H. unfold stripComments. now rewrite H. Qed.

Lemma nth_error_from (A : Type) (pre rest : list A) (k : nat) :
  nth_error (pre ++ rest) (length pre + k) = nth_error rest k.
Proof.
  rewrite nth_error_app2 by lia. f_equal. lia.
Qed.

Lemma head_not_marker (pre : gostring) (p : ascii) (rest : gostring) :
  ~ In CHARComment pre -> beq p CHARComment = false ->
  exists c l, pre ++ p :: rest = c :: l /\ beq c CHARComment = false.
Proof.
  intros Hpre Hp. destruct pre as [|c pre].
  - exists p, rest. now split.
  - exists c, (pre ++ p :: rest). split; [reflexivity|].
    now apply not_marker in Hpre as (Hc & _).
Qed.

(** The loop over a prefix without marker, in the normal state. *)
Lemma loop_prefix (pre rest : gostring) :
  ~ In CHARComment pre ->
  stripLoop (length (pre ++ rest)) (pre ++ rest) 0 false []
  = stripLoop (length (pre ++ rest)) (pre ++ rest) (length pre) false pre.
Proof.
  intro H.
  rewrite (@loop_plain_run (pre ++ rest) pre 0 []); [reflexivity| |exact H].
  intros k Hk. cbn [Nat.add]. now apply nth_error_app1.
Qed.

Lemma loop_prefix_block (pre rest : gostring) :
  ~ In CHARComment pre ->
  stripLoop (length (pre ++ rest)) (pre ++ rest) 0 true []
  = stripLoop (length (pre ++ rest)) (pre ++ rest) (length pre) true [].
Proof.
  intro H.
  rewrite (@loop_block_run (pre ++ rest) pre 0 []); [reflexivity| |exact H].
  intros k Hk. cbn [Nat.add]. now apply nth_error_app1.
Qed.

(** The loop over the rest of the line, when it holds no marker. *)
Lemma loop_suffix (pre rest : gostring) (minLine : gostring) :
  ~ In CHARComment rest ->
  stripLoop (length (pre ++ rest)) (pre ++ rest) (length pre) false minLine
  = Done (minLine ++ rest, false).
Proof.
  intro H.
  rewrite (@loop_plain_run (pre ++ rest) rest (length pre) minLine); [| |exact H].
  - apply loop_end. rewrite length_app. lia.
  - intros k _. apply nth_error_from.
Qed.

Lemma loop_suffix_block (pre rest : gostring) (minLine : gostring) :
  ~ In CHARComment rest ->
  stripLoop (length (pre ++ rest)) (pre ++ rest) (length pre) true minLine
  = Done (minLine, true).
Proof.
  intro H.
  rewrite (@loop_block_run (pre ++ rest) rest (length pre) minLine); [| |exact H].
  - apply loop_end. rewrite length_app. lia.
  - intros k _. apply nth_error_from.
Qed.

Lemma absent_dec (x : ascii) (s : gostring) :
  existsb (beq x) s = false -> ~ In x s.
Proof.
  intros H Hin. assert (E : existsb (beq x) s = true).
  { apply existsb_exists. exists x. split; [exact Hin | apply beq_refl]. }
  congruence.
Qed.

Lemma plain_line_kept (line : gostring) :
  ~ In CHARComment line -> stripComments line false = Done (line, false).
Proof.
  intro H. destruct line as [|c l]; [reflexivity|].
  pose proof (not_marker H) as (Hc & _).
  rewrite stripComments_loop by exact Hc.
  change (c :: l) with ([] ++ c :: l).
  exact (@loop_suffix [] (c :: l) [] H).
Qed.

(** X1. A line without the comment marker: outside a block comment it is
    kept as it is, inside one it is dropped; the state stays as it was. *)
Theorem line_without_marker (line : gostring) :
  ~ In CHARComment line ->
  stripComments line false = Done (line, false) /\
  stripComments line true = Done ([], true).
Proof.
  intro H. split; [now apply plain_line_kept | now apply block_line_without_marker].
Qed.

Lemma line_without_marker_witness :
  stripComments (str "Get-Item x") false = Done (str "Get-Item x", false) /\
  stripComments (str "Get-Item x") true = Done ([], true).
Proof.
  apply line_without_marker.
  apply absent_dec. reflexivity.
Defined.

(** X2. Outside a block comment, a marker that follows a character other
    than the backslash, the backtick and the less-than sign starts a comment:
    the text in front of it is returned and the rest of the line is dropped. *)
Theorem inline_comment_removed (pre : gostring) (p : ascii) (rest : gostring) :
  ~ In CHARComment pre ->
  p <> CHARComment -> p <> ESCChar1 -> p <> ESCChar2 -> p <> LT ->
  stripComments (pre ++ p :: CHARComment :: rest) false = Done (pre ++ [p], false).
Proof.
  intros Hpre Hp H1 H2 H3.
  destruct (@head_not_marker pre p (CHARComment :: rest) Hpre (beq_neq Hp))
    as (c & l & E & Hc).
  rewrite E, stripComments_loop by exact Hc. rewrite <- E.
  assert (Hseg : ~ In CHARComment (pre ++ [p])).
  { intro Hin. apply in_app_or in Hin as [Hin|[Hin|[]]]; [now apply Hpre|].
    now apply Hp. }
  replace (pre ++ p :: CHARComment :: rest)
    with ((pre ++ [p]) ++ CHARComment :: rest) by now rewrite <- app_assoc.
  rewrite loop_prefix by exact Hseg.
  replace (length (pre ++ [p])) with (S (length pre))
    by (rewrite length_app; simpl; lia).
  rewrite (@loop_marker _ (length pre) p).
  - now rewrite (beq_neq H1), (beq_neq H2), (beq_neq H3).
  - replace (S (length pre)) with (length (pre ++ [p]))
      by (rewrite length_app; simpl; lia).
    apply nth_error_mid.
  - rewrite <- app_assoc. apply nth_error_mid.
Qed.

Lemma inline_comment_removed_witness :
  stripComments (str "$x = 1 # set x") false = Done (str "$x = 1 ", false).
Proof.
  apply (@inline_comment_removed (str "$x = 1") " "%char (str " set x"));
    try (intro E; discriminate E).
  apply absent_dec. reflexivity.
Defined.

(** X3. Outside a block comment, a marker right after a less-than sign
    opens a block comment: the less-than sign is taken back, and when no
    further marker follows the text in front of it is returned with the
    stripper left inside the comment. *)
Theorem block_comment_opened (pre rest : gostring) :
  ~ In CHARComment pre -> ~ In CHARComment rest ->
  stripComments (pre ++ LT :: CHARComment :: rest) false = Done (pre, true).
Proof.
  intros Hpre Hrest.
  assert (Hlt : beq LT CHARComment = false) by reflexivity.
  destruct (@head_not_marker pre LT (CHARComment :: rest) Hpre Hlt)
    as (c & l & E & Hc).
  rewrite E, stripComments_loop by exact Hc. rewrite <- E.
  assert (Hseg : ~ In CHARComment (pre ++ [LT])).
  { intro Hin. apply in_app_or in Hin as [Hin|[Hin|[]]]; [now apply Hpre|].
    discriminate Hin. }
  replace (pre ++ LT :: CHARComment :: rest)
    with ((pre ++ [LT]) ++ CHARComment :: rest) by now rewrite <- app_assoc.
  rewrite loop_prefix by exact Hseg.
  replace (length (pre ++ [LT])) with (S (length pre))
    by (rewrite length_app; simpl; lia).
  rewrite (@loop_marker _ (length pre) LT).
  - replace (beq LT ESCChar1 || beq LT ESCChar2) with false by reflexivity.
    rewrite beq_refl.
    destruct (pre ++ [LT]) eqn:Epre; [now destruct pre|]. rewrite <- Epre.
    rewrite removelast_last.
    replace ((pre ++ [LT]) ++ CHARComment :: rest)
      with ((pre ++ [LT; CHARComment]) ++ rest)
      by (rewrite <- !app_assoc; reflexivity).
    replace (S (length pre) + 1) with (length (pre ++ [LT; CHARComment]))
      by (rewrite length_app; simpl; lia).
    now apply loop_suffix_block.
  - replace (S (length pre)) with (length (pre ++ [LT]))
      by (rewrite length_app; simpl; lia).
    apply nth_error_mid.
  - rewrite <- app_assoc. apply nth_error_mid.
Qed.

Lemma block_comment_opened_witness :
  stripComments (str "$x = 1 <# begin") false = Done (str "$x = 1 ", true).
Proof.
  apply (@block_comment_opened (str "$x = 1 ") (str " begin"));
    apply absent_dec; reflexivity.
Defined.

(** X4. Inside a block comment, on a line that does not start with the
    marker, the first marker followed by a greater-than sign closes the
    comment: what stands behind the pair is returned when it holds no further
    marker, and the stripper is outside the comment again. *)
Theorem block_comment_closed (c : ascii) (pre rest : gostring) :
  ~ In CHARComment (c :: pre) -> ~ In CHARComment rest ->
  stripComments (c :: pre ++ CHARComment :: GT :: rest) true = Done (rest, false).
Proof.
  intros Hpre Hrest.
  pose proof (not_marker Hpre) as (Hc & _).
  rewrite stripComments_loop by exact Hc.
  change (c :: pre ++ CHARComment :: GT :: rest)
    with ((c :: pre) ++ CHARComment :: GT :: rest).
  rewrite loop_prefix_block by exact Hpre.
  rewrite (@loop_block_marker _ (length (c :: pre)) GT).
  - rewrite beq_refl.
    replace ((c :: pre) ++ CHARComment :: GT :: rest)
      with (((c :: pre) ++ [CHARComment; GT]) ++ rest)
      by (rewrite <- !app_assoc; reflexivity).
    replace (length (c :: pre) + 2) with (length ((c :: pre) ++ [CHARComment; GT]))
      by (rewrite length_app; simpl; lia).
    now apply loop_suffix.
  - apply nth_error_mid.
  - replace (length (c :: pre) + 1) with (length ((c :: pre) ++ [CHARComment]))
      by (rewrite length_app; simpl; lia).
    replace ((c :: pre) ++ CHARComment :: GT :: rest)
      with (((c :: pre) ++ [CHARComment]) ++ GT :: rest)
      by (rewrite <- !app_assoc; reflexivity).
    apply nth_error_mid.
Qed.

Lemma block_comment_closed_witness :
  stripComments (str "end of note #> $x = 1") true = Done (str " $x = 1", false).
Proof.
  apply (@block_comment_closed "e"%char (str "nd of note ") (str " $x = 1"));
    apply absent_dec; reflexivity.
Defined.

(** X5. Outside a block comment, a marker right after a backslash or a
    backtick is kept as a character of the line, and the text goes on. *)
Theorem escaped_marker_kept (pre : gostring) (e : ascii) (rest : gostring) :
  ~ In CHARComment pre -> ~ In CHARComment rest ->
  e = ESCChar1 \/ e = ESCChar2 ->
  stripComments (pre ++ e :: CHARComment :: rest) false
  = Done (pre ++ e :: CHARComment :: rest, false).
Proof.
  intros Hpre Hrest He.
  assert (Hne : beq e CHARComment = false) by (destruct He as [-> | ->]; reflexivity).
  destruct (@head_not_marker pre e (CHARComment :: rest) Hpre Hne)
    as (c & l & E & Hc).
  rewrite E, stripComments_loop by exact Hc. rewrite <- E.
  assert (Hseg : ~ In CHARComment (pre ++ [e])).
  { intro Hin. apply in_app_or in Hin as [Hin|[Hin|[]]]; [now apply Hpre|].
    subst e. destruct He as [He|He]; discriminate He. }
  replace (pre ++ e :: CHARComment :: rest)
    with ((pre ++ [e]) ++ CHARComment :: rest) at 1 2 by now rewrite <- app_assoc.
  rewrite loop_prefix by exact Hseg.
  replace (length (pre ++ [e])) with (S (length pre))
    by (rewrite length_app; simpl; lia).
  rewrite (@loop_marker _ (length pre) e).
  - replace (beq e ESCChar1 || beq e ESCChar2) with true
      by (destruct He as [-> | ->]; reflexivity).
    replace ((pre ++ [e]) ++ CHARComment :: rest)
      with ((pre ++ [e; CHARComment]) ++ rest)
      by (rewrite <- !app_assoc; reflexivity).
    replace (S (length pre) + 1) with (length (pre ++ [e; CHARComment]))
      by (rewrite length_app; simpl; lia).
    rewrite loop_suffix by exact Hrest.
    now rewrite <- !app_assoc.
  - replace (S (length pre)) with (length (pre ++ [e]))
      by (rewrite length_app; simpl; lia).
    apply nth_error_mid.
  - rewrite <- app_assoc. apply nth_error_mid.
Qed.

Lemma escaped_marker_kept_witness :
  stripComments (str "Write-Host `#1") false = Done (str "Write-Host `#1", false).
Proof.
  apply (@escaped_marker_kept (str "Write-Host ") "`"%char (str "1"));
    [apply absent_dec; reflexivity | apply absent_dec; reflexivity | now right].
Defined.

(** X6. A block comment opened and closed on one line, with no other marker
    on the line, is cut out: the text in front of it and the text behind it
    are returned, and the stripper is outside the comment. *)
Theorem block_comment_within_line (pre mid post : gostring) :
  ~ In CHARComment pre -> ~ In CHARComment mid -> ~ In CHARComment post ->
  stripComments (pre ++ LT :: CHARComment :: mid ++ CHARComment :: GT :: post) false
  = Done (pre ++ post, false).
Proof.
  intros Hpre Hmid Hpost.
  assert (Hlt : beq LT CHARComment = false) by reflexivity.
  destruct (@head_not_marker pre LT (CHARComment :: mid ++ CHARComment :: GT :: post)
              Hpre Hlt) as (c & l & E & Hc).
  rewrite E, stripComments_loop by exact Hc. rewrite <- E. clear c l E Hc.
  set (line := pre ++ LT :: CHARComment :: mid ++ CHARComment :: GT :: post).
  assert (Hat : forall k, nth_error line (length pre + k)
                          = nth_error (LT :: CHARComment :: mid ++ CHARComment :: GT :: post) k).
  { intro k. apply nth_error_from. }
  assert (Hat2 : forall k, nth_error line (length pre + 2 + length mid + k)
                           = nth_error (CHARComment :: GT :: post) k).
  { intro k. replace (length pre + 2 + length mid + k)
      with (length pre + (2 + (length mid + k))) by lia.
    rewrite Hat. cbn [Nat.add nth_error]. apply nth_error_from. }
  (* the text in front of the comment, and the less-than sign *)
  rewrite (@loop_plain_run line (pre ++ [LT]) 0 []).
  2:{ intros k Hk. cbn [Nat.add]. unfold line.
      replace (pre ++ LT :: CHARComment :: mid ++ CHARComment :: GT :: post)
        with ((pre ++ [LT]) ++ CHARComment :: mid ++ CHARComment :: GT :: post)
        by now rewrite <- app_assoc.
      now apply nth_error_app1. }
  2:{ intro Hin. apply in_app_or in Hin as [Hin|[Hin|[]]]; [now apply Hpre|].
      discriminate Hin. }
  cbn [Nat.add app].
  replace (length (pre ++ [LT])) with (S (length pre))
    by (rewrite length_app; simpl; lia).
  (* the marker that opens the comment *)
  rewrite (@loop_marker line (length pre) LT).
  2:{ replace (S (length pre)) with (length pre + 1) by lia. now rewrite Hat. }
  2:{ replace (length pre) with (length pre + 0) at 1 by lia. now rewrite Hat. }
  replace (beq LT ESCChar1 || beq LT ESCChar2) with false by reflexivity.
  rewrite beq_refl.
  destruct (pre ++ [LT]) eqn:Epre; [now destruct pre|]. rewrite <- Epre.
  rewrite removelast_last.
  (* the comment *)
  rewrite (@loop_block_run line mid (S (length pre) + 1) pre).
  2:{ intros k Hk. replace (S (length pre) + 1 + k) with (length pre + (2 + k)) by lia.
      rewrite Hat. cbn [Nat.add nth_error]. now apply nth_error_app1. }
  2:{ exact Hmid. }
  (* the pair that closes it *)
  rewrite (@loop_block_marker line (S (length pre) + 1 + length mid) GT).
  2:{ replace (S (length pre) + 1 + length mid) with (length pre + 2 + length mid + 0) by lia.
      now rewrite Hat2. }
  2:{ replace (S (length pre) + 1 + length mid + 1) with (length pre + 2 + length mid + 1) by lia.
      now rewrite Hat2. }
  rewrite beq_refl.
  (* the text behind the comment *)
  rewrite (@loop_plain_run line post (S (length pre) + 1 + length mid + 2) pre).
  2:{ intros k Hk.
      replace (S (length pre) + 1 + length mid + 2 + k)
        with (length pre + 2 + length mid + (2 + k)) by lia.
      now rewrite Hat2. }
  2:{ exact Hpost. }
  apply loop_end. unfold line. rewrite !length_app. simpl. rewrite !length_app. simpl. lia.
Qed.

Lemma block_comment_within_line_witness :
  stripComments (str "$x = <# old value #> 2") false = Done (str "$x =  2", false).
Proof.
  apply (@block_comment_within_line (str "$x = ") (str " old value ") (str " 2"));
    apply absent_dec; reflexivity.
Defined.

(** ** What the stripper never does *)

Lemma last_not_marker (line : gostring) :
  hasSuffix [CHARComment] line = false ->
  nth_error line (length line - 1) <> Some CHARComment.
Proof.
  intro H. destruct line as [|c0 l0]; [discriminate|].
  destruct (@exists_last _ (c0 :: l0)) as (pre & c & E); [discriminate|].
  rewrite E in *. clear E. unfold hasSuffix in H.
  change (length [CHARComment]) with 1 in H.
  rewrite skipn_last_one, streq_single in H.
  replace (1 <=? length (pre ++ [c])) with true in H
    by (symmetry; apply Nat.leb_le; rewrite length_app; simpl; lia).
  cbn [andb] in H.
  rewrite length_app. cbn [length].
  replace (length pre + 1 - 1) with (length pre) by lia.
  rewrite nth_error_mid. intros [= ->]. now rewrite beq_refl in H.
Qed.

(** The loop panics only in the look-ahead of a marker that ends the line:
    outside a block comment the byte in front of a marker exists, and the
    less-than sign in front of a marker has been kept. *)
Lemma stripLoop_no_panic (line : gostring) :
  nth_error line (length line - 1) <> Some CHARComment ->
  forall fuel i multi minLine,
    (multi = false ->
     match i with
     | O => nth_error line 0 <> Some CHARComment
     | S j => nth_error line j = Some LT -> minLine <> []
     end) ->
    stripLoop fuel line i multi minLine <> Panic.
Proof.
  intros Hlast.
  induction fuel as [|fuel IH]; intros i multi minLine Hinv; simpl.
  - destruct (i <? length line); simpl; discriminate.
  - destruct (i <? length line) eqn:E; simpl; [|discriminate].
    apply Nat.ltb_lt in E.
    destruct (nth_error line i) as [c|] eqn:Ec.
    2:{ apply nth_error_None in Ec. lia. }
    destruct multi.
    + destruct (beq c CHARComment) eqn:Eb; [|apply IH; discriminate].
      apply beq_eq in Eb. subst c.
      destruct (i <=? length line); [|apply IH; discriminate].
      destruct (nth_error line (i + 1)) as [d|] eqn:Ed.
      * destruct (beq d GT) eqn:Eg; [|apply IH; discriminate].
        apply beq_eq in Eg. subst d.
        apply IH. intros _. replace (i + 2) with (S (i + 1)) by lia.
        rewrite Ed. discriminate.
      * apply nth_error_None in Ed.
        exfalso. apply Hlast. replace (length line - 1) with i by lia. exact Ec.
    + specialize (Hinv eq_refl).
      destruct (beq c CHARComment) eqn:Eb.
      * apply beq_eq in Eb. subst c.
        destruct i as [|j]; [now exfalso|].
        destruct (nth_error line j) as [p|] eqn:Ep.
        2:{ apply nth_error_None in Ep. lia. }
        replace (S j <=? length line) with true by (symmetry; apply Nat.leb_le; lia).
        cbn [andb].
        destruct (beq p ESCChar1 || beq p ESCChar2).
        { apply IH. intros _. replace (S j + 1) with (S (S j)) by lia.
          intros _. now destruct minLine. }
        destruct (beq p LT) eqn:El; [|discriminate].
        apply beq_eq in El. subst p.
        destruct minLine as [|x minLine]; [now exfalso; apply Hinv|].
        apply IH. discriminate.
      * apply IH. intros _. replace (i + 1) with (S i) by lia.
        intros _. now destruct minLine.
Qed.

Lemma stripComments_returns (line : gostring) (multi : bool) :
  hasSuffix [CHARComment] line = false ->
  exists out multi', stripComments line multi = Done (out, multi').
Proof.
  intro H.
  destruct (stripComments line multi) as [[out m]| |] eqn:E.
  - now exists out, m.
  - exfalso. revert E. unfold stripComments.
    destruct line as [|c l]; [discriminate|].
    destruct (beq c CHARComment) eqn:Ec; [discriminate|].
    apply stripLoop_no_panic; [now apply last_not_marker|].
    intros _. cbn [nth_error]. intros [= ->]. now rewrite beq_refl in Ec.
  - exfalso. now apply (@stripComments_fuel line multi).
Qed.

(** X7. The stripper returns on every line that does not end in the comment
    marker, in either state, and so does the pass over a script none of
    whose lines ends in the marker. *)
Theorem stripper_returns (lines : list gostring) :
  Forall (fun l => hasSuffix [CHARComment] l = false) lines ->
  (forall line multi, In line lines ->
     exists out multi', stripComments line multi = Done (out, multi')) /\
  exists out, stripAllComments lines = Done out.
Proof.
  intro H. split.
  - intros line multi Hin. apply stripComments_returns.
    now apply (proj1 (Forall_forall _ _) H).
  - unfold stripAllComments. generalize false.
    induction H as [|l lines Hl _ IH]; intro multi; [now exists []|].
    cbn [stripAllFrom].
    destruct (@stripComments_returns l multi Hl) as (out & multi' & ->).
    destruct (IH multi') as (rest & ->). now exists (out :: rest).
Qed.

Lemma stripper_returns_witness :
  (forall line multi, In line [str "a <# b"; str "c #> d"; str "e # f"] ->
     exists out multi', stripComments line multi = Done (out, multi')) /\
  exists out, stripAllComments [str "a <# b"; str "c #> d"; str "e # f"] = Done out.
Proof.
  apply stripper_returns. repeat constructor.
Defined.

Lemma removelast_In (A : Type) (l : list A) (y : A) :
  In y (removelast l) -> In y l.
Proof.
  induction l as [|a l IH]; [intros []|].
  destruct l as [|b l]; [intros []|].
  intros [<-|H]; [now left | right; now apply IH].
Qed.

Lemma removelast_shorter (A : Type) (l : list A) :
  length (removelast l) <= length l.
Proof.
  induction l as [|a l IH]; [simpl; lia|].
  destruct l as [|b l]; [simpl; lia|].
  change (S (length (removelast (b :: l))) <= S (length (b :: l))). lia.
Qed.

(** The loop keeps bytes of the line, and no more of them than it has
    read. *)
Lemma stripLoop_bounds (line : gostring) :
  forall fuel i multi minLine out multi',
    incl minLine line -> length minLine <= i -> i <= length line ->
    stripLoop fuel line i multi minLine = Done (out, multi') ->
    incl out line /\ length out <= length line.
Proof.
  induction fuel as [|fuel IH]; intros i multi minLine out multi' Hincl Hlen Hi; simpl.
  - destruct (i <? length line) eqn:E; simpl; [discriminate|].
    intros [= <- <-]. split; [exact Hincl | lia].
  - destruct (i <? length line) eqn:E; simpl.
    2:{ intros [= <- <-]. split; [exact Hincl | lia]. }
    apply Nat.ltb_lt in E.
    destruct (nth_error line i) as [c|] eqn:Ec; [|discriminate].
    assert (Hc : incl (minLine ++ [c]) line).
    { apply incl_app; [exact Hincl|]. intros x [<-|[]]. eapply nth_error_In, Ec. }
    assert (Hl : length (minLine ++ [c]) <= i + 1)
      by (rewrite length_app; simpl; lia).
    destruct multi.
    + destruct (beq c CHARComment); [|apply IH; [exact Hincl|lia|lia]].
      destruct (i <=? length line); [|apply IH; [exact Hincl|lia|lia]].
      destruct (nth_error line (i + 1)) as [d|] eqn:Ed; [|discriminate].
      assert (i + 1 < length line) by (apply nth_error_Some; congruence).
      destruct (beq d GT); apply IH; try exact Hincl; lia.
    + destruct (beq c CHARComment); [|apply IH; [exact Hc|exact Hl|lia]].
      destruct i as [|j]; [discriminate|].
      destruct (nth_error line j) as [p|]; [|discriminate].
      destruct ((S j <=? length line) && (beq p ESCChar1 || beq p ESCChar2));
        [apply IH; [exact Hc|exact Hl|lia]|].
      destruct ((S j <=? length line) && beq p LT).
      * destruct minLine as [|x ml']; [discriminate|].
        apply IH; [| |lia].
        -- intros y Hy. apply Hincl. now apply removelast_In.
        -- pose proof (removelast_shorter (x :: ml')). lia.
      * intros [= <- <-]. split; [exact Hincl | lia].
Qed.

Lemma stripComments_bounds (line : gostring) (multi : bool) (out : gostring)
    (multi' : bool) :
  stripComments line multi = Done (out, multi') ->
  incl out line /\ length out <= length line.
Proof.
  unfold stripComments. destruct line as [|c l].
  - intros [= <- <-]. split; [apply incl_refl | lia].
  - destruct (beq c CHARComment).
    + intros [= <- <-]. split; [apply incl_nil_l | simpl; lia].
    + apply stripLoop_bounds; [apply incl_nil_l | simpl; lia | lia].
Qed.

Lemma getLength_from (lines : list gostring) :
  forall n, fold_left (fun l line => l + length line) lines n = n + getLength lines.
Proof.
  unfold getLength. induction lines as [|l lines IH]; intro n; simpl; [lia|].
  rewrite (IH (n + length l)), (IH (length l)). lia.
Qed.

Lemma getLength_cons (l : gostring) (lines : list gostring) :
  getLength (l :: lines) = length l + getLength lines.
Proof. unfold getLength at 1. simpl. apply getLength_from. Qed.

(** X8. When the pass over the script returns, it returns as many lines as
    it was given; each of them is made of bytes of the line it stands for and
    is not longer, so that the script does not grow. *)
Theorem stripper_only_removes (lines out : list gostring) :
  stripAllComments lines = Done out ->
  length out = length lines /\
  Forall2 (fun l o => incl o l /\ length o <= length l) lines out /\
  getLength out <= getLength lines.
Proof.
  unfold stripAllComments. generalize false. revert out.
  induction lines as [|l lines IH]; intros out multi; cbn [stripAllFrom].
  - intros [= <-]. repeat split; [constructor | lia].
  - destruct (stripComments l multi) as [[o m]| |] eqn:E; try discriminate.
    destruct (stripAllFrom lines m) as [rest| |] eqn:Er; try discriminate.
    intros [= <-].
    destruct (IH rest m Er) as (H1 & H2 & H3).
    destruct (@stripComments_bounds _ _ _ _ E) as (Hi & Hl).
    repeat split.
    + simpl. lia.
    + constructor; [now split | exact H2].
    + rewrite !getLength_cons. lia.
Qed.

Lemma stripper_only_removes_witness :
  length [str "$x = 1 "; []; str "$y"] = length [str "$x = 1 # a"; str "# b"; str "$y"] /\
  Forall2 (fun l o => incl o l /\ length o <= length l)
    [str "$x = 1 # a"; str "# b"; str "$y"] [str "$x = 1 "; []; str "$y"] /\
  getLength [str "$x = 1 "; []; str "$y"] <= getLength [str "$x = 1 # a"; str "# b"; str "$y"].
Proof.
  apply stripper_only_removes. reflexivity.
Defined.

(** ** Where the stripper changes its state *)

Lemma contains_pair (line : gostring) :
  forall k a b,
    nth_error line k = Some a -> nth_error line (S k) = Some b ->
    contains [a; b] line = true.
Proof.
  induction line as [|c line IH]; intros k a b Ha Hb; [now destruct k|].
  rewrite contains_cons. destruct k as [|k].
  - cbn [nth_error] in Ha, Hb. injection Ha as ->.
    destruct line as [|d line]; [discriminate|]. injection Hb as ->.
    cbn [hasPrefix]. now rewrite !beq_refl.
  - cbn [nth_error] in Ha, Hb. rewrite (IH k a b Ha Hb). apply orb_true_r.
Qed.

Lemma stripLoop_state (line : gostring) :
  forall fuel i multi minLine out multi',
    stripLoop fuel line i multi minLine = Done (out, multi') ->
    multi' <> multi ->
    contains (if multi then [CHARComment; GT] else [LT; CHARComment]) line = true.
Proof.
  induction fuel as [|fuel IH]; intros i multi minLine out multi'; cbn [stripLoop].
  - destruct (i <? length line); cbn [negb]; [discriminate|].
    intros [= _ <-] H. now contradiction H.
  - destruct (i <? length line); cbn [negb].
    2:{ intros [= _ <-] H. now contradiction H. }
    destruct (nth_error line i) as [c|] eqn:Ec; [|discriminate].
    destruct multi.
    + destruct (beq c CHARComment) eqn:Eb; [|apply IH].
      apply beq_eq in Eb. subst c.
      destruct (i <=? length line); [|apply IH].
      destruct (nth_error line (i + 1)) as [d|] eqn:Ed; [|discriminate].
      destruct (beq d GT) eqn:Eg; [|apply IH].
      apply beq_eq in Eg. subst d. intros _ _.
      apply (@contains_pair line i); [exact Ec|].
      now replace (S i) with (i + 1) by lia.
    + destruct (beq c CHARComment) eqn:Eb; [|apply IH].
      apply beq_eq in Eb. subst c.
      destruct i as [|j]; [discriminate|].
      destruct (nth_error line j) as [p|] eqn:Ep; [|discriminate].
      destruct ((S j <=? length line) && (beq p ESCChar1 || beq p ESCChar2));
        [apply IH|].
      destruct ((S j <=? length line) && beq p LT) eqn:El.
      * apply andb_true_iff in El as [_ El]. apply beq_eq in El. subst p.
        intros _ _. now apply (@contains_pair line j).
      * intros [= _ <-] H. now contradiction H.
Qed.

(** X9. The stripper changes its state only where the markers are: a line
    that takes it into a block comment holds the opening pair, and a line that
    takes it out of one holds the closing pair. *)
Theorem state_changes_at_markers (line : gostring) (multi : bool)
    (out : gostring) (multi' : bool) :
  stripComments line multi = Done (out, multi') ->
  multi' <> multi ->
  contains (if multi then str "#>" else str "<#") line = true.
Proof.
  unfold stripComments. destruct line as [|c l].
  - intros [= _ <-] H. now contradiction H.
  - destruct (beq c CHARComment).
    + intros [= _ <-] H. now contradiction H.
    + apply stripLoop_state.
Qed.

Lemma state_changes_at_markers_witness :
  contains (if false then str "#>" else str "<#") (str "$x = 1 <# begin") = true.
Proof.
  apply (@state_changes_at_markers (str "$x = 1 <# begin") false (str "$x = 1 ") true);
    [reflexivity | discriminate].
Defined.

(** ** Discovery: names and counts *)

Lemma upperChar_idem (c : ascii) : upperChar (upperChar c) = upperChar c.
Proof. destruct c as [[] [] [] [] [] [] [] []]; reflexivity. Qed.

Lemma ToUpper_idem (s : gostring) : ToUpper (ToUpper s) = ToUpper s.
Proof.
  unfold ToUpper. rewrite map_map. apply map_ext. apply upperChar_idem.
Qed.

Lemma countLine_upper (line : gostring) (m : list (gostring * nat)) :
  countLine m (ToUpper line) = countLine m line.
Proof.
  unfold countLine. rewrite findAll_upper. revert m.
  induction (findAll line) as [|r rs IH]; intro m; [reflexivity|].
  cbn [map fold_left]. rewrite ToUpper_idem. apply IH.
Qed.

Lemma countVars_upper (lines : list gostring) :
  countVars (map ToUpper lines) = countVars lines.
Proof.
  unfold countVars. generalize (@nil (gostring * nat)).
  induction lines as [|l lines IH]; intro m; [reflexivity|].
  cbn [map fold_left]. rewrite countLine_upper. apply IH.
Qed.

(** X10. The discovery does not see the case of the letters: the script and
    its upper-case image give the same names with the same counts, and so the
    same variables. *)
Theorem discovery_ignores_case (reserved : list gostring) (rt : runtime)
    (lines : list gostring) :
  countVars (map ToUpper lines) = countVars lines /\
  getVariables reserved rt (map ToUpper lines) = getVariables reserved rt lines.
Proof.
  split; [apply countVars_upper|].
  unfold getVariables. now rewrite countVars_upper.
Qed.

Lemma countOf_bump (x : gostring) (m : list (gostring * nat)) (k : gostring) :
  countOf (bump x m) k = if streq k x then S (countOf m k) else countOf m k.
Proof.
  unfold countOf. induction m as [|[k0 v] m IH]; cbn [bump find fst snd].
  - destruct (streq k x); reflexivity.
  - destruct (streq x k0) eqn:E; cbn [find fst snd].
    + apply streq_eq in E. subst k0.
      destruct (streq k x); reflexivity.
    + destruct (streq k k0) eqn:E'.
      * apply streq_eq in E'. subst k0.
        replace (streq k x) with false; [reflexivity|].
        symmetry. destruct (streq k x) eqn:E''; [|reflexivity].
        apply streq_eq in E''. subst x. now rewrite streq_refl in E.
      * exact IH.
Qed.

Lemma countOf_matches (rs : list gostring) :
  forall m k,
    countOf (fold_left (fun acc r => bump (ToUpper r) acc) rs m) k
    = countOf m k + count_occ (list_eq_dec ascii_dec) (map ToUpper rs) k.
Proof.
  induction rs as [|r rs IH]; intros m k; cbn [fold_left map count_occ]; [lia|].
  rewrite IH, countOf_bump.
  destruct (list_eq_dec ascii_dec (ToUpper r) k) as [->|Hne].
  - rewrite streq_refl. lia.
  - replace (streq k (ToUpper r)) with false; [reflexivity|].
    symmetry. destruct (streq k (ToUpper r)) eqn:E; [|reflexivity].
    apply streq_eq in E. now subst k.
Qed.

Lemma countOf_lines (lines : list gostring) :
  forall m k,
    countOf (fold_left countLine lines m) k
    = countOf m k
      + count_occ (list_eq_dec ascii_dec) (map ToUpper (flat_map findAll lines)) k.
Proof.
  induction lines as [|l lines IH]; intros m k; [simpl; lia|].
  change (flat_map findAll (l :: lines)) with (findAll l ++ flat_map findAll lines).
  cbn [fold_left]. rewrite IH. unfold countLine at 1. rewrite countOf_matches.
  rewrite map_app, count_occ_app. apply eq_sym, Nat.add_assoc.
Qed.

Lemma countOf_In (m : list (gostring * nat)) (k : gostring) (n : nat) :
  NoDup (map fst m) -> In (k, n) m -> countOf m k = n.
Proof.
  unfold countOf. induction m as [|[k0 v] m IH]; [intros _ []|].
  cbn [map fst find snd]. intros Hnd [[= -> ->]|Hin].
  - now rewrite streq_refl.
  - inversion Hnd as [|? ? Hnot Hnd']; subst.
    destruct (streq k k0) eqn:E.
    + apply streq_eq in E. subst k0. exfalso. apply Hnot.
      apply in_map_iff. now exists (k, n).
    + now apply IH.
Qed.

(** X11. The count of a variable is the number of matches of the pattern
    in the script whose upper-case image is its name; it is never zero. *)
Theorem counts_are_match_counts (reserved : list gostring) (rt : runtime)
    (lines : list gostring) (v : PSVariable) :
  goodRuntime rt ->
  In v (getVariables reserved rt lines) ->
  Count v = count_occ (list_eq_dec ascii_dec)
              (map ToUpper (flat_map findAll lines)) (OriginalName v) /\
  1 <= Count v.
Proof.
  intros Hrt Hv. unfold getVariables in Hv.
  apply in_map_iff in Hv as ([k n] & <- & Hin).
  apply (Permutation_in _ (range_perm Hrt _)) in Hin.
  rewrite mkVariable_closed. cbn [OriginalName Count].
  assert (E : n = count_occ (list_eq_dec ascii_dec)
                    (map ToUpper (flat_map findAll lines)) k).
  { rewrite <- (@countOf_In _ k n (countVars_NoDup lines) Hin).
    unfold countVars. rewrite countOf_lines. reflexivity. }
  split; [exact E|].
  rewrite E. apply count_occ_In.
  assert (Hk : In k (map fst (countVars lines)))
    by (apply in_map_iff; now exists (k, n)).
  apply countVars_keys in Hk as (line & r & Hl & Hr & ->).
  apply in_map, in_flat_map. now exists line.
Qed.

Lemma counts_are_match_counts_witness :
  Count (mkPSVariable (str "$I") [] [] 3 false)
  = count_occ (list_eq_dec ascii_dec)
      (map ToUpper (flat_map findAll [str "$i = 0"; str "$I = $i + $n"]))
      (OriginalName (mkPSVariable (str "$I") [] [] 3 false)) /\
  1 <= Count (mkPSVariable (str "$I") [] [] 3 false).
Proof.
  apply (@counts_are_match_counts sampleReserved (runWith 0)).
  - apply runWith_good.
  - vm_compute. left. reflexivity.
Defined.

(** X12. The variables found are the upper-case images of the matches of
    the pattern in the lines, each of them once. *)
Theorem variables_are_the_matches (reserved : list gostring) (rt : runtime)
    (lines : list gostring) :
  goodRuntime rt ->
  NoDup (map OriginalName (getVariables reserved rt lines)) /\
  forall k, In k (map OriginalName (getVariables reserved rt lines)) <->
            exists line m, In line lines /\ In m (findAll line) /\ k = ToUpper m.
Proof.
  intro Hrt.
  pose proof (getVariables_names reserved Hrt lines) as Hp.
  split.
  - eapply Permutation_NoDup; [symmetry; exact Hp | apply countVars_NoDup].
  - intro k. rewrite <- countVars_keys. split; intro H.
    + eapply Permutation_in; [exact Hp | exact H].
    + eapply Permutation_in; [symmetry; exact Hp | exact H].
Qed.

Lemma variables_are_the_matches_witness :
  NoDup (map OriginalName (getVariables sampleReserved (runWith 0) [str "$a = $b + $A"])) /\
  forall k, In k (map OriginalName
                    (getVariables sampleReserved (runWith 0) [str "$a = $b + $A"])) <->
            exists line m, In line [str "$a = $b + $A"] /\ In m (findAll line) /\
                           k = ToUpper m.
Proof.
  apply variables_are_the_matches. apply runWith_good.
Defined.

(** ** Names and aliases *)

Lemma assignShort_touch (p : PSVariables) :
  forall k,
    Forall2 (fun v w => w = v \/ (Reserved v = false /\ exists n, w = setShortName v n))
            p (assignShort k p).
Proof.
  induction p as [|v p IH]; intro k; cbn [assignShort]; [constructor|].
  destruct (Reserved v) eqn:E; constructor; try apply IH.
  - now left.
  - right. split; [exact E|]. now exists (shortNameAt k).
Qed.

(** X13. On every variable slice [generateShortNames] returns: the index
    into the table of letters never leaves it.  The variables that are not
    reserved receive the names of the allocation sequence in the order of the
    slice, a reserved variable is left as it is, and of the others only the
    short name changes. *)
Theorem short_names_follow_the_sequence (p : PSVariables) :
  exists q,
    generateShortNames p = Done q /\
    map ShortName (filter notReserved q)
    = map shortNameAt (seq 0 (length (filter notReserved p))) /\
    Forall2 (fun v w => w = v \/ (Reserved v = false /\ exists n, w = setShortName v n))
            p q.
Proof.
  exists (assignShort 0 p). split; [apply generateShortNames_closed|].
  split; [apply assignShort_slots | apply assignShort_touch].
Qed.

Lemma shortNameAt_short (k : nat) :
  k < 51 -> length (shortNameAt k) = 2 /\
            exists c, In c varShortNames /\ shortNameAt k = [sigil; c].
Proof.
  intro H. unfold shortNameAt.
  rewrite Nat.mod_small, Nat.div_small by exact H. cbn [Nat.ltb Nat.leb app].
  split; [reflexivity|]. eexists. split; [|reflexivity].
  apply nth_In. rewrite varShortNames_length. exact H.
Qed.

(** X14. With at most 51 variables that are not reserved, each of them
    receives a name of two characters: the sigil and a letter of the table. *)
Theorem one_letter_names (p q : PSVariables) :
  length (filter notReserved p) <= 51 ->
  generateShortNames p = Done q ->
  forall w, In w q -> Reserved w = false ->
    length (ShortName w) = 2 /\
    exists c, In c varShortNames /\ ShortName w = [sigil; c].
Proof.
  intros Hlen E w Hw Hr.
  rewrite generateShortNames_closed in E. injection E as <-.
  assert (Hin : In (ShortName w) (map ShortName (filter notReserved (assignShort 0 p)))).
  { apply in_map, filter_In. split; [exact Hw|]. unfold notReserved. now rewrite Hr. }
  rewrite assignShort_slots in Hin.
  apply in_map_iff in Hin as (k & <- & Hk). apply in_seq in Hk.
  apply shortNameAt_short. lia.
Qed.

Lemma one_letter_names_witness :
  length (ShortName (mkPSVariable (str "$B") [] (str "$B") 2 false)) = 2 /\
  exists c, In c varShortNames /\
            ShortName (mkPSVariable (str "$B") [] (str "$B") 2 false) = [sigil; c].
Proof.
  apply (@one_letter_names
           [mkPSVariable (str "$TOTAL") [] [] 1 false;
            mkPSVariable (str "$NULL") [] (str "$NULL") 1 true;
            mkPSVariable (str "$B") [] [] 2 false]
           [mkPSVariable (str "$TOTAL") [] (str "$A") 1 false;
            mkPSVariable (str "$NULL") [] (str "$NULL") 1 true;
            mkPSVariable (str "$B") [] (str "$B") 2 false]).
  - vm_compute. lia.
  - reflexivity.
  - right. right. left. reflexivity.
  - reflexivity.
Defined.

(** X15. Called again and again from zero, [getNextShortName] walks through
    the table of letters: its first 51 results are the 51 entries of
    [varShortNames].  It never returns the opening bracket that follows Z, and
    after 255 the byte starts over at zero. *)
Theorem next_short_name_walks_the_table :
  map (fun k => Nat.iter (S k) getNextShortName zero) (seq 0 51) = varShortNames /\
  (forall c, getNextShortName c <> "["%char) /\
  getNextShortName (ascii_of_nat 255) = zero.
Proof.
  split; [reflexivity|]. split; [|reflexivity].
  intros c. destruct c as [[] [] [] [] [] [] [] []]; intro E; discriminate E.
Qed.

(** The evaluation sort with a failing random source. *)
Lemma noEntropy_good : goodRuntime noEntropy.
Proof.
  constructor; simpl.
  - reflexivity.
  - apply insertionSort_perm.
  - apply insertionSort_sorted.
Qed.

Lemma assignFrom_fails (rt : runtime) (p : PSVariables) :
  forall i j, i <= j < i + length p -> newRandom rt j = None ->
              assignFrom rt i p = Panic.
Proof.
  induction p as [|v p IH]; intros i j Hj E; [simpl in Hj; lia|].
  cbn [assignFrom].
  destruct (Nat.eq_dec i j) as [->|Hne]; [now rewrite E|].
  destruct (newRandom rt i); [|reflexivity].
  rewrite (IH (S i) j); [reflexivity| |exact E]. simpl in Hj. lia.
Qed.

(** X16. When the random source fails for one of the variables, the
    renamer panics: [assignUniqueRandomNames] does on a slice that long, and
    so does [shortenAllVariableNames] on a script with that many variables. *)
Theorem failed_draw_panics (reserved : list gostring) (rt : runtime)
    (lines : list gostring) (i : nat) :
  goodRuntime rt ->
  newRandom rt i = None ->
  (forall p, i < length p -> assignUniqueRandomNames rt p = Panic) /\
  (i < length (countVars lines) ->
   shortenAllVariableNames reserved rt lines = Panic).
Proof.
  intros Hrt E.
  assert (H : forall p, i < length p -> assignUniqueRandomNames rt p = Panic).
  { intros p Hi. unfold assignUniqueRandomNames.
    rewrite (@assignFrom_fails rt p 0 i); [reflexivity| |exact E]. lia. }
  split; [exact H|]. intro Hi.
  unfold shortenAllVariableNames, renameRun, shortenVariables.
  rewrite H; [reflexivity|].
  rewrite (Permutation_length (sort_perm Hrt lessCount _)).
  now rewrite getVariables_length.
Qed.

Lemma failed_draw_panics_witness :
  (forall p, 0 < length p -> assignUniqueRandomNames noEntropy p = Panic) /\
  (0 < length (countVars [str "$x = 1"]) ->
   shortenAllVariableNames sampleReserved noEntropy [str "$x = 1"] = Panic).
Proof.
  apply failed_draw_panics; [apply noEntropy_good | reflexivity].
Defined.

(** ** The spacing compactor: what it leaves alone *)

(** A substitution walks the text from the left: it is at its end, or at a
    match, or it passes one character. *)
Lemma Replace_cases (old new : gostring) (P : gostring -> gostring -> Prop) :
  old <> [] ->
  P [] [] ->
  (forall rest, P rest (Replace rest old new) ->
                P (old ++ rest) (new ++ Replace rest old new)) ->
  (forall c s, hasPrefix old (c :: s) = false ->
               P s (Replace s old new) -> P (c :: s) (c :: Replace s old new)) ->
  forall s, P s (Replace s old new).
Proof.
  intros Hold Hnil Hmatch Hpass s.
  assert (H : forall n s, length s <= n -> P s (Replace s old new)).
  { induction n as [|n IH]; intros s' Hn.
    - destruct s'; [|simpl in Hn; lia]. now rewrite Replace_nil.
    - destruct s' as [|c s']; [now rewrite Replace_nil|].
      destruct (hasPrefix old (c :: s')) eqn:E.
      + apply hasPrefix_iff in E as (rest & E). rewrite E.
        rewrite Replace_match by exact Hold. apply Hmatch, IH.
        apply (f_equal (@length _)) in E. rewrite length_app in E.
        destruct old; [congruence|]. simpl in E, Hn. lia.
      + rewrite Replace_cons by assumption. apply Hpass; [exact E|].
        apply IH. simpl in Hn. lia. }
  apply (H (length s)). lia.
Qed.

Lemma Replace_filter (f : ascii -> bool) (s old new : gostring) :
  old <> [] -> filter f old = filter f new ->
  filter f (Replace s old new) = filter f s.
Proof.
  intros Hold Hf.
  apply (@Replace_cases old new (fun s r => filter f r = filter f s)); try exact Hold.
  - reflexivity.
  - intros rest IH. now rewrite !filter_app, IH, Hf.
  - intros c s' _ IH. simpl. now rewrite IH.
Qed.

Lemma Replace_shorter (s old new : gostring) :
  old <> [] -> length new <= length old ->
  length (Replace s old new) <= length s.
Proof.
  intros Hold Hl.
  apply (@Replace_cases old new (fun s r => length r <= length s)); try exact Hold.
  - simpl. lia.
  - intros rest IH. rewrite !length_app. lia.
  - intros c s' _ IH. simpl. lia.
Qed.

Lemma getLength_le (f : gostring -> gostring) (lines : list gostring) :
  (forall l, length (f l) <= length l) ->
  getLength (map f lines) <= getLength lines.
Proof.
  intro H. induction lines as [|l lines IH]; [unfold getLength; simpl; lia|].
  cbn [map]. rewrite !getLength_cons. specialize (H l). lia.
Qed.

(** X17. The spacing compactor only takes spaces away: a line and what it
    becomes hold the same characters other than spaces, in the same order,
    the line does not get longer, and the script does not grow. *)
Theorem compactor_only_removes_spaces (lines : list gostring) :
  (forall line,
     filter (fun c => negb (beq c sp)) (compactLine line)
     = filter (fun c => negb (beq c sp)) line /\
     length (compactLine line) <= length line) /\
  getLength (removeExtraSpaces lines) <= getLength lines.
Proof.
  assert (Ht : Forall (fun sub =>
                         fst sub <> [] /\
                         filter (fun c => negb (beq c sp)) (fst sub)
                         = filter (fun c => negb (beq c sp)) (snd sub) /\
                         length (snd sub) <= length (fst sub)) spacingTable).
  { unfold spacingTable.
    repeat (constructor; [split; [discriminate | split; [reflexivity | simpl; lia]]|]).
    constructor. }
  assert (H : forall line,
             filter (fun c => negb (beq c sp)) (compactLine line)
             = filter (fun c => negb (beq c sp)) line /\
             length (compactLine line) <= length line).
  { unfold compactLine. revert Ht. generalize spacingTable.
    induction 1 as [|sub t (H1 & H2 & H3) _ IH]; intro line;
      [split; [reflexivity | simpl; lia]|].
    cbn [fold_left].
    destruct (IH (Replace line (fst sub) (snd sub))) as (IH1 & IH2).
    split.
    - eapply eq_trans; [exact IH1|]. now apply Replace_filter.
    - eapply Nat.le_trans; [exact IH2|]. now apply Replace_shorter. }
  split; [exact H|].
  unfold removeExtraSpaces. apply getLength_le. intro l. apply H.
Qed.

Lemma fold_Replace_fix (t : list (gostring * gostring)) (line : gostring) :
  Forall (fun sub => Replace line (fst sub) (snd sub) = line) t ->
  fold_left (fun l sub => Replace l (fst sub) (snd sub)) t line = line.
Proof.
  induction 1 as [|sub t Hsub _ IH]; [reflexivity|].
  cbn [fold_left]. now rewrite Hsub.
Qed.

(** X18. A line without a space is left as it is by the spacing
    compactor. *)
Theorem compactor_keeps_spaceless (line : gostring) :
  nospace line = true -> compactLine line = line.
Proof.
  intro H. apply nospace_not_In in H.
  unfold compactLine. apply fold_Replace_fix.
  assert (Ht : Forall (fun sub => In sp (fst sub)) spacingTable).
  { apply Forall_forall. intros sub Hsub.
    assert (E : existsb (beq sp) (fst sub) = true).
    { revert sub Hsub. apply forallb_forall. reflexivity. }
    apply existsb_exists in E as (c & Hc & Ec). apply beq_eq in Ec. now subst c. }
  eapply Forall_impl; [|exact Ht].
  intros sub Hsub. now apply Replace_absent with (c := sp).
Qed.

Lemma compactor_keeps_spaceless_witness :
  compactLine (str "$A=$B+1;") = str "$A=$B+1;".
Proof. apply compactor_keeps_spaceless. reflexivity. Defined.

Lemma compactLine_plain (line : gostring) :
  (forall c, In c operatorChars -> ~ In c line) -> compactLine line = line.
Proof.
  intro H. unfold compactLine. apply fold_Replace_fix.
  apply Forall_forall. intros sub Hsub.
  assert (E : existsb (fun c => existsb (beq c) (fst sub)) operatorChars = true).
  { revert sub Hsub. apply forallb_forall. reflexivity. }
  apply existsb_exists in E as (c & Hc & Ec).
  apply existsb_exists in Ec as (d & Hd & Ed). apply beq_eq in Ed. subst d.
  apply Replace_absent with (c := c); [exact Hd | now apply H].
Qed.

(** X19. A line in which none of the characters [= + - * / ( ) [ ] { } ;]
    occurs is left as it is by the spacing compactor, whatever its spaces. *)
Theorem compactor_keeps_plain_text (line : gostring) :
  (forall c, In c operatorChars -> ~ In c line) -> compactLine line = line.
Proof. apply compactLine_plain. Qed.

Lemma compactor_keeps_plain_text_witness :
  compactLine (str "ECHO  'A  B'  ") = str "ECHO  'A  B'  ".
Proof.
  apply compactor_keeps_plain_text.
  intros c Hc. apply absent_dec.
  repeat (destruct Hc as [<-|Hc]; [reflexivity|]). destruct Hc.
Defined.

(** ** The line joiner: trimming *)

Lemma trimLeft_spaces (a x : gostring) :
  forallb isSpace a = true -> trimLeft (a ++ x) = trimLeft x.
Proof.
  induction a as [|c a IH]; intro H; [reflexivity|].
  simpl in H. apply andb_true_iff in H as [Hc Ha].
  cbn [app trimLeft]. rewrite Hc. now apply IH.
Qed.

Lemma trimLeft_all (a : gostring) : forallb isSpace a = true -> trimLeft a = [].
Proof.
  intro H. pose proof (@trimLeft_spaces a [] H) as E.
  rewrite List.app_nil_r in E. exact E.
Qed.

Lemma trimLeft_split (x : gostring) :
  exists a, x = a ++ trimLeft x /\ forallb isSpace a = true.
Proof.
  induction x as [|c x (a & E & Ha)]; [now exists []|].
  cbn [trimLeft]. destruct (isSpace c) eqn:Ec.
  - exists (c :: a). split; [cbn [app]; now f_equal | simpl; now rewrite Ec].
  - now exists [].
Qed.

Lemma trimLeft_result (x : gostring) (c : ascii) (r : gostring) :
  trimLeft x = c :: r -> isSpace c = false.
Proof.
  induction x as [|d x IH]; [discriminate|].
  cbn [trimLeft]. destruct (isSpace d) eqn:Ed; [exact IH|].
  now intros [= <- _].
Qed.

Lemma forallb_rev (A : Type) (f : A -> bool) (l : list A) :
  forallb f l = true -> forallb f (rev l) = true.
Proof.
  rewrite !forallb_forall. intros H x Hx. apply H. now apply in_rev.
Qed.

(** What [TrimSpace] returns is determined by the white space around it. *)
Lemma TrimSpace_unique (a t b : gostring) :
  forallb isSpace a = true -> forallb isSpace b = true -> trimmed t = true ->
  TrimSpace (a ++ t ++ b) = t.
Proof.
  intros Ha Hb Ht. unfold TrimSpace. rewrite trimLeft_spaces by exact Ha.
  destruct t as [|c t'].
  - cbn [app]. rewrite (trimLeft_all _ Hb). reflexivity.
  - cbn [trimmed] in Ht. apply andb_true_iff in Ht as [Hc Hz].
    apply negb_true_iff in Hc, Hz.
    cbn [app trimLeft]. rewrite Hc.
    change (c :: t' ++ b) with ((c :: t') ++ b).
    rewrite rev_app_distr, trimLeft_spaces by now apply forallb_rev.
    destruct (@exists_last _ (c :: t')) as (t0 & z & E); [discriminate|].
    rewrite E in *. rewrite last_last in Hz.
    rewrite rev_app_distr. cbn [rev app trimLeft]. rewrite Hz.
    cbn [rev]. now rewrite rev_involutive.
Qed.

Lemma TrimSpace_split (s : gostring) :
  exists a b, s = a ++ TrimSpace s ++ b /\
              forallb isSpace a = true /\ forallb isSpace b = true /\
              trimmed (TrimSpace s) = true.
Proof.
  unfold TrimSpace.
  destruct (trimLeft_split s) as (a & Es & Ha).
  destruct (trimLeft_split (rev (trimLeft s))) as (b' & Eu & Hb).
  set (u := trimLeft s) in *. set (w := trimLeft (rev u)) in *.
  assert (Eu' : u = rev w ++ rev b').
  { rewrite <- (rev_involutive u), Eu, rev_app_distr. reflexivity. }
  exists a, (rev b'). split; [now rewrite <- Eu'|].
  split; [exact Ha|]. split; [now apply forallb_rev|].
  destruct w as [|z w'] eqn:Ew; [reflexivity|].
  assert (Hz : isSpace z = false) by (eapply trimLeft_result; exact Ew).
  cbn [rev]. destruct (rev w' ++ [z]) as [|c r] eqn:Er; [reflexivity|].
  cbn [trimmed]. rewrite <- Er, last_last, Hz.
  assert (Hc : isSpace c = false).
  { apply trimLeft_result with (x := s) (r := r ++ rev b').
    fold u. rewrite Eu'. cbn [rev]. now rewrite Er. }
  now rewrite Hc.
Qed.

Lemma TrimSpace_nil (s : gostring) :
  TrimSpace s = [] <-> forallb isSpace s = true.
Proof.
  split; intro H.
  - destruct (TrimSpace_split s) as (a & b & E & Ha & Hb & _).
    rewrite H in E. rewrite E. cbn [app]. rewrite forallb_app. now rewrite Ha, Hb.
  - rewrite <- (List.app_nil_r s).
    change (s ++ []) with (s ++ [] ++ []). now apply TrimSpace_unique.
Qed.

Lemma TrimSuffix_trimmed (t : gostring) (c : ascii) :
  trimmed t = true -> isSpace c = true -> TrimSuffix t [c] = t.
Proof.
  intros Ht Hc. unfold TrimSuffix, hasSuffix.
  destruct t as [|x t']; [reflexivity|].
  cbn [trimmed] in Ht. apply andb_true_iff in Ht as [_ Hz].
  apply negb_true_iff in Hz.
  destruct (@exists_last _ (x :: t')) as (t0 & z & E); [discriminate|].
  rewrite E in *. rewrite last_last in Hz.
  change (length [c]) with 1. rewrite skipn_last_one, streq_single.
  replace (beq z c) with false; [now rewrite andb_false_r|].
  symmetry. apply beq_neq. intros ->. congruence.
Qed.

Lemma trimLine_TrimSpace (line : gostring) : trimLine line = TrimSpace line.
Proof.
  destruct (TrimSpace_split line) as (a & b & E & Ha & Hb & Ht).
  unfold trimLine, newline, carriage.
  rewrite (@TrimSuffix_trimmed _ (ascii_of_nat 10) Ht eq_refl).
  now rewrite (@TrimSuffix_trimmed _ (ascii_of_nat 13) Ht eq_refl).
Qed.

(** X20. The line as the joiner works on it is the line without the white
    space at its two ends: the two calls of [TrimSuffix] find nothing left to
    take away.  It is empty exactly for a line of white space only. *)
Theorem joiner_trims_both_ends (line : gostring) :
  trimLine line = TrimSpace line /\
  trimmed (trimLine line) = true /\
  (trimLine line = [] <-> forallb isSpace line = true) /\
  exists a b, line = a ++ trimLine line ++ b /\
              forallb isSpace a = true /\ forallb isSpace b = true.
Proof.
  destruct (TrimSpace_split line) as (a & b & E & Ha & Hb & Ht).
  rewrite trimLine_TrimSpace. split; [reflexivity|]. split; [exact Ht|].
  split; [apply TrimSpace_nil|]. now exists a, b.
Qed.

(** ** The line joiner: what it emits *)

Lemma hasSuffix_single (t0 : gostring) (z c : ascii) :
  hasSuffix [c] (t0 ++ [z]) = beq z c.
Proof.
  unfold hasSuffix. change (length [c]) with 1.
  rewrite skipn_last_one, streq_single.
  replace (1 <=? length (t0 ++ [z])) with true; [reflexivity|].
  symmetry. apply Nat.leb_le. rewrite length_app. simpl. lia.
Qed.

(** The switch of the joiner on the last character of the trimmed line. *)
Lemma joinLine_last (line t0 : gostring) (z : ascii) :
  trimLine line = t0 ++ [z] ->
  joinLine line
  = if beq z "}"%char || beq z "{"%char || beq z "("%char || beq z ";"%char
    then Some (t0 ++ [z])
    else if beq z "]"%char then Some ((t0 ++ [z]) ++ newline)
    else if beq z "M"%char
    then if 5 <=? length (t0 ++ [z]) then Some (t0 ++ [z])
         else Some ((t0 ++ [z]) ++ str ";")
    else Some ((t0 ++ [z]) ++ str ";").
Proof.
  intro E. unfold joinLine. rewrite E, app_single_nonempty, skipn_last_one.
  unfold str; simpl list_ascii_of_string. rewrite !streq_single.
  destruct (beq z "}"%char || beq z "{"%char || beq z "("%char || beq z ";"%char);
    [reflexivity|].
  destruct (beq z "]"%char); [reflexivity|].
  destruct (beq z "M"%char); [|reflexivity].
  destruct (5 <=? length (t0 ++ [z])); [|reflexivity].
  now destruct (streq _ _).
Qed.

Lemma joinLine_blank (line : gostring) :
  trimLine line = [] -> joinLine line = None.
Proof. intro E. unfold joinLine. now rewrite E. Qed.

Lemma joinLine_same (x y : gostring) :
  trimLine x = trimLine y -> joinLine x = joinLine y.
Proof. intro E. unfold joinLine. now rewrite E. Qed.

Lemma joinLine_cases (line out : gostring) :
  joinLine line = Some out ->
  TrimSpace line <> [] /\
  (out = TrimSpace line \/ out = TrimSpace line ++ str ";" \/
   out = TrimSpace line ++ newline) /\
  (out = TrimSpace line ++ newline <-> hasSuffix (str "]") (TrimSpace line) = true) /\
  (hasSuffix (str "{") (TrimSpace line) = true \/
   hasSuffix (str "(") (TrimSpace line) = true \/
   hasSuffix (str ";") (TrimSpace line) = true -> out = TrimSpace line).
Proof.
  intro H. rewrite <- trimLine_TrimSpace.
  destruct (trimLine line) as [|c0 t'] eqn:E.
  { rewrite joinLine_blank in H by exact E. discriminate H. }
  destruct (@exists_last _ (c0 :: t')) as (t0 & z & E'); [discriminate|].
  rewrite E' in *. clear E' c0 t'.
  rewrite (@joinLine_last line t0 z E) in H.
  unfold str; simpl list_ascii_of_string. rewrite !hasSuffix_single.
  assert (Hne : forall x : ascii, t0 ++ [z] <> (t0 ++ [z]) ++ [x]).
  { intros x Ex. apply (f_equal (@length _)) in Ex.
    rewrite !length_app in Ex. simpl in Ex. lia. }
  split; [now destruct t0|].
  destruct (beq z "]"%char) eqn:E5.
  - apply beq_eq in E5. subst z. revert H. eval_beq. intros [= <-].
    split; [now right; right|]. split; [now split|].
    intros [Ex|[Ex|Ex]]; discriminate Ex.
  - destruct (beq z "}"%char || beq z "{"%char || beq z "("%char || beq z ";"%char)
      eqn:Eor.
    + injection H as <-. split; [now left|]. split; [|reflexivity].
      split; [intro Ex; now apply Hne in Ex | discriminate].
    + apply orb_false_iff in Eor as [Eor E4].
      apply orb_false_iff in Eor as [Eor E3].
      apply orb_false_iff in Eor as [E1 E2].
      rewrite E2, E3, E4.
      assert (Hsemi : (t0 ++ [z]) ++ str ";" <> (t0 ++ [z]) ++ newline).
      { intro Ex. apply app_inv_head in Ex. discriminate Ex. }
      destruct (beq z "M"%char); [destruct (5 <=? length (t0 ++ [z]))|];
        injection H as <-.
      * split; [now left|]. split; [|intros [Ex|[Ex|Ex]]; discriminate Ex].
        split; [intro Ex; now apply Hne in Ex | discriminate].
      * split; [now right; left|]. split; [|intros [Ex|[Ex|Ex]]; discriminate Ex].
        split; [intro Ex; now apply Hsemi in Ex | discriminate].
      * split; [now right; left|]. split; [|intros [Ex|[Ex|Ex]]; discriminate Ex].
        split; [intro Ex; now apply Hsemi in Ex | discriminate].
Qed.

(** X21. A line that the joiner emits is the line without the white space
    at its ends, followed by nothing, by a semicolon or by a line feed; the
    line feed comes exactly after a closing bracket, and nothing comes after an
    opening brace, an opening parenthesis or a semicolon. *)
Theorem joiner_appends_at_most_one (line out : gostring) :
  joinLine line = Some out ->
  TrimSpace line <> [] /\
  (out = TrimSpace line \/ out = TrimSpace line ++ str ";" \/
   out = TrimSpace line ++ newline) /\
  (out = TrimSpace line ++ newline <-> hasSuffix (str "]") (TrimSpace line) = true) /\
  (hasSuffix (str "{") (TrimSpace line) = true \/
   hasSuffix (str "(") (TrimSpace line) = true \/
   hasSuffix (str ";") (TrimSpace line) = true -> out = TrimSpace line).
Proof. apply joinLine_cases. Qed.

Lemma joiner_appends_at_most_one_witness :
  TrimSpace (str "  $A[0]  ") <> [] /\
  (str "$A[0]" ++ newline = TrimSpace (str "  $A[0]  ") \/
   str "$A[0]" ++ newline = TrimSpace (str "  $A[0]  ") ++ str ";" \/
   str "$A[0]" ++ newline = TrimSpace (str "  $A[0]  ") ++ newline) /\
  (str "$A[0]" ++ newline = TrimSpace (str "  $A[0]  ") ++ newline
   <-> hasSuffix (str "]") (TrimSpace (str "  $A[0]  ")) = true) /\
  (hasSuffix (str "{") (TrimSpace (str "  $A[0]  ")) = true \/
   hasSuffix (str "(") (TrimSpace (str "  $A[0]  ")) = true \/
   hasSuffix (str ";") (TrimSpace (str "  $A[0]  ")) = true ->
   str "$A[0]" ++ newline = TrimSpace (str "  $A[0]  ")).
Proof.
  apply (@joiner_appends_at_most_one (str "  $A[0]  ") (str "$A[0]" ++ newline)).
  reflexivity.
Defined.

Lemma joinLine_out (line out : gostring) :
  joinLine line = Some out ->
  trimLine line <> [] /\
  (out = trimLine line \/ out = trimLine line ++ str ";" \/
   out = trimLine line ++ newline).
Proof.
  intro H. rewrite !trimLine_TrimSpace.
  destruct (@joinLine_cases _ _ H) as (H1 & H2 & _). now split.
Qed.

(** X22. The joiner emits one line for every line that is not made of
    white space only, and none for the others; no line it emits is empty. *)
Theorem joiner_drops_blank_lines (lines : list gostring) :
  length (removeAllNewLines lines)
  = length (filter (fun l => negb (forallb isSpace l)) lines) /\
  Forall (fun l => l <> []) (removeAllNewLines lines).
Proof.
  unfold removeAllNewLines.
  induction lines as [|l lines (IH1 & IH2)]; [split; [reflexivity | constructor]|].
  cbn [flat_map filter].
  destruct (joinLine l) as [out|] eqn:E.
  - destruct (@joinLine_out _ _ E) as (Hne & Hout).
    assert (Hs : forallb isSpace l = false).
    { destruct (forallb isSpace l) eqn:Es; [|reflexivity].
      exfalso. apply Hne. rewrite trimLine_TrimSpace. now apply TrimSpace_nil. }
    rewrite Hs. cbn [negb app length]. split; [now f_equal|].
    constructor; [|exact IH2].
    destruct Hout as [-> | [-> | ->]]; [exact Hne| |];
      intro Ex; apply app_eq_nil in Ex as [_ Ex]; discriminate Ex.
  - assert (Hs : forallb isSpace l = true).
    { apply TrimSpace_nil. rewrite <- trimLine_TrimSpace.
      destruct (trimLine l) as [|c0 t'] eqn:Et; [reflexivity|].
      destruct (@exists_last _ (c0 :: t')) as (t0 & z & E'); [discriminate|].
      rewrite E' in Et. rewrite (@joinLine_last l t0 z Et) in E.
      repeat match type of E with
             | (if ?b then _ else _) = _ => destruct b
             end; discriminate E. }
    rewrite Hs. cbn [negb app]. now split.
Qed.

Lemma trimmed_snoc (t : gostring) (c : ascii) :
  t <> [] -> trimmed t = true -> isSpace c = false -> trimmed (t ++ [c]) = true.
Proof.
  intros Hne Ht Hc. destruct t as [|x t']; [congruence|].
  cbn [trimmed] in Ht. apply andb_true_iff in Ht as [Hx _].
  cbn [app trimmed]. rewrite Hx.
  change (x :: t' ++ [c]) with ((x :: t') ++ [c]). now rewrite last_last, Hc.
Qed.

Lemma joinLine_again (line out : gostring) :
  joinLine line = Some out -> joinLine out = Some out.
Proof.
  intro H. destruct (@joinLine_cases _ _ H) as (Hne & Hout & Hnl & _).
  destruct (TrimSpace_split line) as (_ & _ & _ & _ & _ & Ht).
  destruct Hout as [E|[E|E]].
  - rewrite <- H. apply joinLine_same. rewrite !trimLine_TrimSpace, E.
    rewrite <- (List.app_nil_r (TrimSpace line)) at 1.
    change (TrimSpace line ++ []) with ([] ++ TrimSpace line ++ []).
    now apply TrimSpace_unique.
  - assert (Et : trimLine out = TrimSpace line ++ [";"%char]).
    { rewrite trimLine_TrimSpace, E.
      rewrite <- (List.app_nil_r (TrimSpace line ++ str ";")).
      change ((TrimSpace line ++ str ";") ++ [])
        with ([] ++ (TrimSpace line ++ str ";") ++ []).
      apply TrimSpace_unique; try reflexivity.
      now apply trimmed_snoc. }
    rewrite (@joinLine_last out _ _ Et), E. reflexivity.
  - rewrite <- H. apply joinLine_same. rewrite !trimLine_TrimSpace, E.
    change (TrimSpace line ++ newline) with ([] ++ TrimSpace line ++ newline).
    now apply TrimSpace_unique.
Qed.

(** X23. The joiner applied to what it has emitted changes nothing. *)
Theorem joiner_idempotent (lines : list gostring) :
  removeAllNewLines (removeAllNewLines lines) = removeAllNewLines lines.
Proof.
  unfold removeAllNewLines.
  induction lines as [|l lines IH]; [reflexivity|].
  cbn [flat_map]. rewrite flat_map_app, IH. f_equal.
  destruct (joinLine l) as [out|] eqn:E; [|reflexivity].
  cbn [flat_map]. now rewrite (@joinLine_again _ _ E).
Qed.

(** ** Writing the result *)

Lemma writeFrom_done (d : disk) (lines : list gostring) :
  forall i file out,
    writeFrom d i lines file = Done out ->
    out = file ++ concat lines /\
    forall k, k < length lines -> writeOk d (i + k) = true.
Proof.
  induction lines as [|l lines IH]; intros i file out; cbn [writeFrom].
  - intros [= <-]. split; [now rewrite List.app_nil_r | simpl; lia].
  - destruct (writeOk d i) eqn:Ew; [|discriminate].
    intro H. apply IH in H as (-> & Hk). split.
    + cbn [concat]. now rewrite app_assoc.
    + intros [|k] Hlt; [now rewrite Nat.add_0_r|].
      replace (i + S k) with (S i + k) by lia. apply Hk. simpl in Hlt. lia.
Qed.

Lemma writeFrom_ok (d : disk) (lines : list gostring) :
  forall i file,
    (forall k, k < length lines -> writeOk d (i + k) = true) ->
    writeFrom d i lines file = Done (file ++ concat lines).
Proof.
  induction lines as [|l lines IH]; intros i file H; cbn [writeFrom].
  - now rewrite List.app_nil_r.
  - rewrite <- (Nat.add_0_r i) at 1. rewrite H by (simpl; lia).
    rewrite IH; [cbn [concat]; now rewrite app_assoc|].
    intros k Hk. replace (S i + k) with (i + S k) by lia. apply H. simpl. lia.
Qed.

Lemma getLength_concat (lines : list gostring) :
  length (concat lines) = getLength lines.
Proof.
  induction lines as [|l lines IH]; [reflexivity|].
  cbn [concat]. rewrite length_app, getLength_cons. lia.
Qed.

(** X24. [saveToFile] returns exactly when the file can be created and
    every write succeeds; the file then holds the lines one after the other
    with nothing between them, [getLength] bytes in all. *)
Theorem saved_file_is_the_lines (d : disk) (lines : list gostring)
    (filePath : gostring) :
  (createOk d filePath = true /\
   (forall k, k < length lines -> writeOk d k = true) <->
   saveToFile d lines filePath = Done (concat lines)) /\
  (forall file, saveToFile d lines filePath = Done file ->
                file = concat lines /\ length file = getLength lines).
Proof.
  unfold saveToFile. split; [split|].
  - intros (-> & H). now rewrite writeFrom_ok.
  - destruct (createOk d filePath); [|discriminate].
    intro H. apply writeFrom_done in H as (_ & H). now split.
  - intros file. destruct (createOk d filePath); [|discriminate].
    intro H. apply writeFrom_done in H as (-> & _).
    split; [reflexivity | apply getLength_concat].
Qed.

(** ** The sort interface *)

Lemma setAt_length (p : PSVariables) :
  forall i v, length (setAt p i v) = length p.
Proof.
  induction p as [|x p IH]; intros [|i] v; simpl; auto.
Qed.

Lemma setAt_nth (p : PSVariables) :
  forall i v k,
    nth_error (setAt p i v) k
    = if (k =? i) && (i <? length p) then Some v else nth_error p k.
Proof.
  induction p as [|x p IH]; intros i v k.
  - destruct i, k; simpl; rewrite ?andb_false_r; reflexivity.
  - destruct i as [|i], k as [|k]; cbn [setAt nth_error length]; try reflexivity.
    rewrite IH. reflexivity.
Qed.

(** X25. [Swap] panics exactly when an index lies outside the slice.
    Otherwise the slice it leaves has the two elements exchanged and every
    other element in its place, which makes it a permutation of the slice, of
    the same [Len]. *)
Theorem swap_exchanges (p : PSVariables) (i j : nat) :
  (Swap p i j = Panic <-> Len p <= i \/ Len p <= j) /\
  (i < Len p -> j < Len p ->
   exists q,
     Swap p i j = Done q /\
     Len q = Len p /\
     nth_error q i = nth_error p j /\ nth_error q j = nth_error p i /\
     (forall k, k <> i -> k <> j -> nth_error q k = nth_error p k) /\
     Permutation q p).
Proof.
  unfold Swap, Len. split.
  - split.
    + destruct (nth_error p i) eqn:Ei; [|left; now apply nth_error_None].
      destruct (nth_error p j) eqn:Ej; [discriminate|right; now apply nth_error_None].
    + intros [H|H]; apply nth_error_None in H; rewrite H; [reflexivity|].
      now destruct (nth_error p i).
  - intros Hi Hj.
    destruct (nth_error p i) as [a|] eqn:Ei; [|apply nth_error_None in Ei; lia].
    destruct (nth_error p j) as [b|] eqn:Ej; [|apply nth_error_None in Ej; lia].
    exists (setAt (setAt p i b) j a). split; [reflexivity|].
    assert (Hnth : forall k, nth_error (setAt (setAt p i b) j a) k
                             = if k =? j then Some a
                               else if k =? i then Some b else nth_error p k).
    { intro k. rewrite !setAt_nth, setAt_length.
      replace (j <? length p) with true by (symmetry; now apply Nat.ltb_lt).
      replace (i <? length p) with true by (symmetry; now apply Nat.ltb_lt).
      now rewrite !andb_true_r. }
    assert (Hlen : length (setAt (setAt p i b) j a) = length p)
      by now rewrite !setAt_length.
    split; [exact Hlen|]. split; [|split; [|split]].
    + rewrite Hnth, Nat.eqb_refl. destruct (i =? j) eqn:E; [|reflexivity].
      apply Nat.eqb_eq in E. subst j. congruence.
    + rewrite Hnth, Nat.eqb_refl. reflexivity.
    + intros k Hki Hkj. rewrite Hnth.
      replace (k =? j) with false by (symmetry; now apply Nat.eqb_neq).
      now replace (k =? i) with false by (symmetry; now apply Nat.eqb_neq).
    + apply Permutation_sym. apply Permutation_nth_error. split; [now rewrite Hlen|].
      exists (fun k => if k =? j then i else if k =? i then j else k). split.
      * intros x y.
        destruct (x =? j) eqn:Exj, (y =? j) eqn:Eyj, (x =? i) eqn:Exi, (y =? i) eqn:Eyi;
          rewrite ?Nat.eqb_eq, ?Nat.eqb_neq in *; lia.
      * intro k. rewrite Hnth.
        destruct (k =? j) eqn:Ekj; [now rewrite Ei|].
        destruct (k =? i) eqn:Eki; [now rewrite Ej|reflexivity].
Qed.

Lemma swap_exchanges_witness :
  exists q,
    Swap [mkPSVariable (str "$A") [] [] 1 false; mkPSVariable (str "$B") [] [] 2 false] 0 1
    = Done q /\
    Len q = Len [mkPSVariable (str "$A") [] [] 1 false; mkPSVariable (str "$B") [] [] 2 false] /\
    nth_error q 0
    = nth_error [mkPSVariable (str "$A") [] [] 1 false; mkPSVariable (str "$B") [] [] 2 false] 1 /\
    nth_error q 1
    = nth_error [mkPSVariable (str "$A") [] [] 1 false; mkPSVariable (str "$B") [] [] 2 false] 0 /\
    (forall k, k <> 0 -> k <> 1 ->
       nth_error q k
       = nth_error [mkPSVariable (str "$A") [] [] 1 false; mkPSVariable (str "$B") [] [] 2 false] k) /\
    Permutation q [mkPSVariable (str "$A") [] [] 1 false; mkPSVariable (str "$B") [] [] 2 false].
Proof.
  apply (proj2 (swap_exchanges
                  [mkPSVariable (str "$A") [] [] 1 false;
                   mkPSVariable (str "$B") [] [] 2 false] 0 1));
    vm_compute; lia.
Defined.

(** ** The comparison listing *)

Lemma comparisonRow_done (original minimized : list gostring) (i : nat) (o : gostring) :
  nth_error original i = Some o ->
  comparisonRow original minimized i
  = Done (padRight 120 o ++ str " |" ++
          match nth_error minimized i with
          | Some m => sp :: m ++ newline
          | None => newline
          end).
Proof.
  intro E. unfold comparisonRow. rewrite E.
  destruct (i <? length minimized) eqn:El.
  - apply Nat.ltb_lt, nth_error_Some in El.
    destruct (nth_error minimized i); [reflexivity | congruence].
  - apply Nat.ltb_ge, nth_error_None in El. now rewrite El.
Qed.

Lemma printRows_done (original minimized : list gostring) (indices : list nat) :
  (forall i, In i indices -> i < length original) ->
  exists rows,
    printRows original minimized indices = Done rows /\
    map Some rows
    = map (fun i =>
             match nth_error original i with
             | Some o =>
                 Some (padRight 120 o ++ str " |" ++
                       match nth_error minimized i with
                       | Some m => sp :: m ++ newline
                       | None => newline
                       end)
             | None => None
             end) indices.
Proof.
  induction indices as [|i indices IH]; intro H; [now exists []|].
  destruct IH as (rows & E & Hrows); [intros k Hk; apply H; now right|].
  assert (Hi : i < length original) by (apply H; now left).
  destruct (nth_error original i) as [o|] eqn:Eo; [|apply nth_error_None in Eo; lia].
  exists ((padRight 120 o ++ str " |" ++
           match nth_error minimized i with
           | Some m => sp :: m ++ newline
           | None => newline
           end) :: rows).
  cbn [printRows map]. rewrite (@comparisonRow_done original minimized i o Eo). cbn [bindO].
  rewrite E. cbn [bindO]. rewrite Eo, Hrows. now split.
Qed.

(** X26. The comparison listing never reads outside its slices: it prints
    one row for every original line, whatever the number of minimized lines.
    A row is the original line filled with spaces up to 120 characters, a
    space and a bar, then a space and the minimized line of the same index
    when there is one, and a line feed. *)
Theorem comparison_rows (original minimized : list gostring) :
  exists rows,
    printComparison original minimized = Done rows /\
    length rows = length original /\
    forall i o, nth_error original i = Some o ->
      nth_error rows i
      = Some (o ++ repeat sp (120 - length o) ++ str " |" ++
              match nth_error minimized i with
              | Some m => sp :: m ++ newline
              | None => newline
              end).
Proof.
  unfold printComparison.
  destruct (@printRows_done original minimized (seq 0 (length original)))
    as (rows & E & Hrows).
  { intros i Hi. apply in_seq in Hi. lia. }
  exists rows. split; [exact E|].
  assert (Hlen : length rows = length original).
  { apply (f_equal (@length _)) in Hrows. now rewrite !length_map, length_seq in Hrows. }
  split; [exact Hlen|].
  intros i o Eo.
  assert (Hi : i < length original) by (apply nth_error_Some; congruence).
  apply (f_equal (fun l => nth_error l i)) in Hrows.
  rewrite !nth_error_map in Hrows.
  rewrite (@nth_error_nth' _ (seq 0 (length original)) i 0) in Hrows
    by (rewrite length_seq; exact Hi).
  rewrite seq_nth in Hrows by exact Hi. cbn [Nat.add option_map] in Hrows.
  rewrite Eo in Hrows.
  destruct (nth_error rows i) as [r|]; [|discriminate Hrows].
  cbn [option_map] in Hrows. injection Hrows as ->.
  unfold padRight. now rewrite <- app_assoc.
Qed.

(** ** The whole run *)

Lemma shortenVariables_lines (rt : runtime) (p q : PSVariables)
    (lines out : list gostring) :
  shortenVariables rt p lines = Done (q, out) ->
  out = map (toShort q) (map (toUnique q) lines).
Proof.
  unfold shortenVariables, replaceVariablesWithUnique, replaceUniqueWithShort.
  destruct (assignUniqueRandomNames rt (sortBy rt lessCount p)) as [p1| |];
    cbn [bindO]; try discriminate.
  destruct (generateShortNames p1) as [p2| |]; cbn [bindO]; try discriminate.
  now intros [= <- <-].
Qed.

Lemma shortenAll_length (reserved : list gostring) (rt : runtime)
    (lines out : list gostring) :
  shortenAllVariableNames reserved rt lines = Done out -> length out = length lines.
Proof.
  unfold shortenAllVariableNames, renameRun.
  destruct (shortenVariables rt (getVariables reserved rt lines) lines)
    as [[q ls]| |] eqn:E; cbn [bindO]; try discriminate.
  intros [= <-]. cbn [snd]. rewrite (@shortenVariables_lines _ _ _ _ _ E).
  now rewrite !length_map.
Qed.

Lemma stripAllFrom_length (lines : list gostring) :
  forall multi out, stripAllFrom lines multi = Done out -> length out = length lines.
Proof.
  induction lines as [|l lines IH]; intros multi out; cbn [stripAllFrom].
  - now intros [= <-].
  - destruct (stripComments l multi) as [[o m]| |]; try discriminate.
    destruct (stripAllFrom lines m) as [rest| |] eqn:Er; try discriminate.
    intros [= <-]. simpl. f_equal. eapply IH, Er.
Qed.

Lemma removeAllNewLines_le (lines : list gostring) :
  length (removeAllNewLines lines) <= length lines.
Proof.
  unfold removeAllNewLines. induction lines as [|l lines IH]; [simpl; lia|].
  cbn [flat_map]. rewrite length_app. destruct (joinLine l); simpl; lia.
Qed.

Lemma removeAllNewLines_nonempty (lines : list gostring) :
  Forall (fun l => l <> []) (removeAllNewLines lines).
Proof.
  unfold removeAllNewLines. induction lines as [|l lines IH]; [constructor|].
  cbn [flat_map]. destruct (joinLine l) as [out|] eqn:E; [|exact IH].
  constructor; [|exact IH].
  destruct (@joinLine_out _ _ E) as (Hne & [-> | [-> | ->]]); [exact Hne| |];
    intro Ex; apply app_eq_nil in Ex as [_ Ex]; discriminate Ex.
Qed.

(** X27. A run that returns gives at most as many lines as the script has,
    and none of them is empty. *)
Theorem minimize_never_adds_lines (reserved : list gostring) (rt : runtime)
    (lines out : list gostring) :
  minimize reserved rt lines = Done out ->
  length out <= length lines /\ Forall (fun l => l <> []) out.
Proof.
  unfold minimize.
  destruct (stripAllComments lines) as [stripped| |] eqn:Es; cbn [bindO];
    try discriminate.
  destruct (shortenAllVariableNames reserved rt stripped) as [renamed| |] eqn:Er;
    cbn [bindO]; try discriminate.
  intros [= <-].
  split; [|apply removeAllNewLines_nonempty].
  etransitivity; [apply removeAllNewLines_le|].
  unfold removeExtraSpaces. rewrite length_map.
  rewrite (@shortenAll_length _ _ _ _ Er).
  unfold stripAllComments in Es. rewrite (@stripAllFrom_length _ _ _ Es). lia.
Qed.

Lemma minimize_never_adds_lines_witness :
  length [str "$A=$A+1;"] <= length [str "# count"; str "$i = $i + 1"; str "  "] /\
  Forall (fun l => l <> []) [str "$A=$A+1;"].
Proof.
  apply (@minimize_never_adds_lines sampleReserved (runWith 0)).
  reflexivity.
Defined.

(** ** The case of the letters *)

Lemma upperChar_marks (c : ascii) :
  beq (upperChar c) CHARComment = beq c CHARComment /\
  beq (upperChar c) GT = beq c GT /\
  beq (upperChar c) LT = beq c LT /\
  beq (upperChar c) ESCChar1 = beq c ESCChar1 /\
  beq (upperChar c) ESCChar2 = beq c ESCChar2.
Proof. destruct c as [[] [] [] [] [] [] [] []]; repeat split; reflexivity. Qed.

Lemma removelast_map (A B : Type) (f : A -> B) (l : list A) :
  removelast (map f l) = map f (removelast l).
Proof.
  induction l as [|a l IH]; [reflexivity|].
  destruct l as [|b l]; [reflexivity|].
  change (f a :: removelast (map f (b :: l)) = f a :: map f (removelast (b :: l))).
  now rewrite IH.
Qed.

(** The stripper looks at five characters only, none of them a letter. *)
Lemma stripLoop_upper (line : gostring) :
  forall fuel i multi minLine,
    stripLoop fuel (ToUpper line) i multi (ToUpper minLine)
    = match stripLoop fuel line i multi minLine with
      | Done (out, m) => Done (ToUpper out, m)
      | Panic => Panic
      | OutOfFuel => OutOfFuel
      end.
Proof.
  assert (Hlen : length (ToUpper line) = length line) by apply length_map.
  assert (Hnth : forall k, nth_error (ToUpper line) k = option_map upperChar (nth_error line k)).
  { intro k. apply nth_error_map. }
  assert (Hsnoc : forall ml c, ToUpper ml ++ [upperChar c] = ToUpper (ml ++ [c])).
  { intros ml c. unfold ToUpper. now rewrite map_app. }
  induction fuel as [|fuel IH]; intros i multi minLine; cbn [stripLoop];
    rewrite Hlen; destruct (i <? length line); cbn [negb]; try reflexivity.
  rewrite Hnth. destruct (nth_error line i) as [c|]; cbn [option_map]; [|reflexivity].
  destruct (upperChar_marks c) as (-> & _).
  destruct multi.
  - destruct (beq c CHARComment); [|apply IH].
    destruct (i <=? length line); [|apply IH].
    rewrite Hnth. destruct (nth_error line (i + 1)) as [d|]; cbn [option_map];
      [|reflexivity].
    destruct (upperChar_marks d) as (_ & -> & _).
    destruct (beq d GT); apply IH.
  - destruct (beq c CHARComment); [|rewrite Hsnoc; apply IH].
    destruct i as [|j]; [reflexivity|].
    rewrite Hnth. destruct (nth_error line j) as [p|]; cbn [option_map];
      [|reflexivity].
    destruct (upperChar_marks p) as (_ & _ & -> & -> & ->).
    destruct ((S j <=? length line) && (beq p ESCChar1 || beq p ESCChar2));
      [rewrite Hsnoc; apply IH|].
    destruct ((S j <=? length line) && beq p LT); [|reflexivity].
    destruct minLine as [|x ml]; [reflexivity|].
    replace (removelast (ToUpper (x :: ml))) with (ToUpper (removelast (x :: ml)))
      by (symmetry; apply removelast_map).
    change (ToUpper (x :: ml)) with (upperChar x :: ToUpper ml) at 1.
    cbv iota. apply IH.
Qed.

Lemma stripComments_upper (line : gostring) (multi : bool) :
  stripComments (ToUpper line) multi
  = match stripComments line multi with
    | Done (out, m) => Done (ToUpper out, m)
    | Panic => Panic
    | OutOfFuel => OutOfFuel
    end.
Proof.
  unfold stripComments. destruct line as [|c l]; [reflexivity|].
  change (ToUpper (c :: l)) with (upperChar c :: ToUpper l).
  destruct (upperChar_marks c) as (-> & _).
  destruct (beq c CHARComment); [reflexivity|].
  change (upperChar c :: ToUpper l) with (ToUpper (c :: l)).
  replace (length (ToUpper (c :: l))) with (length (c :: l))
    by (symmetry; apply length_map).
  apply (@stripLoop_upper (c :: l) _ 0 multi []).
Qed.

Lemma stripAllFrom_upper (lines : list gostring) :
  forall multi,
    stripAllFrom (map ToUpper lines) multi
    = match stripAllFrom lines multi with
      | Done out => Done (map ToUpper out)
      | Panic => Panic
      | OutOfFuel => OutOfFuel
      end.
Proof.
  induction lines as [|l lines IH]; intro multi; [reflexivity|].
  cbn [map stripAllFrom]. rewrite stripComments_upper.
  destruct (stripComments l multi) as [[o m]| |]; try reflexivity.
  rewrite IH. now destruct (stripAllFrom lines m).
Qed.

Lemma toUnique_upper (p : PSVariables) (line : gostring) :
  toUnique p (ToUpper line) = toUnique p line.
Proof. unfold toUnique. now rewrite ToUpper_idem. Qed.

Lemma shortenAll_upper (reserved : list gostring) (rt : runtime)
    (lines : list gostring) :
  shortenAllVariableNames reserved rt (map ToUpper lines)
  = shortenAllVariableNames reserved rt lines.
Proof.
  unfold shortenAllVariableNames, renameRun, getVariables.
  rewrite countVars_upper.
  unfold shortenVariables, replaceVariablesWithUnique, replaceUniqueWithShort.
  destruct (assignUniqueRandomNames rt _) as [p1| |]; cbn [bindO]; try reflexivity.
  destruct (generateShortNames p1) as [p2| |]; cbn [bindO]; try reflexivity.
  cbn [snd]. do 2 f_equal. rewrite map_map.
  apply map_ext. intro l. apply toUnique_upper.
Qed.

(** X28. The run does not see the case of the letters of the script: the
    script and its upper-case image are minimized to the same result, with
    any run-time system, whether the run returns or panics. *)
Theorem minimize_ignores_case (reserved : list gostring) (rt : runtime)
    (lines : list gostring) :
  minimize reserved rt (map ToUpper lines) = minimize reserved rt lines.
Proof.
  unfold minimize, stripAllComments. rewrite stripAllFrom_upper.
  destruct (stripAllFrom lines false) as [stripped| |]; cbn [bindO]; try reflexivity.
  now rewrite shortenAll_upper.
Qed.

(** ** Scripts without code *)

Lemma space_marks (c : ascii) :
  isSpace c = true ->
  beq c CHARComment = false /\ beq c sigil = false /\ beq c ESCChar2 = false /\
  upperChar c = c /\ ~ In c operatorChars.
Proof.
  destruct c as [[] [] [] [] [] [] [] []]; intro H; try discriminate H;
    repeat split; try reflexivity; apply absent_dec; reflexivity.
Qed.

Lemma findAllFrom_blank (s : gostring) :
  forallb isSpace s = true -> forall k, findAllFrom k s = [].
Proof.
  induction s as [|c s IH]; intros H k; [reflexivity|].
  simpl in H. apply andb_true_iff in H as [Hc Hs].
  destruct (space_marks c Hc) as (_ & H1 & H2 & _).
  cbn [findAllFrom]. destruct k as [|k]; [|now apply IH].
  unfold matchAt. rewrite H1, H2. now apply IH.
Qed.

Lemma countFold_blank (lines : list gostring) (m : list (gostring * nat)) :
  Forall (fun l => forallb isSpace l = true) lines -> fold_left countLine lines m = m.
Proof.
  intro H. revert m. induction H as [|l lines Hl _ IH]; intro m; [reflexivity|].
  cbn [fold_left]. unfold countLine at 2. unfold findAll.
  rewrite findAllFrom_blank by exact Hl. cbn [fold_left]. apply IH.
Qed.

Lemma ToUpper_blank (l : gostring) : forallb isSpace l = true -> ToUpper l = l.
Proof.
  induction l as [|c l IH]; intro H; [reflexivity|].
  simpl in H. apply andb_true_iff in H as [Hc Hl].
  destruct (space_marks c Hc) as (_ & _ & _ & E & _).
  cbn [ToUpper map]. rewrite E. f_equal. now apply IH.
Qed.

Lemma compactLine_blank (l : gostring) :
  forallb isSpace l = true -> compactLine l = l.
Proof.
  intro H. apply compactLine_plain. intros c Hc Hin.
  rewrite forallb_forall in H. specialize (H c Hin).
  now destruct (space_marks c H) as (_ & _ & _ & _ & Hn).
Qed.

Lemma removeAllNewLines_blank (lines : list gostring) :
  Forall (fun l => forallb isSpace l = true) lines -> removeAllNewLines lines = [].
Proof.
  unfold removeAllNewLines.
  induction 1 as [|l lines Hl _ IH]; [reflexivity|].
  cbn [flat_map]. rewrite IH, joinLine_blank; [reflexivity|].
  rewrite trimLine_TrimSpace. now apply TrimSpace_nil.
Qed.

(** The stripper on lines that are comments or white space: the comments
    become empty lines, the others stay, and no block comment opens. *)
Lemma stripAllFrom_blank (lines : list gostring) :
  Forall (fun l => hasPrefix [CHARComment] l = true \/ forallb isSpace l = true) lines ->
  exists out, stripAllFrom lines false = Done out /\
              Forall (fun l => forallb isSpace l = true) out.
Proof.
  induction 1 as [|l lines Hl _ (out & E & Hout)]; [exists []; now split|].
  cbn [stripAllFrom].
  assert (Hs : exists o, stripComments l false = Done (o, false) /\
                         forallb isSpace o = true).
  { destruct Hl as [Hl|Hl].
    - destruct l as [|c l]; [now exists []|].
      cbn [hasPrefix] in Hl. apply andb_true_iff in Hl as [Hc _].
      rewrite beq_sym in Hc.
      exists []. unfold stripComments. now rewrite Hc.
    - exists l. split; [|exact Hl].
      apply plain_line_kept. intro Hin.
      rewrite forallb_forall in Hl. specialize (Hl _ Hin). discriminate Hl. }
  destruct Hs as (o & -> & Ho). rewrite E. exists (o :: out). split; [reflexivity|].
  now constructor.
Qed.

(** X29. A script whose lines are comments that start the line, or white
    space, or empty, is minimized to nothing. *)
Theorem comments_and_blanks_vanish (reserved : list gostring) (rt : runtime)
    (lines : list gostring) :
  goodRuntime rt ->
  Forall (fun l => hasPrefix [CHARComment] l = true \/ forallb isSpace l = true) lines ->
  minimize reserved rt lines = Done [].
Proof.
  intros Hrt H. unfold minimize, stripAllComments.
  destruct (stripAllFrom_blank H) as (stripped & -> & Hb). cbn [bindO].
  assert (Hc : countVars stripped = []).
  { unfold countVars. now apply countFold_blank. }
  unfold shortenAllVariableNames.
  rewrite (@renameRun_closed reserved rt Hrt stripped)
    by (rewrite Hc; simpl; intros i Hi; lia).
  cbn [bindO snd].
  assert (Hp : finalVars reserved rt stripped = []).
  { apply length_zero_iff_nil. rewrite (finalVars_length reserved Hrt stripped).
    now rewrite Hc. }
  rewrite Hp. f_equal. apply removeAllNewLines_blank.
  unfold removeExtraSpaces. rewrite !map_map.
  apply Forall_forall. intros x Hx. apply in_map_iff in Hx as (l & <- & Hl).
  rewrite Forall_forall in Hb. specialize (Hb l Hl).
  unfold toShort, toUnique. cbn [fold_left].
  rewrite (ToUpper_blank _ Hb), (compactLine_blank _ Hb). exact Hb.
Qed.

Lemma comments_and_blanks_vanish_witness :
  minimize sampleReserved (runWith 0)
    [str "# a script"; str "   "; []; str "#requires -Version 5"] = Done [].
Proof.
  apply comments_and_blanks_vanish; [apply runWith_good|].
  constructor; [left; reflexivity|]. constructor; [right; reflexivity|].
  constructor; [right; reflexivity|]. constructor; [left; reflexivity|].
  constructor.
Defined.

(** ** Scripts without variables and comments *)

Lemma findAllFrom_plain (s : gostring) :
  ~ In sigil s -> forall k, findAllFrom k s = [].
Proof.
  induction s as [|c s IH]; intros H k; [reflexivity|].
  assert (Hc : beq c sigil = false).
  { apply beq_neq. intros ->. apply H. now left. }
  assert (Hs : ~ In sigil s) by (intro Hin; apply H; now right).
  cbn [findAllFrom]. destruct k as [|k]; [|now apply IH].
  unfold matchAt. rewrite Hc.
  destruct (beq c ESCChar2); [|now apply IH].
  destruct s as [|d s']; [reflexivity|].
  assert (Hd : beq d sigil = false).
  { apply beq_neq. intros ->. apply Hs. now left. }
  rewrite Hd. now apply IH.
Qed.

Lemma countFold_plain (lines : list gostring) (m : list (gostring * nat)) :
  Forall (fun l => ~ In sigil l) lines -> fold_left countLine lines m = m.
Proof.
  intro H. revert m. induction H as [|l lines Hl _ IH]; intro m; [reflexivity|].
  cbn [fold_left]. unfold countLine at 2. unfold findAll.
  rewrite findAllFrom_plain by exact Hl. cbn [fold_left]. apply IH.
Qed.

Lemma stripAllFrom_plain (lines : list gostring) :
  Forall (fun l => ~ In CHARComment l) lines -> stripAllFrom lines false = Done lines.
Proof.
  induction 1 as [|l lines Hl _ IH]; [reflexivity|].
  cbn [stripAllFrom]. now rewrite (@plain_line_kept l Hl), IH.
Qed.

(** X30. On a script in which neither the comment marker nor the sigil
    occurs, the stripper and the renamer have nothing to find: the result is
    the upper-case image of the lines, compacted and joined. *)
Theorem plain_script_minimized (reserved : list gostring) (rt : runtime)
    (lines : list gostring) :
  goodRuntime rt ->
  Forall (fun l => ~ In CHARComment l /\ ~ In sigil l) lines ->
  minimize reserved rt lines
  = Done (removeAllNewLines (removeExtraSpaces (map ToUpper lines))).
Proof.
  intros Hrt H. unfold minimize, stripAllComments.
  rewrite stripAllFrom_plain
    by (eapply Forall_impl; [|exact H]; now intros l (Hl & _)).
  cbn [bindO].
  assert (Hc : countVars lines = []).
  { unfold countVars. apply countFold_plain.
    eapply Forall_impl; [|exact H]. now intros l (_ & Hl). }
  unfold shortenAllVariableNames.
  rewrite (@renameRun_closed reserved rt Hrt lines)
    by (rewrite Hc; simpl; intros i Hi; lia).
  cbn [bindO snd].
  assert (Hp : finalVars reserved rt lines = []).
  { apply length_zero_iff_nil. rewrite (finalVars_length reserved Hrt lines).
    now rewrite Hc. }
  rewrite Hp. do 3 f_equal. rewrite map_map. reflexivity.
Qed.

Lemma plain_script_minimized_witness :
  minimize sampleReserved (runWith 0) [str "Get-Date"; str "  exit 0"]
  = Done (removeAllNewLines (removeExtraSpaces (map ToUpper [str "Get-Date"; str "  exit 0"]))).
Proof.
  apply plain_script_minimized; [apply runWith_good|].
  repeat constructor; apply absent_dec; reflexivity.
Defined.

(** * Names, aliases and letters in a run *)

(** ** Names and aliases in a run *)

Lemma runWith_arrive (base n : nat) : drawsArrive (runWith base) n.
Proof.
  intros i _. eexists. split; [reflexivity|].
  unfold isUUIDText. apply andb_true_iff. split.
  - apply Nat.eqb_eq. unfold hex12. rewrite length_app, length_rev.
    assert (H : forall w m, length (hexRev w m) = w).
    { induction w as [|w IH]; intro m; simpl; [reflexivity | now rewrite IH]. }
    rewrite H. reflexivity.
  - rewrite forallb_app. apply andb_true_iff. split; [reflexivity|].
    unfold hex12. apply forallb_rev.
    assert (H : forall w m, forallb isUUIDChar (hexRev w m) = true).
    { induction w as [|w IH]; intro m; [reflexivity|].
      cbn [hexRev forallb]. rewrite IH, andb_true_r.
      assert (Hm : m mod 16 < 16) by (apply Nat.mod_upper_bound; lia).
      remember (m mod 16) as d eqn:Ed. clear Ed.
      do 16 (destruct d as [|d]; [reflexivity|]). lia. }
    apply H.
Qed.


Lemma finalVars_aliasOk_arrive (reserved : list gostring) (rt : runtime)
    (lines : list gostring) :
  goodRuntime rt -> drawsArrive rt (length (countVars lines)) ->
  Forall aliasOk (finalVars reserved rt lines).
Proof.
  intros Hrt Hd. unfold finalVars.
  eapply Permutation_Forall; [symmetry; apply (sort_perm Hrt)|].
  apply assignShort_aliasOk.
  eapply Permutation_Forall; [symmetry; apply (sort_perm Hrt)|].
  apply withAliases_aliasOk. intros j Hj. apply Hd.
  rewrite (Permutation_length (sort_perm Hrt _ _)), getVariables_length in Hj
    by assumption.
  lia.
Qed.

Lemma renameRun_arrive (reserved : list gostring) (rt : runtime)
    (lines : list gostring) :
  goodRuntime rt -> drawsArrive rt (length (countVars lines)) ->
  renameRun reserved rt lines
  = Done (finalVars reserved rt lines,
          map (toShort (finalVars reserved rt lines))
            (map (toUnique (finalVars reserved rt lines)) lines)).
Proof.
  intros Hrt Hd. apply renameRun_closed; [exact Hrt|].
  intros i Hi. destruct (Hd i Hi) as (u & -> & _). discriminate.
Qed.







(** ** Lower-case letters in the output *)

Lemma lowerAfter_weaken (ok : ascii -> bool) (b : bool) (s : gostring) :
  lowerAfter ok false s = true -> lowerAfter ok b s = true.
Proof.
  destruct s as [|c s]; [reflexivity|]. cbn [lowerAfter andb].
  rewrite orb_false_r. intro H. apply andb_true_iff in H as [H1 H2].
  now rewrite H1, H2.
Qed.

Lemma lowerAfter_noLower (ok : ascii -> bool) (s : gostring) :
  noLower s = true -> forall b, lowerAfter ok b s = true.
Proof.
  unfold noLower. induction s as [|c s IH]; intros H b; [reflexivity|].
  cbn [forallb] in H. apply andb_true_iff in H as [Hc Hs].
  cbn [lowerAfter]. rewrite Hc. cbn [orb andb]. now apply IH.
Qed.

Lemma lowerAfter_prefix (ok : ascii -> bool) (x y : gostring) :
  forall b, lowerAfter ok b (x ++ y) = true -> lowerAfter ok b x = true.
Proof.
  induction x as [|c x IH]; intros b H; [reflexivity|].
  cbn [app lowerAfter] in *. apply andb_true_iff in H as [H1 H2].
  rewrite H1. cbn [andb]. now apply IH with (b := beq c sigil).
Qed.

Lemma lowerAfter_suffix (ok : ascii -> bool) (x y : gostring) :
  forall b, lowerAfter ok b (x ++ y) = true ->
            x <> [] -> beq (last x sp) sigil = false ->
            lowerAfter ok false y = true.
Proof.
  induction x as [|c x IH]; intros b H Hne Hl; [congruence|].
  cbn [app lowerAfter] in H. apply andb_true_iff in H as [_ H2].
  destruct x as [|d x'].
  - cbn [last] in Hl. cbn [app] in H2. now rewrite Hl in H2.
  - apply IH with (b := beq c sigil); [exact H2 | discriminate | exact Hl].
Qed.

Lemma lowerAfter_join (ok : ascii -> bool) (x y : gostring) :
  forall b, lowerAfter ok b x = true -> lowerAfter ok false y = true ->
            lowerAfter ok b (x ++ y) = true.
Proof.
  induction x as [|c x IH]; intros b Hx Hy; [now apply lowerAfter_weaken|].
  cbn [app lowerAfter] in *. apply andb_true_iff in Hx as [H1 H2].
  rewrite H1. cbn [andb]. now apply IH.
Qed.

(** A substitution whose pattern does not end in the sigil, and whose
    replacement is in order behind anything, keeps the letters in order. *)
Lemma lowerAfter_Replace (ok : ascii -> bool) (s old new : gostring) :
  old <> [] -> beq (last old sp) sigil = false ->
  (forall b, lowerAfter ok b new = true) ->
  forall b, lowerAfter ok b s = true -> lowerAfter ok b (Replace s old new) = true.
Proof.
  intros Hold Hlast Hnew.
  apply (@Replace_cases old new
           (fun s r => forall b, lowerAfter ok b s = true -> lowerAfter ok b r = true));
    try exact Hold.
  - intros b _. reflexivity.
  - intros rest IH b H. apply lowerAfter_join; [apply Hnew|].
    apply IH. eapply lowerAfter_suffix; eassumption.
  - intros c s' _ IH b H. cbn [lowerAfter] in *.
    apply andb_true_iff in H as [H1 H2]. rewrite H1. cbn [andb]. now apply IH.
Qed.

Lemma alias_end (v : PSVariable) :
  aliasOk v -> UniqueName v <> [] /\ beq (last (UniqueName v) sp) sigil = false.
Proof.
  intro H. destruct (aliasOk_shape H) as (X & E & HX & Hl).
  rewrite E. split; [discriminate|].
  destruct X as [|x X]; [discriminate Hl|].
  change (last (sigil :: tilde :: tilde :: x :: X) sp) with (last (x :: X) sp).
  destruct (@exists_last _ (x :: X)) as (X0 & z & E'); [discriminate|].
  rewrite E' in *. rewrite last_last.
  rewrite forallb_app in HX. apply andb_true_iff in HX as [_ Hz].
  cbn [forallb] in Hz. rewrite andb_true_r in Hz. unfold plainChar in Hz.
  apply andb_true_iff in Hz as [Hz _]. now apply negb_true_iff in Hz.
Qed.

Lemma Itoa_noLower (n : nat) : noLower (Itoa n) = true.
Proof.
  unfold Itoa, noLower.
  induction (Nat.to_uint n) as [|d IH|d IH|d IH|d IH|d IH|d IH|d IH|d IH|d IH|d IH];
    simpl; try reflexivity; exact IH.
Qed.

Lemma nameLetter_In (p : PSVariables) (v : PSVariable) (c : ascii) (rest : gostring) :
  In v p -> Reserved v = false -> ShortName v = sigil :: c :: rest ->
  nameLetter p c = true.
Proof.
  intros Hin Hr Hs. unfold nameLetter. apply existsb_exists.
  exists v. split; [exact Hin|]. rewrite Hr, Hs. cbn [negb andb hasPrefix].
  now rewrite !beq_refl.
Qed.

Section RunLetters.

Variable reserved : list gostring.
Variable rt : runtime.
Hypothesis Hrt : goodRuntime rt.
Variable lines : list gostring.

Lemma finalVars_upper (v : PSVariable) :
  In v (finalVars reserved rt lines) -> noLower (OriginalName v) = true.
Proof.
  intro Hin. apply (in_map OriginalName) in Hin.
  apply (Permutation_in _ (finalVars_names reserved Hrt lines)) in Hin.
  apply countVars_keys in Hin as (line & r & _ & _ & ->).
  apply ToUpper_noLower.
Qed.

(** A short name is in order behind anything: that of a reserved variable
    is its name, in upper case, and the others are the sigil, a letter of the
    table and maybe a numeral. *)
Lemma finalVars_shortLetters (v : PSVariable) :
  In v (finalVars reserved rt lines) ->
  forall b, lowerAfter (nameLetter (finalVars reserved rt lines)) b (ShortName v) = true.
Proof.
  intros Hin b.
  destruct (Reserved v) eqn:Er.
  - pose proof (@finalVars_varOk reserved rt Hrt lines) as Hv.
    rewrite Forall_forall in Hv. destruct (Hv v Hin) as (_ & Hs & _).
    rewrite (Hs Er). apply lowerAfter_noLower. now apply finalVars_upper.
  - assert (Hin' := Hin). unfold finalVars in Hin'.
    apply (Permutation_in _ (sort_perm Hrt _ _)) in Hin'.
    apply assignShort_In in Hin' as [[_ H2]|(u & j & _ & _ & _ & E)]; [congruence|].
    assert (Es : ShortName v = shortNameAt j) by now rewrite E.
    unfold shortNameAt in Es. cbn [app] in Es.
    rewrite Es. cbn [lowerAfter]. rewrite beq_refl.
    rewrite (@nameLetter_In _ v _ _ Hin Er Es). cbn [andb].
    replace (isLower sigil) with false by reflexivity. cbn [negb orb andb].
    rewrite orb_true_r. cbn [andb].
    apply lowerAfter_noLower.
    destruct (0 <? j / 51); [apply Itoa_noLower | reflexivity].
Qed.

Hypothesis Hdraws : drawsArrive rt (length (countVars lines)).

Lemma toShort_letters (line : gostring) :
  lowerAfter (nameLetter (finalVars reserved rt lines)) false
    (toShort (finalVars reserved rt lines) (toUnique (finalVars reserved rt lines) line))
  = true.
Proof.
  pose proof (@finalVars_aliasOk_arrive reserved rt lines Hrt Hdraws) as Ha.
  set (p := finalVars reserved rt lines) in *.
  assert (H0 : lowerAfter (nameLetter p) false (toUnique p line) = true).
  { apply lowerAfter_noLower. apply toUnique_noLower.
    eapply Forall_impl; [|exact Ha]. apply aliasOk_noLower. }
  unfold toShort. revert H0. generalize (toUnique p line).
  assert (Hs : Forall (fun v => forall b, lowerAfter (nameLetter p) b (ShortName v) = true) p).
  { apply Forall_forall. intros v Hv. now apply finalVars_shortLetters. }
  revert Ha Hs. generalize (nameLetter p). generalize p at 1 2 3.
  induction p0 as [|v p0 IH]; intros ok Ha Hs l Hl; [exact Hl|].
  inversion Ha as [|? ? Hav Hap]; subst. inversion Hs as [|? ? Hsv Hsp]; subst.
  cbn [fold_left]. apply IH; try assumption.
  destruct (alias_end Hav) as (Hne & Hend).
  now apply lowerAfter_Replace.
Qed.

End RunLetters.

Lemma compactLine_letters (ok : ascii -> bool) (l : gostring) :
  lowerAfter ok false l = true -> lowerAfter ok false (compactLine l) = true.
Proof.
  unfold compactLine.
  assert (Ht : Forall (fun sub => fst sub <> [] /\
                                  beq (last (fst sub) sp) sigil = false /\
                                  noLower (snd sub) = true) spacingTable).
  { unfold spacingTable.
    repeat (constructor; [split; [discriminate | split; reflexivity]|]).
    constructor. }
  revert Ht l. generalize spacingTable.
  induction 1 as [|sub t (H1 & H2 & H3) _ IH]; intros l Hl; [exact Hl|].
  cbn [fold_left]. apply IH. apply lowerAfter_Replace; try assumption.
  now apply lowerAfter_noLower.
Qed.

Lemma space_not_sigil (a : gostring) :
  forallb isSpace a = true -> a <> [] -> beq (last a sp) sigil = false.
Proof.
  intros H Hne.
  destruct (@exists_last _ a Hne) as (a0 & z & ->).
  rewrite last_last. rewrite forallb_app in H.
  apply andb_true_iff in H as [_ Hz]. cbn [forallb] in Hz.
  rewrite andb_true_r in Hz. now destruct (space_marks z Hz) as (_ & Hs & _).
Qed.

Lemma joinLine_letters (ok : ascii -> bool) (l o : gostring) :
  joinLine l = Some o -> lowerAfter ok false l = true -> lowerAfter ok false o = true.
Proof.
  intros Hj Hl.
  destruct (@joinLine_out _ _ Hj) as (_ & Ho).
  rewrite trimLine_TrimSpace in Ho.
  destruct (TrimSpace_split l) as (a & b & E & Ha & _ & _).
  assert (Ht : lowerAfter ok false (TrimSpace l) = true).
  { rewrite E in Hl. destruct a as [|x a'].
    - cbn [app] in Hl. eapply lowerAfter_prefix, Hl.
    - eapply lowerAfter_prefix.
      eapply lowerAfter_suffix; [exact Hl | discriminate | now apply space_not_sigil]. }
  destruct Ho as [-> | [-> | ->]]; [exact Ht| |];
    apply lowerAfter_join; try exact Ht; reflexivity.
Qed.

Lemma removeAllNewLines_Forall (P Q : gostring -> Prop) (ls : list gostring) :
  (forall l o, joinLine l = Some o -> P l -> Q o) ->
  Forall P ls -> Forall Q (removeAllNewLines ls).
Proof.
  intros H Hls. unfold removeAllNewLines.
  induction Hls as [|l ls Hl _ IH]; [constructor|].
  cbn [flat_map]. destruct (joinLine l) as [o|] eqn:E; [|exact IH].
  constructor; [now apply (H l) | exact IH].
Qed.

(** C10. For every script on which the stripper returns, with a run-time
    system that honours its contracts and identifiers that arrive well formed:
    the renaming stage returns every line rewritten by the two passes, the
    first of which starts from the upper-case image of the line and leaves no
    lower-case letter; the run returns these lines compacted and joined; and
    in every line of this final output a lower-case letter only stands right
    behind a sigil, as the letter of the short name of a variable that is not
    reserved.  A line without any sigil leaves the renaming stage as its
    upper-case image and the run without a lower-case letter, and when no
    variable is discovered the whole output is without one. *)
Theorem final_output_upper_case (reserved : list gostring) (rt : runtime)
    (lines stripped : list gostring) :
  goodRuntime rt ->
  stripAllComments lines = Done stripped ->
  drawsArrive rt (length (countVars stripped)) ->
  exists p renamed,
    renameRun reserved rt stripped = Done (p, renamed) /\
    shortenAllVariableNames reserved rt stripped = Done renamed /\
    minimize reserved rt lines = Done (removeAllNewLines (removeExtraSpaces renamed)) /\
    renamed = map (fun l => toShort p (toUnique p l)) stripped /\
    (forall l, noLower (toUnique p l) = true) /\
    Forall (fun o => lowerInNames p o = true)
           (removeAllNewLines (removeExtraSpaces renamed)) /\
    (forall l, ~ In sigil l ->
       toShort p (toUnique p l) = ToUpper l /\
       forall o, joinLine (compactLine (ToUpper l)) = Some o -> noLower o = true) /\
    (countVars stripped = [] ->
       renamed = map ToUpper stripped /\
       Forall (fun o => noLower o = true)
              (removeAllNewLines (removeExtraSpaces renamed))).
Proof.
  intros Hrt Hs Hd.
  pose proof (@renameRun_arrive reserved rt stripped Hrt Hd) as Hrun.
  pose proof (@finalVars_aliasOk_arrive reserved rt stripped Hrt Hd) as Ha.
  pose proof (@finalVars_varOk reserved rt Hrt stripped) as Hv.
  exists (finalVars reserved rt stripped). eexists.
  split; [exact Hrun|].
  split; [unfold shortenAllVariableNames; now rewrite Hrun|].
  split.
  { unfold minimize. rewrite Hs. cbn [bindO].
    unfold shortenAllVariableNames. now rewrite Hrun. }
  split; [now rewrite map_map|].
  split.
  { intro l. apply toUnique_noLower.
    eapply Forall_impl; [|exact Ha]. apply aliasOk_noLower. }
  split.
  { apply removeAllNewLines_Forall
      with (P := fun l => lowerInNames (finalVars reserved rt stripped) l = true).
    - intros l o. unfold lowerInNames. apply joinLine_letters.
    - unfold removeExtraSpaces. rewrite !map_map.
      apply Forall_forall. intros x Hx. apply in_map_iff in Hx as (l & <- & _).
      unfold lowerInNames. apply compactLine_letters.
      now apply toShort_letters. }
  split.
  { intros l Hl. split.
    - apply passes_without_sigil; [| |exact Hl].
      + eapply Forall_impl; [|exact Hv].
        intros v (_ & _ & H). now apply startsVar_sigil.
      + eapply Forall_impl; [|exact Ha]. apply aliasOk_sigil.
    - intros o Ho. apply (joinLine_noLower _ Ho).
      apply compactLine_noLower, ToUpper_noLower. }
  intro Hnone.
  assert (Hnil : finalVars reserved rt stripped = []).
  { apply length_zero_iff_nil. rewrite finalVars_length by exact Hrt.
    now rewrite Hnone. }
  rewrite Hnil, map_map. split; [reflexivity|].
  apply removeAllNewLines_Forall with (P := fun l => noLower l = true).
  - intros l o Ho. now apply joinLine_noLower.
  - unfold removeExtraSpaces. rewrite map_map.
    apply Forall_forall. intros x Hx. apply in_map_iff in Hx as (l & <- & _).
    apply compactLine_noLower. cbn. apply ToUpper_noLower.
Qed.

Lemma final_output_upper_case_witness :
  exists p renamed,
    renameRun sampleReserved (runWith 0) [[]; str "Write-Host 'done'"; manyLine]
    = Done (p, renamed) /\
    shortenAllVariableNames sampleReserved (runWith 0)
      [[]; str "Write-Host 'done'"; manyLine] = Done renamed /\
    minimize sampleReserved (runWith 0)
      [str "# totals"; str "Write-Host 'done'"; manyLine]
    = Done (removeAllNewLines (removeExtraSpaces renamed)) /\
    renamed = map (fun l => toShort p (toUnique p l))
                  [[]; str "Write-Host 'done'"; manyLine] /\
    (forall l, noLower (toUnique p l) = true) /\
    Forall (fun o => lowerInNames p o = true)
           (removeAllNewLines (removeExtraSpaces renamed)) /\
    (forall l, ~ In sigil l ->
       toShort p (toUnique p l) = ToUpper l /\
       forall o, joinLine (compactLine (ToUpper l)) = Some o -> noLower o = true) /\
    (countVars [[]; str "Write-Host 'done'"; manyLine] = [] ->
       renamed = map ToUpper [[]; str "Write-Host 'done'"; manyLine] /\
       Forall (fun o => noLower o = true)
              (removeAllNewLines (removeExtraSpaces renamed))).
Proof.
  apply (@final_output_upper_case sampleReserved (runWith 0)
           [str "# totals"; str "Write-Host 'done'"; manyLine]).
  - apply runWith_good.
  - reflexivity.
  - apply runWith_arrive.
Defined.

(** With 52 variables the letters a to y are in use: the first line of the
    output is in upper case, the second carries lower-case short names. *)
Example lower_case_short_names_in_output :
  exists o1 o2,
    minimize sampleReserved (runWith 0) [str "Write-Host 'done'"; manyLine]
    = Done [o1; o2] /\
    o1 = str "WRITE-HOST 'DONE';" /\
    noLower o2 = false /\
    contains (str "+$a+") o2 = true.
Proof.
  eexists. eexists. split; [vm_compute; reflexivity|].
  split; [reflexivity|]. split; reflexivity.
Qed.
